(** * Bag-of-words matrix: serial baseline and MPI variant

    A shallow embedding of [serial.cpp] (the baseline, [bow::run_serial])
    and [paralelo.cpp] (the distributed variant, [bow::run_parallel]).

    Conventions of the embedding.
    - [std::string] is a list of bytes ([ascii]); [operator<] on strings is
      the lexicographic order on unsigned byte values.
    - [std::set<std::string>] and [std::map<std::string,int>] are ordered
      containers: they are represented by their in-order sequence, a strictly
      increasing list, and every operation keeps that sequence.
    - [std::unordered_map<std::string,int>] is a [gmap]; its iteration order
      is never used by the program.
    - [int] counts are [Z]; sizes, offsets and indices are [nat].  The
      arithmetic is the mathematical one: signed overflow is undefined in
      C++, so every quantity is taken to stay inside the range of [int].
    - [<cctype>] is read in the default "C" locale (the program never calls
      [setlocale]): the alphanumeric bytes are the ASCII digits and letters.
    - Storage is a function from a path to the bytes of the file, or [None]
      when the file cannot be opened.
    - What a run does to the outside world is a list of events: diagnostics
      on [std::cerr], collective MPI operations entered, and the call that
      writes the CSV file.  Wall-clock timing is not modelled. *)

From Stdlib Require Import Ascii String List ZArith Lia Permutation.
From Stdlib Require Import DecimalString DecimalPos DecimalZ.
From stdpp Require Import base list sorting gmap strings.

Open Scope Z_scope.
Open Scope nat_scope.
Open Scope list_scope.

Abbreviation std_string := (list ascii).

(** A string literal as a [std::string]. *)
Definition str (s : string) : std_string := list_ascii_of_string s.

(** ** <cctype> in the "C" locale *)

Definition isdigit (c : ascii) : bool :=
  let n := N_of_ascii c in ((48 <=? n) && (n <=? 57))%N.

Definition isupper (c : ascii) : bool :=
  let n := N_of_ascii c in ((65 <=? n) && (n <=? 90))%N.

Definition islower (c : ascii) : bool :=
  let n := N_of_ascii c in ((97 <=? n) && (n <=? 122))%N.

Definition isalnum (c : ascii) : bool := isdigit c || isupper c || islower c.

Definition tolower (c : ascii) : ascii :=
  if isupper c then ascii_of_N (N_of_ascii c + 32) else c.

Definition underscore : ascii := "_"%char.
Definition newline : ascii := "010"%char.
Definition comma : ascii := ","%char.
Definition slash : ascii := "/"%char.

(** ** Lexicographic order of [std::string] *)

Fixpoint string_compare (a b : std_string) : comparison :=
  match a, b with
  | [], [] => Eq
  | [], _ :: _ => Lt
  | _ :: _, [] => Gt
  | x :: a', y :: b' =>
      match Ascii.compare x y with
      | Eq => string_compare a' b'
      | c => c
      end
  end.

Definition string_lt (a b : std_string) : Prop := string_compare a b = Lt.

(** ** std::set<std::string> *)

Module StdSet.

Abbreviation t := (list std_string).

Definition empty : t := [].

(** [s.insert(w)]: the element is placed at its position in the order, and
    nothing happens when it is already there. *)
Fixpoint insert (w : std_string) (s : t) : t :=
  match s with
  | [] => [w]
  | x :: r =>
      match string_compare w x with
      | Lt => w :: s
      | Eq => s
      | Gt => x :: insert w r
      end
  end.

(** [s.insert(first, last)] *)
Definition insert_range (ws : list std_string) (s : t) : t :=
  fold_left (fun acc w => insert w acc) ws s.

End StdSet.

(** ** std::map<std::string, V> *)

Module StdMap.

Abbreviation t V := (list (std_string * V)).

Fixpoint find {V} (k : std_string) (m : t V) : option V :=
  match m with
  | [] => None
  | (x, v) :: r =>
      match string_compare k x with
      | Lt => None
      | Eq => Some v
      | Gt => find k r
      end
  end.

(** [m.emplace(k, v)]: inserts only when the key is absent. *)
Fixpoint emplace {V} (k : std_string) (v : V) (m : t V) : t V :=
  match m with
  | [] => [(k, v)]
  | (x, u) :: r =>
      match string_compare k x with
      | Lt => (k, v) :: m
      | Eq => m
      | Gt => (x, u) :: emplace k v r
      end
  end.

(** [++m[k]]: [operator[]] value-initialises a missing entry to 0, then the
    entry is incremented. *)
Fixpoint increment (k : std_string) (m : t Z) : t Z :=
  match m with
  | [] => [(k, 1%Z)]
  | (x, c) :: r =>
      match string_compare k x with
      | Lt => (k, 1%Z) :: m
      | Eq => (x, (c + 1)%Z) :: r
      | Gt => (x, c) :: increment k r
      end
  end.

End StdMap.

Abbreviation TermCount := (list (std_string * Z)).

(** ** The functions shared by both translation units

    [tokenize_document] and [count_tokens] have the same text in
    [serial.cpp] and in [paralelo.cpp]. *)

(** One iteration of the scan: the state is [(tokens, current_token)]. *)
Definition tokenize_step (st : list std_string * std_string) (raw : ascii)
  : list std_string * std_string :=
  let '(tokens, current_token) := st in
  let lower := tolower raw in
  if isalnum lower || Ascii.eqb lower underscore then
    (tokens, current_token ++ [lower])
  else
    match current_token with
    | [] => (tokens, current_token)
    | _ :: _ => (tokens ++ [current_token], [])
    end.

Definition tokenize_document (content : std_string) : list std_string :=
  let '(tokens, current_token) := fold_left tokenize_step content ([], []) in
  match current_token with
  | [] => tokens
  | _ :: _ => tokens ++ [current_token]
  end.

Definition count_tokens (tokens : list std_string) : TermCount :=
  fold_left (fun word_counts token => StdMap.increment token word_counts) tokens [].

(** ** Storage and observable events *)

Definition storage := std_string -> option std_string.

Inductive diagnostic :=
| cannot_open_file (path : std_string)
| no_documents
| no_valid_document
| no_rows_generated.

Inductive collective := MPI_Gather | MPI_Gatherv | MPI_Bcast | MPI_Barrier | MPI_Reduce.

Inductive event :=
| cerr (d : diagnostic)
| mpi (c : collective)
| write_csv (output_path : std_string) (matrix : list (list Z))
            (vocabulary : list std_string) (doc_names : list std_string).

(** [read_file]: the content, or a diagnostic and the empty string. *)
Definition read_file (fs : storage) (path : std_string) : list event * std_string :=
  match fs path with
  | None => ([cerr (cannot_open_file path)], [])
  | Some content => ([], content)
  end.

(** [std::filesystem::path(p).filename().string()] with the POSIX separator:
    what follows the last slash. *)
Definition filename (path : std_string) : std_string :=
  fold_left (fun acc c => if Ascii.eqb c slash then [] else acc ++ [c]) path [].

Record ExperimentConfig := {
  num_processes : Z;
  list_path : std_string;
  num_experiments : Z;
  document_paths : list std_string
}.

(** ** serial.cpp *)

Definition build_vocabulary (document_counts : list TermCount) : list std_string :=
  let ordered_unique_tokens :=
    fold_left (fun acc document_map =>
                 fold_left (fun acc' entry => StdMap.emplace (fst entry) 0%Z acc')
                           document_map acc)
              document_counts [] in
  map fst ordered_unique_tokens.

Definition build_matrix (document_counts : list TermCount)
           (vocabulary : list std_string) : list (list Z) :=
  map (fun document_map =>
         map (fun word => match StdMap.find word document_map with
                          | Some c => c
                          | None => 0%Z
                          end) vocabulary)
      document_counts.

Definition serial_output : std_string := str "results/bow_serial.csv".

(** The read loop of [run_serial]; the state is
    [(events, document_counts, processed_names)]. *)
Definition serial_read_step (fs : storage)
           (st : list event * list TermCount * list std_string)
           (document_path : std_string) :=
  let '(log, document_counts, processed_names) := st in
  let '(e, content) := read_file fs document_path in
  match content with
  | [] => (log ++ e, document_counts, processed_names)
  | _ :: _ =>
      (log ++ e,
       document_counts ++ [count_tokens (tokenize_document content)],
       processed_names ++ [filename document_path])
  end.

Definition run_serial (fs : storage) (config : ExperimentConfig) : list event :=
  match document_paths config with
  | [] => [cerr no_documents]
  | _ :: _ =>
      let '(log, document_counts, processed_names) :=
        fold_left (serial_read_step fs) (document_paths config) ([], [], []) in
      match document_counts with
      | [] => log ++ [cerr no_valid_document]
      | _ :: _ =>
          let vocabulary := build_vocabulary document_counts in
          let matrix := build_matrix document_counts vocabulary in
          log ++ [write_csv serial_output matrix vocabulary processed_names]
      end
  end.

(** ** paralelo.cpp *)

Definition join_words_with_newline (words : StdSet.t) : std_string :=
  fold_left (fun serialized word => (serialized ++ word) ++ [newline]) words [].

(** One iteration of the scan: the state is [(parts, current)]. *)
Definition split_step (st : list std_string * std_string) (ch : ascii) :=
  let '(parts, current) := st in
  if Ascii.eqb ch newline then
    match current with
    | [] => (parts, current)
    | _ :: _ => (parts ++ [current], [])
    end
  else (parts, current ++ [ch]).

Definition split_by_newline (data : std_string) : list std_string :=
  let '(parts, current) := fold_left split_step data ([], []) in
  match current with
  | [] => parts
  | _ :: _ => parts ++ [current]
  end.

(** The index sequence of [for (idx = first; idx < D; idx += W)].  [fuel]
    bounds the number of iterations; [D] iterations are enough as soon as
    [W >= 1] (lemma [strided_indices_fuel]). *)
Fixpoint strided_indices (fuel idx D W : nat) : list nat :=
  match fuel with
  | 0 => []
  | S fuel' => if idx <? D then idx :: strided_indices fuel' (idx + W) D W else []
  end.

(** The partitioner: the indices visited by rank [r] among [D] documents. *)
Definition assigned_indices (D W r : nat) : list nat := strided_indices D r D W.

(** [std::sort] of the tagged rows with the comparator
    [lhs.first < rhs.first].  The tags are pairwise distinct document
    indices, so the order of equivalent elements, which [std::sort] leaves
    open, never matters (lemma [sort_rows_unique]). *)
Definition row_le (a b : nat * list Z) : Prop := a.1 ≤ b.1.

#[global] Instance row_le_dec : RelDecision row_le.
Proof. intros a b. unfold row_le. apply _. Defined.

Definition sort_rows (rows : list (nat * list Z)) : list (nat * list Z) :=
  merge_sort row_le rows.

Definition mpi_output : std_string := str "results/bow_mpi.csv".

Section RunParallel.

Variable world_size : nat.
Variable fs : storage.
Variable config : ExperimentConfig.

(** *** Collectives, as seen from the root

    [gather send]: the root receives one value from every rank, stored in
    rank order.  [gatherv send recvbuf recvcounts displs]: the root's
    buffer receives, for every rank [i], the first [recvcounts[i]] elements
    sent by [i] at offset [displs[i]].  [bcast count root_buf buf]: the
    first [count] elements of the root's buffer overwrite those of [buf]. *)

Definition gather {A} (send : nat -> A) : list A :=
  map send (seq 0 world_size).

Definition gatherv {A} (send : nat -> list A) (recvbuf : list A)
           (recvcounts displs : list nat) : list A :=
  fold_left (fun buf i =>
               list_inserts (displs !!! i) (take (recvcounts !!! i) (send i)) buf)
            (seq 0 world_size) recvbuf.

Definition bcast {A} (count : nat) (root_buf buf : list A) : list A :=
  list_inserts 0 (take count root_buf) buf.

(** The layout loop of the root:
    [for i: displs[i] = running; running += counts[i]]. *)
Definition layout (counts : list nat) : list nat * nat :=
  fold_left (fun '(displs, running) i =>
               (<[i := running]> displs, running + counts !!! i))
            (seq 0 world_size) (replicate world_size 0, 0).

(** *** Local phase of rank [world_rank] *)

Definition local_read_step
           (st : list event * list TermCount * list nat) (idx : nat) :=
  let '(log, local_counts, local_doc_indices) := st in
  let path := document_paths config !!! idx in
  let '(e, content) := read_file fs path in
  match content with
  | [] => (log ++ e, local_counts, local_doc_indices)
  | _ :: _ =>
      (log ++ e,
       local_counts ++ [count_tokens (tokenize_document content)],
       local_doc_indices ++ [idx])
  end.

Definition local_read (world_rank : nat) :=
  fold_left local_read_step
            (assigned_indices (length (document_paths config)) world_size world_rank)
            ([], [], []).

Definition local_log (world_rank : nat) : list event := (local_read world_rank).1.1.
Definition local_counts (world_rank : nat) : list TermCount := (local_read world_rank).1.2.
Definition local_doc_indices (world_rank : nat) : list nat := (local_read world_rank).2.

Definition local_vocab (world_rank : nat) : StdSet.t :=
  fold_left (fun acc doc_map =>
               fold_left (fun acc' entry => StdSet.insert (fst entry) acc') doc_map acc)
            (local_counts world_rank) StdSet.empty.

Definition local_vocab_serialized (world_rank : nat) : std_string :=
  join_words_with_newline (local_vocab world_rank).

Definition local_vocab_bytes (world_rank : nat) : nat :=
  length (local_vocab_serialized world_rank).

(** *** Vocabulary synchronisation *)

Definition vocab_byte_counts : list nat := gather local_vocab_bytes.

Definition vocab_displs : list nat := (layout vocab_byte_counts).1.

Definition global_vocab_buffer : std_string :=
  gatherv local_vocab_serialized
          (replicate (layout vocab_byte_counts).2 zero)
          vocab_byte_counts vocab_displs.

Definition global_vocab_set : StdSet.t :=
  fold_left (fun acc i =>
               let offset := vocab_displs !!! i in
               let length := vocab_byte_counts !!! i in
               match length with
               | 0 => acc
               | S _ =>
                   let chunk := take length (drop offset global_vocab_buffer) in
                   StdSet.insert_range (split_by_newline chunk) acc
               end)
            (seq 0 world_size) StdSet.empty.

(** [broadcast_vocab] on the root, before the broadcast. *)
Definition root_broadcast_vocab : std_string :=
  fold_left (fun acc word => (acc ++ word) ++ [newline]) global_vocab_set [].

Definition vocab_bytes : nat := length root_broadcast_vocab.

(** [broadcast_vocab] on rank [world_rank], after the two broadcasts. *)
Definition broadcast_vocab (world_rank : nat) : std_string :=
  match world_rank with
  | 0 => bcast vocab_bytes root_broadcast_vocab root_broadcast_vocab
  | S _ => bcast vocab_bytes root_broadcast_vocab (replicate vocab_bytes zero)
  end.

Definition global_vocabulary (world_rank : nat) : list std_string :=
  split_by_newline (broadcast_vocab world_rank).

Definition vocab_size (world_rank : nat) : nat := length (global_vocabulary world_rank).

(** [emplace] keeps the entry that is already there. *)
Definition vocab_index (world_rank : nat) : gmap std_string nat :=
  fold_left (fun index i =>
               let word := global_vocabulary world_rank !!! i in
               match index !! word with
               | Some _ => index
               | None => <[word := i]> index
               end)
            (seq 0 (vocab_size world_rank)) ∅.

(** *** Rows *)

Definition local_row_count (world_rank : nat) : nat := length (local_counts world_rank).

Definition row_counts : list nat := gather local_row_count.

Definition local_row (world_rank : nat) (document_map : TermCount) : list Z :=
  fold_left (fun row entry =>
               match vocab_index world_rank !! fst entry with
               | Some i => <[i := snd entry]> row
               | None => row
               end)
            document_map (replicate (vocab_size world_rank) 0%Z).

Definition local_rows_flat (world_rank : nat) : list Z :=
  fold_left (fun flat document_map => flat ++ local_row world_rank document_map)
            (local_counts world_rank) [].

Definition doc_index_displs : list nat := (layout row_counts).1.

Definition gathered_doc_indices : list nat :=
  gatherv local_doc_indices (replicate (layout row_counts).2 0)
          row_counts doc_index_displs.

Definition value_counts : list nat := map (fun c => c * vocab_size 0) row_counts.

Definition value_displs : list nat := (layout value_counts).1.

Definition gathered_values : list Z :=
  gatherv local_rows_flat (replicate (layout value_counts).2 0%Z)
          value_counts value_displs.

(** *** Assembly on the root *)

Definition total_rows : nat := fold_left Nat.add row_counts 0.

(** The state is [(ordered_rows, offset)]. *)
Definition ordered_rows : list (nat * list Z) :=
  (fold_left (fun '(rows, offset) i =>
                let row :=
                  match vocab_size 0 with
                  | 0 => replicate (vocab_size 0) 0%Z
                  | S _ =>
                      list_inserts 0 (take (vocab_size 0) (drop offset gathered_values))
                                   (replicate (vocab_size 0) 0%Z)
                  end in
                (rows ++ [(gathered_doc_indices !!! i, row)], offset + vocab_size 0))
             (seq 0 total_rows) ([], 0)).1.

Definition sorted_rows : list (nat * list Z) := sort_rows ordered_rows.

Definition doc_names : list std_string :=
  map (fun row => filename (document_paths config !!! fst row)) sorted_rows.

Definition matrix : list (list Z) := map snd sorted_rows.

Definition root_finish : list event :=
  match doc_names with
  | [] => [cerr no_rows_generated]
  | _ :: _ => [write_csv mpi_output matrix (global_vocabulary 0) doc_names]
  end.

(** The events of rank [world_rank] during [run_parallel]. *)
Definition run_parallel (world_rank : nat) : list event :=
  match document_paths config with
  | [] => []
  | _ :: _ =>
      local_log world_rank
        ++ [mpi MPI_Gather; mpi MPI_Gatherv; mpi MPI_Bcast; mpi MPI_Bcast;
            mpi MPI_Gather; mpi MPI_Gatherv; mpi MPI_Gatherv]
        ++ (match world_rank with 0 => root_finish | S _ => [] end)
        ++ [mpi MPI_Barrier; mpi MPI_Reduce]
  end.

End RunParallel.

(** ** What a run wrote *)

Record table := {
  table_vocabulary : list std_string;
  table_doc_names : list std_string;
  table_matrix : list (list Z)
}.

(** The tables handed to [write_csv] during a run, in order. *)
Definition written (log : list event) : list table :=
  flat_map (fun e => match e with
                     | write_csv _ m v n =>
                         [{| table_vocabulary := v; table_doc_names := n; table_matrix := m |}]
                     | _ => []
                     end) log.

(** ** The text of the CSV file

    [write_csv] streams the header and one line per row of the matrix to the
    output file.  [doc_names[i]] is read for every row index: the vector is at
    least as long as the matrix at both call sites, and a missing name is
    read here as the empty string. *)

(** [output << value] for an [int] in the "C" locale: the decimal digits,
    after a minus sign when the value is negative. *)
Definition print_int (value : Z) : std_string :=
  str (NilZero.string_of_int (Z.to_int value)).

(** The bytes [write_csv] sends to the output stream once it is open. *)
Definition csv_header (vocabulary : list std_string) : std_string :=
  fold_left (fun output word => output ++ comma :: word) vocabulary (str "document")
  ++ [newline].

Definition csv_row (doc_name : std_string) (row : list Z) : std_string :=
  fold_left (fun output value => output ++ comma :: print_int value) row doc_name
  ++ [newline].

Definition csv_text (matrix : list (list Z)) (vocabulary doc_names : list std_string)
  : std_string :=
  fold_left (fun output i => output ++ csv_row (doc_names !!! i) (matrix !!! i))
            (seq 0 (length matrix)) (csv_header vocabulary).

Definition config_of (paths : list std_string) : ExperimentConfig :=
  {| num_processes := 1; list_path := []; num_experiments := 1; document_paths := paths |}.

(** A two-document corpus used in the examples. *)
Definition cat_dog_fs : storage := fun path =>
  if decide (path = str "data/d0.txt") then Some (str "the cat sat")
  else if decide (path = str "data/d1.txt") then Some (str "the dog ran")
  else None.

Definition cat_dog_config : ExperimentConfig :=
  config_of [str "data/d0.txt"; str "data/d1.txt"].

(** ** main.cpp

    The standard library is taken as it is documented: [std::stoi] is a
    function that may throw ([None]), [std::filesystem::exists],
    [path::parent_path] and [operator/] are functions on paths.  Text sent
    to [std::cout] is kept as an event without the timing figures. *)

(** The split done by one [std::getline]: the bytes before the first
    newline, and what follows that newline. *)
Fixpoint getline_split (input : std_string) : std_string * std_string :=
  match input with
  | [] => ([], [])
  | c :: rest =>
      if Ascii.eqb c newline then ([], rest)
      else let '(line, rest') := getline_split rest in (c :: line, rest')
  end.

(** [std::getline(input, line)] on the unread part of the stream: it fails
    when nothing is left, otherwise it yields the line and the new unread
    part. *)
Definition getline (input : std_string) : option (std_string * std_string) :=
  match input with
  | [] => None
  | _ :: _ => Some (getline_split input)
  end.

(** [while (std::getline(input, line)) if (!line.empty()) names.push_back(line)].
    Every successful [getline] consumes a byte, so the length of the data
    bounds the number of iterations (lemma [load_loop_fuel]). *)
Fixpoint load_loop (fuel : nat) (input : std_string) (names : list std_string)
  : list std_string :=
  match fuel with
  | 0 => names
  | S fuel' =>
      match getline input with
      | None => names
      | Some (line, rest) =>
          load_loop fuel' rest
                    (match line with
                     | [] => names
                     | _ :: _ => names ++ [line]
                     end)
      end
  end.

Inductive main_diagnostic :=
| usage
| process_count_mismatch (actual : nat) (requested : Z)
| list_cannot_open (list_path : std_string)
| list_is_empty
| file_not_found (name : std_string)
| no_resolved_path.

Inductive main_output :=
| detected_documents (documents : list std_string)
| experiment_banner (i : nat) (n : Z)
| serial_average
| parallel_average
| summary.

Inductive main_event :=
| mpi_init
| mpi_finalize
| mpi_barrier
| main_cerr (d : main_diagnostic)
| main_cout (o : main_output)
| call_run_serial (config : ExperimentConfig) (log : list event)
| call_run_parallel (config : ExperimentConfig) (log : list event).

(** How [main] ends: it returns a code, or an exception of [std::stoi]
    leaves it. *)
Inductive outcome :=
| returned (code : Z)
| terminated.

Definition load_document_names (fs : storage) (list_path : std_string)
  : list main_event * list std_string :=
  match fs list_path with
  | None => ([main_cerr (list_cannot_open list_path)], [])
  | Some data => ([], load_loop (length data) data [])
  end.

Section Main.

Variable stoi : std_string -> option Z.
Variable parent_path : std_string -> std_string.
Variable path_append : std_string -> std_string -> std_string.
Variable path_exists : std_string -> bool.
Variable fs : storage.

(** One iteration of the loop of [resolve_document_paths]; the state is
    [(events, resolved)]. *)
Definition resolve_step (list_dir books_dir : std_string)
           (st : list main_event * list std_string) (name : std_string) :=
  let '(log, resolved) := st in
  let candidate := path_append list_dir name in
  let candidate :=
    if path_exists candidate then candidate else path_append books_dir name in
  if path_exists candidate then (log, resolved ++ [candidate])
  else (log ++ [main_cerr (file_not_found name)], resolved).

Definition resolve_document_paths (list_path : std_string) (names : list std_string)
  : list main_event * list std_string :=
  let list_dir := parent_path list_path in
  let books_dir := path_append list_dir (str "books") in
  fold_left (resolve_step list_dir books_dir) names ([], []).

(** The events of rank 0 only. *)
Definition on_root (world_rank : nat) (events : list main_event) : list main_event :=
  match world_rank with
  | 0 => events
  | S _ => []
  end.

(** One iteration of the loop over the experiments. *)
Definition experiment (world_size world_rank : nat) (base_config : ExperimentConfig)
           (i : nat) : list main_event :=
  on_root world_rank
          [main_cout (experiment_banner (i + 1) (num_experiments base_config));
           call_run_serial base_config (run_serial fs base_config);
           main_cout serial_average]
    ++ [mpi_barrier;
        call_run_parallel base_config (run_parallel world_size fs base_config world_rank)]
    ++ on_root world_rank [main_cout parallel_average].

(** [main] on rank [world_rank] of [world_size], with [argv] (so [argc] is
    its length). *)
Definition main (world_size world_rank : nat) (argv : list std_string)
  : outcome * list main_event :=
  if length argv <? 4 then
    (returned 1, [mpi_init] ++ on_root world_rank [main_cerr usage] ++ [mpi_finalize])
  else
    match stoi (argv !!! 1) with
    | None => (terminated, [mpi_init])
    | Some requested_processes =>
        let list_path := argv !!! 2 in
        match stoi (argv !!! 3) with
        | None => (terminated, [mpi_init])
        | Some num_experiments =>
            let warning :=
              if decide (requested_processes = Z.of_nat world_size) then []
              else on_root world_rank
                     [main_cerr (process_count_mismatch world_size requested_processes)] in
            let '(load_log, documents) := load_document_names fs list_path in
            let listing :=
              on_root world_rank
                      (match documents with
                       | [] => [main_cerr list_is_empty]
                       | _ :: _ => [main_cout (detected_documents documents)]
                       end) in
            let '(resolve_log, paths) := resolve_document_paths list_path documents in
            let base_config :=
              {| num_processes := requested_processes;
                 list_path := list_path;
                 num_experiments := num_experiments;
                 document_paths := paths |} in
            let prefix := [mpi_init] ++ warning ++ load_log ++ listing ++ resolve_log in
            match paths with
            | [] =>
                (returned 1,
                 prefix ++ on_root world_rank [main_cerr no_resolved_path] ++ [mpi_finalize])
            | _ :: _ =>
                (returned 0,
                 prefix
                   ++ concat (map (experiment world_size world_rank base_config)
                                  (seq 0 (Z.to_nat num_experiments)))
                   ++ [mpi_finalize]
                   ++ on_root world_rank [main_cout summary])
            end
        end
    end.

End Main.

(** ** Specification-level notions

    The definitions below follow the words of the specification, not the
    code; the theorems compare them with the functions above. *)

(** "A byte is term-forming iff it is alphanumeric or underscore." *)
Definition term_forming (b : ascii) : bool := isalnum b || Ascii.eqb b underscore.

Definition lowercase (s : std_string) : std_string := map tolower s.

Definition cons_nonempty (run : std_string) (runs : list std_string) : list std_string :=
  match run with
  | [] => runs
  | _ :: _ => run :: runs
  end.

(** [spec_runs_from content] is the run of term-forming bytes that starts at
    the head of [content] (empty when the head is a separator) and the
    non-empty runs that come after it. *)
Fixpoint spec_runs_from (content : std_string) : std_string * list std_string :=
  match content with
  | [] => ([], [])
  | b :: rest =>
      let '(run, later) := spec_runs_from rest in
      if term_forming b then (b :: run, later) else ([], cons_nonempty run later)
  end.

(** The maximal runs of term-forming bytes of [content], in order. *)
Definition spec_maximal_runs (content : std_string) : list std_string :=
  let '(run, later) := spec_runs_from content in cons_nonempty run later.

(** The same notion as a relation: [content] is cut into separators and
    non-empty runs, each run ending at a separator or at the end of input. *)
Inductive MaximalRuns : std_string -> list std_string -> Prop :=
| runs_done seps :
    Forall (fun b => term_forming b = false) seps ->
    MaximalRuns seps []
| runs_more seps run rest runs :
    Forall (fun b => term_forming b = false) seps ->
    run <> [] ->
    Forall (fun b => term_forming b = true) run ->
    head (map term_forming rest) <> Some true ->
    MaximalRuns rest runs ->
    MaximalRuns (seps ++ run ++ rest) (run :: runs).

(** A byte of a term: lowercase letter, digit or underscore. *)
Definition term_byte (b : ascii) : bool := islower b || isdigit b || Ascii.eqb b underscore.

(** "No document is readable": every listed document is unreadable or
    empty; this includes the empty list. *)
Definition no_readable_document (fs : storage) (config : ExperimentConfig) : Prop :=
  forall path, path ∈ document_paths config -> (read_file fs path).2 = [].

(** "The condition is reported": one of the three diagnostics about an
    empty corpus or an empty result. *)
Definition reports_empty (log : list event) : Prop :=
  cerr no_documents ∈ log \/ cerr no_valid_document ∈ log \/ cerr no_rows_generated ∈ log.

(** "The run aborts before any synchronization phase is entered, the
    condition is reported, and no output file is written." *)
Definition aborts_before_sync (log : list event) : Prop :=
  (forall c, mpi c ∉ log) /\ reports_empty log /\ written log = [].

Definition is_open_error (e : event) : Prop := exists path, e = cerr (cannot_open_file path).

(** A corpus whose only document exists but cannot be opened. *)
Definition locked_fs : storage := fun _ => None.

Definition locked_config : ExperimentConfig := config_of [str "data/locked.txt"].

(** The cat-and-dog corpus with the first file empty, and with the first
    file made of separators only. *)
Definition empty_doc_fs : storage := fun path =>
  if decide (path = str "data/d0.txt") then Some []
  else if decide (path = str "data/d1.txt") then Some (str "the dog ran")
  else None.

Definition blank_doc_fs : storage := fun path =>
  if decide (path = str "data/d0.txt") then Some (str " .-, ")
  else if decide (path = str "data/d1.txt") then Some (str "the dog ran")
  else None.

(** "The distinct new terms a document introduces": the keys of its term
    count that are not in the vocabulary yet, each once. *)
Definition new_terms (vocabulary : list std_string) (document_map : TermCount)
  : list std_string :=
  remove_dups (filter (fun w => w ∉ vocabulary) (document_map.*1)).

(** "Only appended with zero in the new columns", read by position. *)
Definition appended_with_zeros (old_row new_row : list Z) : Prop :=
  exists k, new_row = old_row ++ replicate k 0%Z.

(** ** Notions used in the proofs *)

(** What the tokenizer returns from the scan state [(tokens, current_token)]
    at the end of input. *)
Definition scan_finish (st : list std_string * std_string) : list std_string :=
  match st.2 with
  | [] => st.1
  | _ :: _ => st.1 ++ [st.2]
  end.

(** A token: non-empty, made of lowercase letters, digits and underscores. *)
Definition token_ok (token : std_string) : Prop :=
  token <> [] /\ Forall (fun b => term_byte b = true) token.

(** A word that survives the newline-delimited encoding. *)
Definition word_ok (word : std_string) : Prop := word <> [] /\ newline ∉ word.

(** The sum of the first [k] values of [c]: the offset of rank [k] in a
    buffer laid out in rank order. *)
Definition psum (c : nat -> nat) (k : nat) : nat := sum_list_with c (seq 0 k).

(** The contribution of document [idx] to a run: its index and its term
    counts, unless its content is empty (unreadable or empty file). *)
Definition document_entry (fs : storage) (paths : list std_string) (idx : nat)
  : list (nat * TermCount) :=
  match (read_file fs (paths !!! idx)).2 with
  | [] => []
  | (_ :: _) as content => [(idx, count_tokens (tokenize_document content))]
  end.

Definition document_log (fs : storage) (paths : list std_string) (idx : nat) : list event :=
  (read_file fs (paths !!! idx)).1.

(** The set of keys of a list of term counts, as both runs build it. *)
Definition vocab_of (docs : list TermCount) : StdSet.t :=
  fold_left (fun acc doc_map =>
               fold_left (fun acc' entry => StdSet.insert (fst entry) acc') doc_map acc)
            docs StdSet.empty.

(** The dense row of a document against a vocabulary. *)
Definition row_of (vocabulary : list std_string) (document_map : TermCount) : list Z :=
  map (fun word => match StdMap.find word document_map with
                   | Some c => c
                   | None => 0%Z
                   end) vocabulary.

(** The contributions of the documents of rank [world_rank], and of all
    documents in input order. *)
Definition local_entries (world_size : nat) (fs : storage) (config : ExperimentConfig)
           (world_rank : nat) : list (nat * TermCount) :=
  assigned_indices (length (document_paths config)) world_size world_rank
    ≫= document_entry fs (document_paths config).

Definition all_entries (fs : storage) (config : ExperimentConfig) : list (nat * TermCount) :=
  seq 0 (length (document_paths config)) ≫= document_entry fs (document_paths config).

(** A contribution turned into a row tagged with its document index. *)
Definition tag_row (vocabulary : list std_string) (e : nat * TermCount) : nat * list Z :=
  (e.1, row_of vocabulary e.2).

(** The tagged rows of all ranks, in rank order: what the root holds after
    the gathers. *)
Definition gathered_rows (world_size : nat) (fs : storage) (config : ExperimentConfig)
  : list (nat * list Z) :=
  seq 0 world_size
    ≫= (fun r => tag_row (global_vocab_set world_size fs config)
                   <$> local_entries world_size fs config r).

(** The table of a corpus: one row per document with non-empty content, in
    input order, against the sorted key set.  No table when no document has
    content. *)
Definition corpus_table (fs : storage) (config : ExperimentConfig) : list table :=
  match all_entries fs config with
  | [] => []
  | _ :: _ =>
      let vocabulary := vocab_of (all_entries fs config).*2 in
      [{| table_vocabulary := vocabulary;
          table_doc_names :=
            map (fun e => filename (document_paths config !!! e.1)) (all_entries fs config);
          table_matrix := map (row_of vocabulary) (all_entries fs config).*2 |}]
  end.

(** The number of occurrences of a word in a token sequence. *)
Definition occurrences (word : std_string) (tokens : list std_string) : Z :=
  Z.of_nat (length (filter (fun token => token = word) tokens)).

(** The count a term count holds for a word, 0 when the word is absent. *)
Definition count_in (document_map : TermCount) (word : std_string) : Z :=
  match StdMap.find word document_map with
  | Some c => c
  | None => 0%Z
  end.

Definition sum_Z (values : list Z) : Z := foldr Z.add 0%Z values.

(** The content [read_file] returns for document [idx]. *)
Definition content_of (fs : storage) (config : ExperimentConfig) (idx : nat) : std_string :=
  (read_file fs (document_paths config !!! idx)).2.

(** The indices of the documents that are processed: those with a
    non-empty content, in input order. *)
Definition processed_indices (fs : storage) (config : ExperimentConfig) : list nat :=
  filter (fun idx => content_of fs config idx <> []) (seq 0 (length (document_paths config))).

(** The collective operations entered during a run, in order. *)
Definition collectives (log : list event) : list collective :=
  flat_map (fun e => match e with mpi c => [c] | _ => [] end) log.

(** The paths reported as impossible to open during a run, in order. *)
Definition open_errors (log : list event) : list std_string :=
  flat_map (fun e => match e with cerr (cannot_open_file path) => [path] | _ => [] end) log.

(** The configurations [main] passed to the two runs, in call order. *)
Definition serial_calls (log : list main_event) : list ExperimentConfig :=
  flat_map (fun e => match e with call_run_serial config _ => [config] | _ => [] end) log.

Definition parallel_calls (log : list main_event) : list ExperimentConfig :=
  flat_map (fun e => match e with call_run_parallel config _ => [config] | _ => [] end) log.

(** The tables written during the calls of [main], in order. *)
Definition main_written (log : list main_event) : list table :=
  flat_map (fun e => match e with
                     | call_run_serial _ l => written l
                     | call_run_parallel _ l => written l
                     | _ => []
                     end) log.

(** A [std::stoi] for the examples: decimal digits only. *)
Definition digits_stoi (s : std_string) : option Z :=
  match s with
  | [] => None
  | _ :: _ =>
      fold_left (fun acc c =>
                   match acc with
                   | None => None
                   | Some n =>
                       if isdigit c then Some (10 * n + Z.of_N (N_of_ascii c) - 48)%Z
                       else None
                   end) s (Some 0%Z)
  end.

(** The tokens of document [idx]. *)
Definition tokens_of (fs : storage) (config : ExperimentConfig) (idx : nat)
  : list std_string :=
  tokenize_document (content_of fs config idx).

(** The tables written by the baseline and by the coordinator of the
    distributed run with [world_size] workers. *)
Definition both_written (world_size : nat) (fs : storage) (config : ExperimentConfig)
  : list (list table) :=
  [written (run_serial fs config); written (run_parallel world_size fs config 0)].

(** The table of the cat-and-dog corpus. *)
Definition cat_dog_table : table :=
  {| table_vocabulary := [str "cat"; str "dog"; str "ran"; str "sat"; str "the"];
     table_doc_names := [str "d0.txt"; str "d1.txt"];
     table_matrix := [[1; 0; 0; 1; 1]; [0; 1; 1; 0; 1]]%Z |}.

(** The barriers [main] itself enters, one per experiment. *)
Definition barriers (log : list main_event) : nat :=
  length (flat_map (fun e => match e with mpi_barrier => [tt] | _ => [] end) log).

(** The runs [main] starts and the barriers it enters, in the order in
    which they happen; every other event is left out. *)
Definition runs_and_barriers (log : list main_event) : list main_event :=
  flat_map (fun e => match e with
                     | call_run_serial _ _ | call_run_parallel _ _ | mpi_barrier => [e]
                     | _ => []
                     end) log.

(** An event of [main] that is neither a run nor a barrier. *)
Definition quiet (e : main_event) : Prop :=
  match e with
  | call_run_serial _ _ | call_run_parallel _ _ | mpi_barrier => False
  | _ => True
  end.

(** The configuration [main] builds from its arguments, when it gets as far
    as the experiments: at least three arguments, two numbers that
    [std::stoi] accepts, and one document that resolves.  It does not depend
    on the rank. *)
Definition main_config (stoi : std_string -> option Z)
           (parent_path : std_string -> std_string)
           (path_append : std_string -> std_string -> std_string)
           (path_exists : std_string -> bool) (fs : storage)
           (argv : list std_string) : option ExperimentConfig :=
  if length argv <? 4 then None
  else
    match stoi (argv !!! 1), stoi (argv !!! 3) with
    | Some requested_processes, Some num_experiments =>
        let documents := (load_document_names fs (argv !!! 2)).2 in
        let paths :=
          (resolve_document_paths parent_path path_append path_exists
                                  (argv !!! 2) documents).2 in
        match paths with
        | [] => None
        | _ :: _ =>
            Some {| num_processes := requested_processes;
                    list_path := argv !!! 2;
                    num_experiments := num_experiments;
                    document_paths := paths |}
        end
    | _, _ => None
    end.

(** A file system, path functions and arguments for the examples: the list
    names three documents, one beside the list, one under [books], one
    nowhere. *)
Fixpoint before_last_slash (path : std_string) : option std_string :=
  match path with
  | [] => None
  | c :: rest =>
      match before_last_slash rest with
      | Some dir => Some (c :: dir)
      | None => if Ascii.eqb c slash then Some [] else None
      end
  end.

Definition example_parent_path (path : std_string) : std_string :=
  default [] (before_last_slash path).

Definition example_path_append (dir name : std_string) : std_string :=
  dir ++ slash :: name.

Definition example_fs : storage := fun path =>
  if decide (path = str "data/list.txt")
  then Some (str "d0.txt" ++ newline :: str "d1.txt" ++ newline :: newline :: str "nope.txt")
  else if decide (path = str "data/books/d0.txt") then Some (str "the cat sat")
  else if decide (path = str "data/d1.txt") then Some (str "the dog ran")
  else None.

Definition example_path_exists (path : std_string) : bool :=
  bool_decide (path ∈ [str "data/list.txt"; str "data/books/d0.txt"; str "data/d1.txt"]).

Definition example_argv : list std_string :=
  [str "bow_app"; str "2"; str "data/list.txt"; str "3"].

Definition example_main (world_rank : nat) : outcome * list main_event :=
  main digits_stoi example_parent_path example_path_append example_path_exists
       example_fs 2 world_rank example_argv.

Definition csv_safe (field : std_string) : Prop := (comma ∉ field) /\ (newline ∉ field).

Definition count_byte (b : ascii) (text : std_string) : nat :=
  length (filter (fun c => c = b) text).


(** One line of the file: a first field, the other fields each after a comma,
    and the end of line. *)
Definition csv_line (first : std_string) (fields : list std_string) : std_string :=
  first ++ concat (map (cons comma) fields) ++ [newline].

(** The bytes that end a field. *)
Definition csv_stop (c : ascii) : Prop := c = comma \/ c = newline.

#[global] Instance csv_safe_dec (field : std_string) : Decision (csv_safe field).
Proof. unfold csv_safe. apply _. Defined.

(** The file of the cat-and-dog corpus. *)
Definition cat_dog_text : std_string :=
  str "document,cat,dog,ran,sat,the" ++ [newline]
  ++ str "d0.txt,1,0,0,1,1" ++ [newline]
  ++ str "d1.txt,0,1,1,0,1" ++ [newline].

(** A line of the file with [width] fields after the first: it ends at its
    only newline and holds [width] commas. *)
Definition csv_line_ok (width : nat) (line : std_string) : Prop :=
  exists body,
    line = body ++ [newline] /\ (newline ∉ body) /\ count_byte comma body = width.







(** ** Properties *)

(** *** Bytes *)

Ltac ascii_cases c := destruct c as [[] [] [] [] [] [] [] []]; vm_compute; try done.

Lemma term_forming_tolower b : term_forming (tolower b) = term_forming b.
Proof. ascii_cases b. Qed.

Lemma term_byte_tolower b : term_forming b = true -> term_byte (tolower b) = true.
Proof. ascii_cases b. Qed.

Lemma term_byte_not_newline b : term_byte b = true -> b <> newline.
Proof. ascii_cases b. Qed.

Lemma term_byte_not_comma b : term_byte b = true -> b <> comma.
Proof. ascii_cases b. Qed.

(** *** Tokenizer *)

Lemma tokenize_document_finish content :
  tokenize_document content = scan_finish (fold_left tokenize_step content ([], [])).
Proof.
  unfold tokenize_document, scan_finish.
  by destruct (fold_left tokenize_step content ([], [])) as [tokens [|c cur]].
Qed.

Lemma cons_nonempty_lowercase run later :
  cons_nonempty (lowercase run) (map lowercase later)
  = map lowercase (cons_nonempty run later).
Proof. by destruct run. Qed.

Lemma cons_nonempty_app tokens run later :
  tokens ++ cons_nonempty run later = scan_finish (tokens, run) ++ later.
Proof.
  unfold scan_finish; destruct run; simpl; [done|]. by rewrite <- app_assoc.
Qed.

(** The scan from any intermediate state. *)
Lemma tokenize_scan content : forall tokens current_token,
  scan_finish (fold_left tokenize_step content (tokens, current_token))
  = tokens ++ cons_nonempty (current_token ++ lowercase (spec_runs_from content).1)
                            (map lowercase (spec_runs_from content).2).
Proof.
  induction content as [|b rest IH]; intros tokens cur; simpl.
  - rewrite app_nil_r. unfold scan_finish; simpl. destruct cur; simpl; [|done].
    by rewrite app_nil_r.
  - destruct (spec_runs_from rest) as [run later] eqn:E; simpl in IH.
    fold (term_forming (tolower b)). rewrite term_forming_tolower.
    destruct (term_forming b); simpl.
    + rewrite IH. by rewrite <- app_assoc.
    + rewrite app_nil_r. destruct cur as [|c cur].
      * rewrite IH. simpl. by rewrite cons_nonempty_lowercase.
      * rewrite IH. simpl. rewrite <- app_assoc. simpl.
        by rewrite cons_nonempty_lowercase.
Qed.

Lemma tokenize_document_runs content :
  tokenize_document content = map lowercase (spec_maximal_runs content).
Proof.
  rewrite tokenize_document_finish, tokenize_scan. simpl.
  unfold spec_maximal_runs. destruct (spec_runs_from content) as [run later]; simpl.
  apply cons_nonempty_lowercase.
Qed.

(** *** Maximal runs: the function and the relation agree *)

Lemma spec_runs_from_term content :
  Forall (fun b => term_forming b = true) (spec_runs_from content).1
  /\ Forall (fun run => run <> [] /\ Forall (fun b => term_forming b = true) run)
            (spec_runs_from content).2.
Proof.
  induction content as [|b rest [IH1 IH2]]; simpl; [by split|].
  destruct (spec_runs_from rest) as [run later]; simpl in *.
  destruct (term_forming b) eqn:Hb; simpl.
  - split; [by constructor | done].
  - split; [done|]. destruct run; simpl; [done|]. by constructor.
Qed.

Lemma spec_maximal_runs_term content :
  Forall (fun run => run <> [] /\ Forall (fun b => term_forming b = true) run)
         (spec_maximal_runs content).
Proof.
  unfold spec_maximal_runs. destruct (spec_runs_from_term content) as [H1 H2].
  destruct (spec_runs_from content) as [run later]; simpl in *.
  destruct run; simpl; [done|]. by constructor.
Qed.

Lemma MaximalRuns_separator b content runs :
  term_forming b = false -> MaximalRuns content runs -> MaximalRuns (b :: content) runs.
Proof.
  intros Hb H. inversion H as [seps Hs|seps run rest runs' Hs Hne Hr Hh Hrest]; subst.
  - apply runs_done. by constructor.
  - apply (runs_more (b :: seps)); try done. by constructor.
Qed.

Lemma spec_runs_from_decompose content :
  exists rest,
    content = (spec_runs_from content).1 ++ rest
    /\ head (map term_forming rest) <> Some true
    /\ MaximalRuns rest (spec_runs_from content).2.
Proof.
  induction content as [|b content (rest & Hc & Hh & Hm)]; simpl.
  - exists []. split; [done|]. split; [done|]. by apply runs_done.
  - destruct (spec_runs_from_term content) as [Hrun _].
    destruct (spec_runs_from content) as [run later]; simpl in *.
    destruct (term_forming b) eqn:Hb; simpl.
    + exists rest. by rewrite Hc at 1.
    + exists (b :: content). split; [done|]. split; [simpl; congruence|].
      destruct run as [|c run]; simpl.
      * simpl in Hc. subst rest. by apply MaximalRuns_separator.
      * rewrite Hc. apply (runs_more [b] (c :: run) rest later); try done.
        by repeat constructor.
Qed.

Lemma MaximalRuns_spec content : MaximalRuns content (spec_maximal_runs content).
Proof.
  destruct (spec_runs_from_decompose content) as (rest & Hc & Hh & Hm).
  destruct (spec_runs_from_term content) as [Hrun _].
  unfold spec_maximal_runs.
  destruct (spec_runs_from content) as [run later]; simpl in *.
  destruct run as [|c run]; simpl.
  - simpl in Hc. by subst.
  - rewrite Hc. by apply (runs_more [] (c :: run) rest later).
Qed.

Lemma spec_maximal_runs_separators seps content :
  Forall (fun b => term_forming b = false) seps ->
  spec_maximal_runs (seps ++ content) = spec_maximal_runs content.
Proof.
  induction 1 as [|b seps Hb _ IH]; [done|].
  rewrite <- IH. unfold spec_maximal_runs. simpl.
  destruct (spec_runs_from (seps ++ content)) as [run later]. by rewrite Hb.
Qed.

Lemma spec_runs_from_run run rest :
  Forall (fun b => term_forming b = true) run ->
  spec_runs_from (run ++ rest)
  = (run ++ (spec_runs_from rest).1, (spec_runs_from rest).2).
Proof.
  induction 1 as [|b run Hb _ IH]; simpl; [by destruct (spec_runs_from rest)|].
  rewrite IH. by rewrite Hb.
Qed.

Lemma spec_runs_from_stop rest :
  head (map term_forming rest) <> Some true -> (spec_runs_from rest).1 = [].
Proof.
  destruct rest as [|b rest]; simpl; [done|].
  destruct (spec_runs_from rest); destruct (term_forming b); simpl; congruence.
Qed.

Lemma MaximalRuns_unique content runs :
  MaximalRuns content runs -> runs = spec_maximal_runs content.
Proof.
  induction 1 as [seps Hs|seps run rest runs Hs Hne Hr Hh Hm IH].
  - rewrite <- (app_nil_r seps). by rewrite spec_maximal_runs_separators.
  - rewrite spec_maximal_runs_separators by done.
    unfold spec_maximal_runs. rewrite spec_runs_from_run by done.
    rewrite spec_runs_from_stop by done. rewrite app_nil_r.
    destruct run; [done|]. simpl. f_equal. rewrite IH.
    unfold spec_maximal_runs. pose proof (spec_runs_from_stop rest Hh) as E.
    destruct (spec_runs_from rest) as [r l]; simpl in *. by subst.
Qed.

(** C3. For every byte sequence, the tokenizer returns exactly the maximal
    runs of term-forming bytes (alphanumeric or underscore), each run
    lowercased and in input order; no run is empty; the function is total,
    and the empty input gives no term. *)
Theorem C3_tokenize_maximal_runs (content : std_string) :
  tokenize_document content = map lowercase (spec_maximal_runs content)
  /\ (forall runs, MaximalRuns content runs <-> runs = spec_maximal_runs content)
  /\ Forall (fun token => token <> []) (tokenize_document content)
  /\ tokenize_document [] = [].
Proof.
  split; [apply tokenize_document_runs|].
  split.
  { intros runs; split; [apply MaximalRuns_unique|]. intros ->. apply MaximalRuns_spec. }
  split; [|done].
  rewrite tokenize_document_runs. apply Forall_fmap.
  eapply Forall_impl; [apply spec_maximal_runs_term|].
  intros run [Hne _]. unfold lowercase. simpl. by destruct run.
Qed.

Lemma tokenize_document_token_ok content :
  Forall token_ok (tokenize_document content).
Proof.
  rewrite tokenize_document_runs. apply Forall_fmap.
  eapply Forall_impl; [apply spec_maximal_runs_term|].
  intros run [Hne Hrun]. split.
  - unfold lowercase. simpl. by destruct run.
  - unfold lowercase. apply Forall_fmap. eapply Forall_impl; [exact Hrun|].
    intros b Hb. by apply term_byte_tolower.
Qed.

(** *** The order of strings *)

Lemma ascii_compare_refl x : Ascii.compare x x = Eq.
Proof. unfold Ascii.compare. apply N.compare_refl. Qed.

Lemma ascii_compare_lt_trans x y z :
  Ascii.compare x y = Lt -> Ascii.compare y z = Lt -> Ascii.compare x z = Lt.
Proof. unfold Ascii.compare. rewrite !N.compare_lt_iff. lia. Qed.

Lemma string_compare_refl a : string_compare a a = Eq.
Proof. induction a as [|x a IH]; simpl; [done|]. by rewrite ascii_compare_refl. Qed.

Lemma string_compare_eq a : forall b, string_compare a b = Eq -> a = b.
Proof.
  induction a as [|x a IH]; intros [|y b]; simpl; try done.
  destruct (Ascii.compare x y) eqn:E; try done.
  intros H. apply Ascii.compare_eq_iff in E. subst. f_equal. by apply IH.
Qed.

Lemma string_compare_antisym a : forall b,
  string_compare b a = CompOpp (string_compare a b).
Proof.
  induction a as [|x a IH]; intros [|y b]; simpl; try done.
  rewrite (Ascii.compare_antisym y x).
  destruct (Ascii.compare x y); simpl; [apply IH|done|done].
Qed.

Lemma string_lt_irrefl a : ~ string_lt a a.
Proof. unfold string_lt. by rewrite string_compare_refl. Qed.

Lemma string_lt_trans a : forall b c, string_lt a b -> string_lt b c -> string_lt a c.
Proof.
  unfold string_lt.
  induction a as [|x a IH]; intros [|y b] [|z c]; simpl; try done.
  destruct (Ascii.compare x y) eqn:Exy; try done.
  - apply Ascii.compare_eq_iff in Exy. subst y.
    destruct (Ascii.compare x z); try done. apply IH.
  - destruct (Ascii.compare y z) eqn:Eyz; try done.
    + apply Ascii.compare_eq_iff in Eyz. subst z. by rewrite Exy.
    + by rewrite (ascii_compare_lt_trans x y z).
Qed.

Lemma string_compare_gt a b : string_compare a b = Gt -> string_lt b a.
Proof. unfold string_lt. intros H. by rewrite string_compare_antisym, H. Qed.

#[global] Instance string_lt_strict : StrictOrder string_lt.
Proof.
  split.
  - intros a. apply string_lt_irrefl.
  - intros a b c. apply string_lt_trans.
Qed.

#[global] Instance string_lt_antisym : AntiSymm (=) string_lt.
Proof.
  intros a b Hab Hba. destruct (string_lt_irrefl a). by apply (string_lt_trans a b a).
Qed.

(** Strictly increasing lists have no duplicate and are determined by their
    elements. *)
Lemma sorted_NoDup (s : list std_string) : StronglySorted string_lt s -> NoDup s.
Proof.
  induction 1 as [|x s Hs IH Hx]; constructor; [|done].
  intros Hin. rewrite Forall_forall in Hx. by apply (string_lt_irrefl x), Hx.
Qed.

Lemma sorted_ext (s1 s2 : list std_string) :
  StronglySorted string_lt s1 -> StronglySorted string_lt s2 ->
  (forall w, w ∈ s1 <-> w ∈ s2) -> s1 = s2.
Proof.
  intros H1 H2 H. apply (StronglySorted_unique string_lt); try done.
  apply NoDup_Permutation; auto using sorted_NoDup.
Qed.

(** *** std::set *)

Lemma set_insert_elem_of w s x : x ∈ StdSet.insert w s <-> x = w \/ x ∈ s.
Proof.
  induction s as [|y s IH]; simpl.
  - rewrite list_elem_of_singleton, elem_of_nil. tauto.
  - destruct (string_compare w y) eqn:E.
    + apply string_compare_eq in E. subst. rewrite elem_of_cons. tauto.
    + rewrite !elem_of_cons. tauto.
    + rewrite !elem_of_cons, IH. tauto.
Qed.

Lemma set_insert_sorted w s :
  StronglySorted string_lt s -> StronglySorted string_lt (StdSet.insert w s).
Proof.
  induction 1 as [|y s Hs IH Hy]; simpl.
  - repeat constructor.
  - destruct (string_compare w y) eqn:E.
    + by constructor.
    + constructor; [by constructor|]. constructor; [done|].
      eapply Forall_impl; [exact Hy|]. intros z Hz. by apply (string_lt_trans w y z).
    + constructor; [done|]. apply Forall_forall. intros z Hz.
      apply set_insert_elem_of in Hz as [->|Hz].
      * by apply string_compare_gt.
      * rewrite Forall_forall in Hy. by apply Hy.
Qed.

Lemma set_insert_range_elem_of ws : forall s x,
  x ∈ StdSet.insert_range ws s <-> x ∈ ws \/ x ∈ s.
Proof.
  unfold StdSet.insert_range.
  induction ws as [|w ws IH]; intros s x; simpl.
  - rewrite elem_of_nil. tauto.
  - rewrite IH, set_insert_elem_of, elem_of_cons. tauto.
Qed.

Lemma set_insert_range_sorted ws : forall s,
  StronglySorted string_lt s -> StronglySorted string_lt (StdSet.insert_range ws s).
Proof.
  unfold StdSet.insert_range.
  induction ws as [|w ws IH]; intros s Hs; simpl; [done|].
  by apply IH, set_insert_sorted.
Qed.

(** *** std::map *)

Lemma map_emplace_keys {V} k (v : V) m :
  (StdMap.emplace k v m).*1 = StdSet.insert k (m.*1).
Proof.
  induction m as [|[x u] m IH]; simpl; [done|].
  destruct (string_compare k x); simpl; [done|done|]. f_equal. exact IH.
Qed.

Lemma map_increment_keys k m :
  (StdMap.increment k m).*1 = StdSet.insert k (m.*1).
Proof.
  induction m as [|[x u] m IH]; simpl; [done|].
  destruct (string_compare k x); simpl; [done|done|]. f_equal. exact IH.
Qed.

Lemma map_find_Some {V} k (v : V) m :
  StronglySorted string_lt (m.*1) -> (StdMap.find k m = Some v <-> (k, v) ∈ m).
Proof.
  induction m as [|[x u] m IH]; simpl; intros Hs.
  - split; [done|]. by intros ?%elem_of_nil.
  - apply StronglySorted_inv in Hs as [Hs Hx]. rewrite elem_of_cons.
    destruct (string_compare k x) eqn:E.
    + apply string_compare_eq in E. subst x. split; [intros [= ->]; by left|].
      intros [[= ->]|Hin]; [done|]. exfalso.
      rewrite Forall_forall in Hx. apply (string_lt_irrefl k), Hx.
      apply list_elem_of_fmap. by exists (k, v).
    + split; [done|]. intros [[= -> ->]|Hin].
      * by rewrite string_compare_refl in E.
      * exfalso. rewrite Forall_forall in Hx.
        assert (string_lt x k) as Hxk.
        { apply Hx, list_elem_of_fmap. by exists (k, v). }
        apply (string_lt_irrefl k). by apply (string_lt_trans k x k).
    + rewrite IH by done. split; [by right|]. intros [[= -> ->]|Hin]; [|done].
      by rewrite string_compare_refl in E.
Qed.

Lemma map_find_None {V} k (m : StdMap.t V) :
  StronglySorted string_lt (m.*1) -> (StdMap.find k m = None <-> k ∉ m.*1).
Proof.
  intros Hs. split.
  - intros Hnone Hin. apply list_elem_of_fmap in Hin as ([k' v] & -> & Hin).
    apply (map_find_Some _ _ _ Hs) in Hin. simpl in *. congruence.
  - intros Hnot. destruct (StdMap.find k m) as [v|] eqn:E; [|done].
    apply (map_find_Some _ _ _ Hs) in E. destruct Hnot.
    apply list_elem_of_fmap. by exists (k, v).
Qed.

(** *** Serialisation of a vocabulary *)

Lemma token_ok_word_ok token : token_ok token -> word_ok token.
Proof.
  intros [Hne Hb]. split; [done|]. intros Hin.
  rewrite Forall_forall in Hb. apply (term_byte_not_newline newline); [by apply Hb | done].
Qed.

Lemma join_fold (words : list std_string) : forall acc,
  fold_left (fun serialized word => (serialized ++ word) ++ [newline]) words acc
  = acc ++ concat (map (fun word => word ++ [newline]) words).
Proof.
  induction words as [|w words IH]; intros acc; simpl.
  - by rewrite app_nil_r.
  - rewrite IH. by rewrite <- !app_assoc.
Qed.

Lemma join_words_concat words :
  join_words_with_newline words = concat (map (fun word => word ++ [newline]) words).
Proof. unfold join_words_with_newline. by rewrite join_fold. Qed.

Lemma split_scan_word word : forall parts current,
  newline ∉ word ->
  fold_left split_step word (parts, current) = (parts, current ++ word).
Proof.
  induction word as [|c word IH]; intros parts current Hnl; simpl.
  - by rewrite app_nil_r.
  - apply not_elem_of_cons in Hnl as [Hc Hnl].
    destruct (Ascii.eqb_spec c newline) as [->|_]; [done|].
    rewrite IH by done. by rewrite <- app_assoc.
Qed.

Lemma split_scan_words words : forall parts,
  Forall word_ok words ->
  fold_left split_step (concat (map (fun word => word ++ [newline]) words)) (parts, [])
  = (parts ++ words, []).
Proof.
  induction words as [|w words IH]; intros parts Hok; simpl.
  - by rewrite app_nil_r.
  - apply Forall_cons in Hok as [[Hne Hnl] Hok].
    rewrite <- app_assoc, fold_left_app, split_scan_word by done. simpl.
    destruct w as [|c w]; [done|]. rewrite IH by done. by rewrite <- app_assoc.
Qed.

Lemma split_join words :
  Forall word_ok words -> split_by_newline (join_words_with_newline words) = words.
Proof.
  intros Hok. unfold split_by_newline.
  by rewrite join_words_concat, split_scan_words.
Qed.

(** C10. For every [std::set] of non-empty, newline-free strings (a strictly
    increasing sequence), splitting its newline-joined serialisation returns
    exactly its elements, in ascending lexicographic order and without
    duplicates. *)
Theorem C10_split_join_roundtrip (words : StdSet.t) :
  StronglySorted string_lt words ->
  Forall word_ok words ->
  split_by_newline (join_words_with_newline words) = words
  /\ StronglySorted string_lt (split_by_newline (join_words_with_newline words))
  /\ NoDup (split_by_newline (join_words_with_newline words)).
Proof.
  intros Hs Hok. rewrite split_join by done.
  split; [done|]. split; [done|]. by apply sorted_NoDup.
Qed.

Lemma C10_split_join_roundtrip_witness :
  let words := StdSet.insert_range [str "dog"; str "cat"; str "dog"] StdSet.empty in
  words = [str "cat"; str "dog"]
  /\ split_by_newline (join_words_with_newline words) = words.
Proof.
  split; [reflexivity|].
  apply (C10_split_join_roundtrip
           (StdSet.insert_range [str "dog"; str "cat"; str "dog"] StdSet.empty)).
  - apply set_insert_range_sorted. constructor.
  - change (Forall word_ok [str "cat"; str "dog"]).
    repeat apply Forall_cons_2; try apply Forall_nil_2;
      (split; [discriminate|]); vm_compute; intros H;
      repeat (apply elem_of_cons in H as [H|H]; [discriminate|]);
      by apply elem_of_nil in H.
Defined.

(** *** The partitioner *)

Lemma seq_sorted n : forall j, StronglySorted lt (seq j n).
Proof.
  induction n as [|n IH]; intros j; simpl; constructor; [apply IH|].
  apply Forall_forall. intros k Hk. apply elem_of_seq in Hk. lia.
Qed.

Section Partition.

Variables D W : nat.
Hypothesis W_pos : 1 <= W.

(** Once the fuel covers the distance to [D], more fuel changes nothing:
    the loop stops on its own condition [idx < D]. *)
Lemma strided_indices_fuel fuel : forall idx extra,
  D <= idx + fuel ->
  strided_indices (fuel + extra) idx D W = strided_indices fuel idx D W.
Proof.
  induction fuel as [|fuel IH]; intros idx extra Hle; simpl.
  - destruct extra; simpl; [done|].
    destruct (Nat.ltb_spec idx D); [lia|done].
  - destruct (Nat.ltb_spec idx D); [|done]. f_equal. apply IH. lia.
Qed.

Lemma strided_indices_closed fuel : forall idx,
  D <= idx + fuel ->
  exists n,
    strided_indices fuel idx D W = map (fun k => idx + k * W) (seq 0 n)
    /\ forall k, idx + k * W < D <-> k < n.
Proof.
  induction fuel as [|fuel IH]; intros idx Hle; simpl.
  - exists 0. split; [done|]. intros k. nia.
  - destruct (Nat.ltb_spec idx D) as [Hlt|Hge].
    + destruct (IH (idx + W)) as (n & Hn & Hk); [lia|].
      exists (S n). split.
      * rewrite Hn. simpl. f_equal; [lia|].
        rewrite <- fmap_S_seq, <- list_fmap_compose.
        apply list_fmap_ext. intros _ k _. simpl. lia.
      * intros [|k]; [lia|]. specialize (Hk k). simpl. lia.
    + exists 0. split; [done|]. intros k. nia.
Qed.

Lemma assigned_indices_closed r :
  exists n,
    assigned_indices D W r = map (fun k => r + k * W) (seq 0 n)
    /\ forall k, r + k * W < D <-> k < n.
Proof. apply strided_indices_closed. lia. Qed.

Lemma assigned_indices_elem_of r i :
  r < W -> (i ∈ assigned_indices D W r <-> i < D /\ i mod W = r).
Proof.
  intros Hr. destruct (assigned_indices_closed r) as (n & -> & Hn).
  rewrite list_elem_of_fmap. split.
  - intros (k & -> & Hk). apply elem_of_seq in Hk.
    split; [apply Hn; lia|].
    rewrite Nat.Div0.mod_add. by apply Nat.mod_small.
  - intros [Hi Hmod]. exists (i / W).
    pose proof (Nat.div_mod_eq i W) as Hdm.
    assert (i = r + i / W * W) as Hi' by lia.
    split; [done|]. apply elem_of_seq. split; [lia|]. simpl. apply Hn. lia.
Qed.

Lemma assigned_indices_sorted r : StronglySorted lt (assigned_indices D W r).
Proof.
  destruct (assigned_indices_closed r) as (n & -> & _).
  apply StronglySorted_fmap with (R1 := lt).
  - intros k1 k2 Hk. nia.
  - apply seq_sorted.
Qed.

Lemma assigned_indices_NoDup r : NoDup (assigned_indices D W r).
Proof.
  induction (assigned_indices_sorted r) as [|x l Hl IH Hx]; constructor; [|done].
  intros Hin. rewrite Forall_forall in Hx. specialize (Hx _ Hin). lia.
Qed.

End Partition.

(** C4. For document count [D], worker count [W] and rank [r < W], the loop
    of rank [r] visits exactly [r, r+W, r+2W, ...] below [D], in that order
    and by its own stopping condition; an index below [D] is visited by the
    rank [i mod W] and by no other, once.  The visited indices are a
    function of [(D, W, r)] alone. *)
Theorem C4_round_robin_partition (D W r : nat) :
  r < W ->
  (exists n, assigned_indices D W r = map (fun k => r + k * W) (seq 0 n)
             /\ forall k, r + k * W < D <-> k < n)
  /\ (forall i, i ∈ assigned_indices D W r <-> i < D /\ i mod W = r)
  /\ (forall i, i < D ->
        exists owner, owner < W /\ i ∈ assigned_indices D W owner
                      /\ forall r', r' < W -> i ∈ assigned_indices D W r' -> r' = owner)
  /\ NoDup (assigned_indices D W r)
  /\ (forall extra, strided_indices (D + extra) r D W = assigned_indices D W r).
Proof.
  intros Hr. assert (1 <= W) as HW by lia.
  split; [by apply assigned_indices_closed|].
  split; [intros i; by apply assigned_indices_elem_of|].
  split.
  { intros i Hi. exists (i mod W).
    assert (i mod W < W) as Hm by (apply Nat.mod_upper_bound; lia).
    split; [done|]. split.
    - by apply assigned_indices_elem_of.
    - intros r' Hr' Hin. apply assigned_indices_elem_of in Hin; [|done..].
      by destruct Hin. }
  split.
  { by apply assigned_indices_NoDup. }
  intros extra. apply strided_indices_fuel; [done|lia].
Qed.

Lemma C4_round_robin_partition_witness :
  1 < 2
  /\ assigned_indices 5 2 1 = [1; 3]
  /\ (forall i, i ∈ assigned_indices 5 2 1 <-> i < 5 /\ i mod 2 = 1).
Proof.
  split; [lia|]. split; [reflexivity|].
  apply (C4_round_robin_partition 5 2 1). lia.
Defined.

(** *** Collectives: layout and variable-length gather *)

Lemma psum_S c k : psum c (S k) = psum c k + c k.
Proof.
  unfold psum. rewrite seq_S, sum_list_with_app. simpl. lia.
Qed.

Lemma psum_mono c k n : k <= n -> psum c k <= psum c n.
Proof. induction 1; [done|]. rewrite psum_S. lia. Qed.

Lemma length_concat_seq {A} (send : nat -> list A) k :
  length (concat (map send (seq 0 k))) = psum (fun i => length (send i)) k.
Proof.
  induction k as [|k IH]; [done|].
  rewrite seq_S, map_app, concat_app, List.length_app, IH, psum_S. simpl.
  rewrite app_nil_r. lia.
Qed.

Section Collectives.

Variable world_size : nat.

Lemma gather_lookup {A} `{!Inhabited A} (send : nat -> A) i :
  i < world_size -> gather world_size send !!! i = send i.
Proof.
  intros Hi. unfold gather. apply list_lookup_total_correct.
  change (map send (seq 0 world_size)) with (send <$> seq 0 world_size).
  by rewrite list_lookup_fmap, lookup_seq_lt.
Qed.

Lemma layout_prefix (c : nat -> nat) k :
  k <= world_size ->
  fold_left (fun '(displs, running) i =>
               (<[i := running]> displs, running + gather world_size c !!! i))
            (seq 0 k) (replicate world_size 0, 0)
  = (map (psum c) (seq 0 k) ++ replicate (world_size - k) 0, psum c k).
Proof.
  induction k as [|k IH]; intros Hk.
  - simpl. by rewrite Nat.sub_0_r.
  - rewrite seq_S, fold_left_app, IH by lia. simpl.
    rewrite gather_lookup, psum_S by lia. f_equal.
    rewrite map_app. simpl. rewrite <- app_assoc. simpl.
    rewrite insert_app_r_alt by (rewrite length_map, length_seq; lia).
    rewrite length_map, length_seq, Nat.sub_diag.
    replace (world_size - k) with (S (world_size - S k)) by lia. done.
Qed.

Lemma layout_gather (c : nat -> nat) :
  layout world_size (gather world_size c)
  = (map (psum c) (seq 0 world_size), psum c world_size).
Proof.
  unfold layout. rewrite layout_prefix by done.
  by rewrite Nat.sub_diag, app_nil_r.
Qed.

Lemma layout_displs_lookup (c : nat -> nat) i :
  i < world_size -> (layout world_size (gather world_size c)).1 !!! i = psum c i.
Proof.
  intros Hi. rewrite layout_gather. simpl. apply list_lookup_total_correct.
  change (map (psum c) (seq 0 world_size)) with (psum c <$> seq 0 world_size).
  by rewrite list_lookup_fmap, lookup_seq_lt.
Qed.

(** With the counts every rank announced and the offsets of [layout], the
    variable-length gather fills the buffer with the payloads in rank
    order. *)
Lemma gatherv_prefix {A} (send : nat -> list A) (x : A) k :
  k <= world_size ->
  let c := fun i => length (send i) in
  fold_left (fun buf i =>
               list_inserts ((layout world_size (gather world_size c)).1 !!! i)
                            (take (gather world_size c !!! i) (send i)) buf)
            (seq 0 k) (replicate (psum c world_size) x)
  = concat (map send (seq 0 k)) ++ replicate (psum c world_size - psum c k) x.
Proof.
  intros Hk c. induction k as [|k IH].
  - simpl. by rewrite Nat.sub_0_r.
  - rewrite seq_S, fold_left_app, IH by lia. simpl.
    rewrite layout_displs_lookup, gather_lookup by lia.
    unfold c at 2. rewrite firstn_all.
    rewrite map_app, concat_app. simpl. rewrite app_nil_r.
    pose proof (psum_mono c (S k) world_size Hk) as Hle. rewrite psum_S in Hle.
    replace (psum c world_size - psum c k)
      with (length (send k) + (psum c world_size - psum c (S k)))
      by (rewrite psum_S; change (c k) with (length (send k)) in *; lia).
    rewrite replicate_add.
    assert (length (concat (map send (seq 0 k))) = psum c k) as Hlen
      by apply length_concat_seq.
    rewrite <- Hlen, <- (Nat.add_0_r (length (concat (map send (seq 0 k))))).
    rewrite list_inserts_app_r, list_inserts_0_r by (by rewrite length_replicate).
    by rewrite <- app_assoc.
Qed.

Lemma gatherv_concat {A} (send : nat -> list A) (x : A) :
  let counts := gather world_size (fun i => length (send i)) in
  gatherv world_size send (replicate (layout world_size counts).2 x)
          counts (layout world_size counts).1
  = concat (map send (seq 0 world_size)).
Proof.
  simpl. unfold gatherv. rewrite layout_gather at 1. simpl.
  rewrite (gatherv_prefix send x world_size) by done.
  by rewrite Nat.sub_diag, app_nil_r.
Qed.

(** The piece of the gathered buffer that belongs to rank [i]. *)
Lemma concat_chunk {A} (send : nat -> list A) i :
  i < world_size ->
  take (length (send i))
       (drop (psum (fun j => length (send j)) i) (concat (map send (seq 0 world_size))))
  = send i.
Proof.
  intros Hi. replace world_size with (i + S (world_size - S i)) by lia.
  rewrite seq_app, map_app, concat_app. simpl.
  rewrite <- length_concat_seq, drop_app_length. by rewrite take_app_length.
Qed.

End Collectives.

(** *** Term counts and vocabularies *)

Lemma concat_map_bind {A B} (f : A -> list B) l : concat (map f l) = l ≫= f.
Proof. induction l as [|x l IH]; [done|]. simpl. by rewrite IH. Qed.

Lemma fold_left_ext_elem {A B} (f g : A -> B -> A) l : forall a,
  (forall a x, x ∈ l -> f a x = g a x) -> fold_left f l a = fold_left g l a.
Proof.
  induction l as [|x l IH]; intros a H; simpl; [done|].
  rewrite H by left. apply IH. intros a' y Hy. apply H. by right.
Qed.

Lemma fold_increment_keys tokens : forall m,
  (fold_left (fun word_counts token => StdMap.increment token word_counts) tokens m).*1
  = StdSet.insert_range tokens (m.*1).
Proof.
  unfold StdSet.insert_range.
  induction tokens as [|t tokens IH]; intros m; simpl; [done|].
  by rewrite IH, map_increment_keys.
Qed.

Lemma count_tokens_keys tokens :
  (count_tokens tokens).*1 = StdSet.insert_range tokens StdSet.empty.
Proof. unfold count_tokens. by rewrite fold_increment_keys. Qed.

Lemma count_tokens_sorted tokens : StronglySorted string_lt (count_tokens tokens).*1.
Proof. rewrite count_tokens_keys. apply set_insert_range_sorted. constructor. Qed.

Lemma count_tokens_elem_of tokens w : w ∈ (count_tokens tokens).*1 <-> w ∈ tokens.
Proof.
  rewrite count_tokens_keys, set_insert_range_elem_of.
  unfold StdSet.empty. rewrite elem_of_nil. tauto.
Qed.

Lemma fold_insert_keys (m : TermCount) : forall acc,
  fold_left (fun acc' entry => StdSet.insert (fst entry) acc') m acc
  = StdSet.insert_range (m.*1) acc.
Proof.
  unfold StdSet.insert_range.
  induction m as [|e m IH]; intros acc; simpl; [done|]. by rewrite IH.
Qed.

Lemma vocab_fold_sorted (docs : list TermCount) : forall acc,
  StronglySorted string_lt acc ->
  StronglySorted string_lt
    (fold_left (fun acc doc_map =>
                  fold_left (fun acc' entry => StdSet.insert (fst entry) acc') doc_map acc)
               docs acc).
Proof.
  induction docs as [|m docs IH]; intros acc Hacc; simpl; [done|].
  apply IH. rewrite fold_insert_keys. by apply set_insert_range_sorted.
Qed.

Lemma vocab_fold_elem_of (docs : list TermCount) : forall acc w,
  w ∈ fold_left (fun acc doc_map =>
                   fold_left (fun acc' entry => StdSet.insert (fst entry) acc') doc_map acc)
                docs acc
  <-> (exists m, m ∈ docs /\ w ∈ m.*1) \/ w ∈ acc.
Proof.
  induction docs as [|m docs IH]; intros acc w; simpl.
  - split; [by right|]. intros [(m & Hm & _)|H]; [by apply elem_of_nil in Hm|done].
  - rewrite IH, fold_insert_keys, set_insert_range_elem_of. split.
    + intros [(m' & Hm' & Hw)|[Hw|Hw]].
      * left. exists m'. split; [by right|done].
      * left. exists m. split; [by left|done].
      * by right.
    + intros [(m' & Hm' & Hw)|Hw].
      * apply elem_of_cons in Hm' as [->|Hm']; [right; by left|].
        left. by exists m'.
      * right. by right.
Qed.

Lemma vocab_of_sorted docs : StronglySorted string_lt (vocab_of docs).
Proof. apply vocab_fold_sorted. constructor. Qed.

Lemma vocab_of_elem_of docs w : w ∈ vocab_of docs <-> exists m, m ∈ docs /\ w ∈ m.*1.
Proof.
  unfold vocab_of. rewrite vocab_fold_elem_of. unfold StdSet.empty.
  rewrite elem_of_nil. tauto.
Qed.

Lemma fold_emplace_keys (m : TermCount) : forall acc : TermCount,
  (fold_left (fun acc' entry => StdMap.emplace (fst entry) 0%Z acc') m acc).*1
  = fold_left (fun acc' entry => StdSet.insert (fst entry) acc') m (acc.*1).
Proof.
  induction m as [|e m IH]; intros acc; simpl; [done|].
  by rewrite IH, map_emplace_keys.
Qed.

Lemma build_vocabulary_fold (docs : list TermCount) : forall acc : TermCount,
  (fold_left (fun acc document_map =>
                fold_left (fun acc' entry => StdMap.emplace (fst entry) 0%Z acc')
                          document_map acc)
             docs acc).*1
  = fold_left (fun acc doc_map =>
                 fold_left (fun acc' entry => StdSet.insert (fst entry) acc') doc_map acc)
              docs (acc.*1).
Proof.
  induction docs as [|m docs IH]; intros acc; simpl; [done|].
  by rewrite IH, fold_emplace_keys.
Qed.

(** The vocabulary of the baseline is the key set of its documents. *)
Lemma build_vocabulary_vocab_of docs : build_vocabulary docs = vocab_of docs.
Proof. unfold build_vocabulary, vocab_of. apply (build_vocabulary_fold docs []). Qed.

Lemma build_matrix_row_of docs vocabulary :
  build_matrix docs vocabulary = map (row_of vocabulary) docs.
Proof. done. Qed.

(** *** The read loops *)

Lemma local_read_step_entry fs config log counts ids idx :
  local_read_step fs config (log, counts, ids) idx
  = (log ++ document_log fs (document_paths config) idx,
     counts ++ (document_entry fs (document_paths config) idx).*2,
     ids ++ (document_entry fs (document_paths config) idx).*1).
Proof.
  unfold local_read_step, document_log, document_entry.
  destruct (read_file fs (document_paths config !!! idx)) as [e [|c content]]; simpl;
    by rewrite ?app_nil_r.
Qed.

Lemma local_read_fold fs config idxs : forall log counts ids,
  fold_left (local_read_step fs config) idxs (log, counts, ids)
  = (log ++ (idxs ≫= document_log fs (document_paths config)),
     counts ++ (idxs ≫= document_entry fs (document_paths config)).*2,
     ids ++ (idxs ≫= document_entry fs (document_paths config)).*1).
Proof.
  induction idxs as [|idx idxs IH]; intros log counts ids.
  - simpl. by rewrite !app_nil_r.
  - cbn [fold_left]. rewrite local_read_step_entry, IH, !bind_cons, !fmap_app.
    by rewrite <- !app_assoc.
Qed.

Lemma serial_read_step_entry fs pre path suf log counts names :
  serial_read_step fs (log, counts, names) path
  = (log ++ document_log fs (pre ++ path :: suf) (length pre),
     counts ++ (document_entry fs (pre ++ path :: suf) (length pre)).*2,
     names ++ map (fun e => filename ((pre ++ path :: suf) !!! e.1))
                  (document_entry fs (pre ++ path :: suf) (length pre))).
Proof.
  unfold serial_read_step, document_log, document_entry.
  rewrite list_lookup_total_middle by done.
  destruct (read_file fs path) as [e [|c content]]; simpl; rewrite ?app_nil_r; [done|].
  by rewrite list_lookup_total_middle.
Qed.

Lemma serial_read_fold fs suf : forall pre log counts names,
  fold_left (serial_read_step fs) suf (log, counts, names)
  = (log ++ (seq (length pre) (length suf) ≫= document_log fs (pre ++ suf)),
     counts ++ (seq (length pre) (length suf) ≫= document_entry fs (pre ++ suf)).*2,
     names ++ map (fun e => filename ((pre ++ suf) !!! e.1))
                  (seq (length pre) (length suf) ≫= document_entry fs (pre ++ suf))).
Proof.
  induction suf as [|path suf IH]; intros pre log counts names.
  - simpl. by rewrite !app_nil_r.
  - cbn [fold_left]. rewrite (serial_read_step_entry fs pre path suf).
    rewrite (IH (pre ++ [path])). rewrite <- !(app_assoc pre [path] suf).
    rewrite length_app. cbn [length seq]. rewrite Nat.add_1_r.
    rewrite !bind_cons, !fmap_app, ?map_app. by rewrite <- !app_assoc.
Qed.

Lemma serial_read fs paths :
  fold_left (serial_read_step fs) paths ([], [], [])
  = (seq 0 (length paths) ≫= document_log fs paths,
     (seq 0 (length paths) ≫= document_entry fs paths).*2,
     map (fun e => filename (paths !!! e.1))
         (seq 0 (length paths) ≫= document_entry fs paths)).
Proof. apply (serial_read_fold fs paths []). Qed.

(** *** Documents *)

Lemma document_entry_elem_of fs paths idx e :
  e ∈ document_entry fs paths idx ->
  e.1 = idx
  /\ (read_file fs (paths !!! idx)).2 <> []
  /\ e.2 = count_tokens (tokenize_document (read_file fs (paths !!! idx)).2).
Proof.
  unfold document_entry.
  destruct (read_file fs (paths !!! idx)).2 as [|c content]; [by intros ?%elem_of_nil|].
  intros ->%list_elem_of_singleton. done.
Qed.

Lemma document_entry_keys_sorted fs paths idx e :
  e ∈ document_entry fs paths idx -> StronglySorted string_lt (e.2.*1).
Proof.
  intros (_ & _ & ->)%document_entry_elem_of. apply count_tokens_sorted.
Qed.

Lemma document_entry_keys_ok fs paths idx e :
  e ∈ document_entry fs paths idx -> Forall word_ok (e.2.*1).
Proof.
  intros (_ & _ & ->)%document_entry_elem_of. apply Forall_forall. intros w Hw.
  rewrite count_tokens_elem_of in Hw. apply token_ok_word_ok.
  pose proof (tokenize_document_token_ok (read_file fs (paths !!! idx)).2) as Hok.
  rewrite Forall_forall in Hok. by apply Hok.
Qed.

(** A term is a key of the contribution of document [idx] exactly when it
    is a token of its content. *)
Lemma document_entry_terms fs paths idx w :
  (exists e, e ∈ document_entry fs paths idx /\ w ∈ e.2.*1)
  <-> w ∈ tokenize_document (read_file fs (paths !!! idx)).2.
Proof.
  split.
  - intros (e & He & Hw). apply document_entry_elem_of in He as (_ & _ & E).
    rewrite E in Hw. by rewrite count_tokens_elem_of in Hw.
  - intros Hw. unfold document_entry.
    destruct (read_file fs (paths !!! idx)).2 as [|c content] eqn:E.
    + by apply elem_of_nil in Hw.
    + eexists. split; [by apply list_elem_of_singleton|]. simpl.
      by rewrite count_tokens_elem_of.
Qed.

(** *** Vocabulary synchronisation *)

Lemma list_inserts_0_full {A} (l1 l2 : list A) :
  length l1 = length l2 -> list_inserts 0 l1 l2 = l1.
Proof.
  intros H. rewrite <- (app_nil_r l2), list_inserts_0_r by done. apply app_nil_r.
Qed.

Lemma bcast_full {A} (root_buf buf : list A) :
  length buf = length root_buf -> bcast (length root_buf) root_buf buf = root_buf.
Proof.
  intros H. unfold bcast. rewrite firstn_all. by apply list_inserts_0_full.
Qed.

Lemma fold_insert_range_sorted {I} (f : I -> list std_string) l : forall acc,
  StronglySorted string_lt acc ->
  StronglySorted string_lt
    (fold_left (fun acc i => StdSet.insert_range (f i) acc) l acc).
Proof.
  induction l as [|i l IH]; intros acc Hacc; simpl; [done|].
  by apply IH, set_insert_range_sorted.
Qed.

Lemma fold_insert_range_elem_of {I} (f : I -> list std_string) l : forall acc w,
  w ∈ fold_left (fun acc i => StdSet.insert_range (f i) acc) l acc
  <-> (exists i, i ∈ l /\ w ∈ f i) \/ w ∈ acc.
Proof.
  induction l as [|i l IH]; intros acc w; simpl.
  - split; [by right|]. intros [(i & Hi & _)|H]; [by apply elem_of_nil in Hi|done].
  - rewrite IH, set_insert_range_elem_of. split.
    + intros [(j & Hj & Hw)|[Hw|Hw]].
      * left. exists j. split; [by right|done].
      * left. exists i. split; [by left|done].
      * by right.
    + intros [(j & Hj & Hw)|Hw].
      * apply elem_of_cons in Hj as [->|Hj]; [right; by left|].
        left. by exists j.
      * right. by right.
Qed.

Section VocabularySync.

Variable world_size : nat.
Variable fs : storage.
Variable config : ExperimentConfig.

Lemma local_read_entries r :
  local_read world_size fs config r
  = (assigned_indices (length (document_paths config)) world_size r
       ≫= document_log fs (document_paths config),
     (local_entries world_size fs config r).*2,
     (local_entries world_size fs config r).*1).
Proof. unfold local_read. by rewrite local_read_fold. Qed.

Lemma local_counts_entries r :
  local_counts world_size fs config r = (local_entries world_size fs config r).*2.
Proof. unfold local_counts. by rewrite local_read_entries. Qed.

Lemma local_doc_indices_entries r :
  local_doc_indices world_size fs config r = (local_entries world_size fs config r).*1.
Proof. unfold local_doc_indices. by rewrite local_read_entries. Qed.

Lemma local_vocab_vocab_of r :
  local_vocab world_size fs config r = vocab_of (local_counts world_size fs config r).
Proof. done. Qed.

Lemma local_vocab_sorted r : StronglySorted string_lt (local_vocab world_size fs config r).
Proof. rewrite local_vocab_vocab_of. apply vocab_of_sorted. Qed.

Lemma local_vocab_elem_of r w :
  w ∈ local_vocab world_size fs config r
  <-> exists idx, idx ∈ assigned_indices (length (document_paths config)) world_size r
                  /\ w ∈ tokenize_document
                         (read_file fs (document_paths config !!! idx)).2.
Proof.
  rewrite local_vocab_vocab_of, vocab_of_elem_of, local_counts_entries.
  unfold local_entries. split.
  - intros (m & Hm & Hw). apply list_elem_of_fmap in Hm as (e & -> & He).
    apply list_elem_of_bind in He as (idx & He & Hidx).
    exists idx. split; [done|]. apply document_entry_terms. by exists e.
  - intros (idx & Hidx & Hw). apply document_entry_terms in Hw as (e & He & Hw).
    exists e.2. split; [|done]. apply list_elem_of_fmap. exists e. split; [done|].
    apply list_elem_of_bind. by exists idx.
Qed.

Lemma local_vocab_ok r : Forall word_ok (local_vocab world_size fs config r).
Proof.
  apply Forall_forall. intros w (idx & _ & Hw)%local_vocab_elem_of.
  apply token_ok_word_ok.
  pose proof (tokenize_document_token_ok
                (read_file fs (document_paths config !!! idx)).2) as Hok.
  rewrite Forall_forall in Hok. by apply Hok.
Qed.

Lemma split_local_vocab r :
  split_by_newline (local_vocab_serialized world_size fs config r)
  = local_vocab world_size fs config r.
Proof. apply split_join, local_vocab_ok. Qed.

(** Phase 3: the buffer of the root holds the listings in rank order. *)
Lemma global_vocab_buffer_concat :
  global_vocab_buffer world_size fs config
  = concat (map (local_vocab_serialized world_size fs config) (seq 0 world_size)).
Proof.
  apply (gatherv_concat world_size (local_vocab_serialized world_size fs config)).
Qed.

Lemma global_vocab_set_fold :
  global_vocab_set world_size fs config
  = fold_left (fun acc i => StdSet.insert_range (local_vocab world_size fs config i) acc)
              (seq 0 world_size) StdSet.empty.
Proof.
  unfold global_vocab_set. apply fold_left_ext_elem. intros acc i Hi.
  apply elem_of_seq in Hi.
  unfold vocab_displs, vocab_byte_counts.
  change (local_vocab_bytes world_size fs config)
    with (fun j => length (local_vocab_serialized world_size fs config j)).
  rewrite layout_displs_lookup, gather_lookup by lia.
  rewrite global_vocab_buffer_concat, concat_chunk by lia.
  rewrite <- split_local_vocab.
  by destruct (local_vocab_serialized world_size fs config i).
Qed.

Lemma global_vocab_set_sorted :
  StronglySorted string_lt (global_vocab_set world_size fs config).
Proof. rewrite global_vocab_set_fold. apply fold_insert_range_sorted. constructor. Qed.

Lemma global_vocab_set_elem_of w :
  w ∈ global_vocab_set world_size fs config
  <-> exists r, r < world_size /\ w ∈ local_vocab world_size fs config r.
Proof.
  rewrite global_vocab_set_fold, fold_insert_range_elem_of. unfold StdSet.empty.
  rewrite elem_of_nil. split.
  - intros [(r & Hr & Hw)|[]]. apply elem_of_seq in Hr. exists r. split; [lia|done].
  - intros (r & Hr & Hw). left. exists r. split; [|done]. apply elem_of_seq. lia.
Qed.

Lemma global_vocab_set_ok : Forall word_ok (global_vocab_set world_size fs config).
Proof.
  apply Forall_forall. intros w (r & _ & Hw)%global_vocab_set_elem_of.
  pose proof (local_vocab_ok r) as Hok. rewrite Forall_forall in Hok. by apply Hok.
Qed.

Lemma root_broadcast_vocab_join :
  root_broadcast_vocab world_size fs config
  = join_words_with_newline (global_vocab_set world_size fs config).
Proof. done. Qed.

(** Phase 4: after the two broadcasts every rank holds the listing of the
    root. *)
Lemma broadcast_vocab_root r :
  broadcast_vocab world_size fs config r = root_broadcast_vocab world_size fs config.
Proof.
  unfold broadcast_vocab, vocab_bytes. destruct r.
  - by apply bcast_full.
  - apply bcast_full. by rewrite length_replicate.
Qed.

Lemma global_vocabulary_set r :
  global_vocabulary world_size fs config r = global_vocab_set world_size fs config.
Proof.
  unfold global_vocabulary. rewrite broadcast_vocab_root, root_broadcast_vocab_join.
  apply split_join, global_vocab_set_ok.
Qed.

End VocabularySync.

Lemma all_entries_split fs config idx :
  idx < length (document_paths config) ->
  all_entries fs config
  = (seq 0 idx ≫= document_entry fs (document_paths config))
      ++ document_entry fs (document_paths config) idx
      ++ (seq (S idx) (length (document_paths config) - S idx)
            ≫= document_entry fs (document_paths config)).
Proof.
  intros Hidx. unfold all_entries.
  replace (length (document_paths config))
    with (idx + S (length (document_paths config) - S idx)) at 1 by lia.
  rewrite seq_app, bind_app. cbn [seq]. by rewrite bind_cons.
Qed.

(** *** Rows against a duplicate-free vocabulary *)

(** [vocab_index]: the position of every word of the vocabulary. *)
Lemma vocab_index_fold (voc : list std_string) k :
  NoDup voc -> k <= length voc ->
  forall w i,
    fold_left (fun (index : gmap std_string nat) i =>
                 let word := voc !!! i in
                 match index !! word with
                 | Some _ => index
                 | None => <[word := i]> index
                 end) (seq 0 k) ∅ !! w = Some i
    <-> i < k /\ voc !! i = Some w.
Proof.
  intros Hnd. induction k as [|k IH]; intros Hk w i.
  - simpl. rewrite lookup_empty. split; [done|]. intros [? _]. lia.
  - rewrite seq_S, fold_left_app. simpl.
    set (index := fold_left _ (seq 0 k) ∅) in *.
    assert (k < length voc) as Hlt by lia.
    destruct (lookup_lt_is_Some_2 voc k Hlt) as [word Hword].
    rewrite (list_lookup_total_correct _ _ _ Hword).
    destruct (index !! word) as [j|] eqn:Ej.
    + apply IH in Ej as [Hj Hvj]; [|lia].
      pose proof (NoDup_lookup _ _ _ _ Hnd Hvj Hword). lia.
    + destruct (decide (w = word)) as [->|Hne].
      * rewrite lookup_insert_eq. split.
        -- intros [= <-]. split; [lia|done].
        -- intros [_ Hi]. f_equal. by apply (NoDup_lookup voc k i word).
      * rewrite lookup_insert_ne by done. rewrite IH by lia. split.
        -- intros [? ?]. split; [lia|done].
        -- intros [Hi Hv]. split; [|done].
           destruct (decide (i = k)) as [->|]; [congruence|lia].
Qed.

Lemma row_fold_spec (voc : list std_string) (index : gmap std_string nat)
      (es : TermCount) :
  (forall w i, index !! w = Some i <-> voc !! i = Some w) ->
  NoDup (es.*1) ->
  forall row0, length row0 = length voc ->
    let row := fold_left (fun row entry =>
                            match index !! fst entry with
                            | Some i => <[i := snd entry]> row
                            | None => row
                            end) es row0 in
    length row = length voc
    /\ forall i w, voc !! i = Some w ->
         (forall v, (w, v) ∈ es -> row !! i = Some v)
         /\ (w ∉ es.*1 -> row !! i = row0 !! i).
Proof.
  intros Hindex. induction es as [|[k v] es IH]; intros Hnd row0 Hlen; simpl.
  - split; [done|]. intros i w Hw. split; [by intros v ?%elem_of_nil|done].
  - apply NoDup_cons in Hnd as [Hk Hnd]. simpl in Hk.
    set (row1 := match index !! k with Some i => <[i := v]> row0 | None => row0 end).
    assert (length row1 = length voc) as Hlen1.
    { unfold row1. destruct (index !! k); by rewrite ?length_insert. }
    destruct (IH Hnd row1 Hlen1) as [Hl Hrow]. split; [done|].
    intros i w Hw. destruct (Hrow i w Hw) as [Hin Hout]. split.
    + intros v' [[= -> ->]|Hv']%elem_of_cons; [|by apply Hin].
      rewrite Hout by done. unfold row1.
      rewrite (proj2 (Hindex k i) Hw). apply list_lookup_insert_eq.
      rewrite Hlen. by apply lookup_lt_Some in Hw.
    + intros Hnot. apply not_elem_of_cons in Hnot as [Hne Hnot].
      rewrite Hout by done. unfold row1.
      destruct (index !! k) as [j|] eqn:Ej; [|done].
      apply Hindex in Ej. apply list_lookup_insert_ne. intros ->. congruence.
Qed.

Lemma sorted_keys_NoDup {V} (m : StdMap.t V) : StronglySorted string_lt (m.*1) -> NoDup (m.*1).
Proof. apply sorted_NoDup. Qed.

Lemma row_fold_row_of (voc : list std_string) (index : gmap std_string nat)
      (m : TermCount) :
  (forall w i, index !! w = Some i <-> voc !! i = Some w) ->
  StronglySorted string_lt (m.*1) ->
  fold_left (fun row entry =>
               match index !! fst entry with
               | Some i => <[i := snd entry]> row
               | None => row
               end) m (replicate (length voc) 0%Z)
  = row_of voc m.
Proof.
  intros Hindex Hs.
  destruct (row_fold_spec voc index m Hindex (sorted_keys_NoDup m Hs)
                          (replicate (length voc) 0%Z)) as [Hlen Hrow].
  { apply length_replicate. }
  apply (list_eq_same_length _ _ (length voc)); [apply length_map|done|].
  intros i x y Hi Hx Hy.
  destruct (lookup_lt_is_Some_2 voc i Hi) as [w Hw].
  destruct (Hrow i w Hw) as [Hin Hout].
  unfold row_of in Hy. change (map ?f voc) with (f <$> voc) in Hy.
  rewrite list_lookup_fmap, Hw in Hy. simpl in Hy. injection Hy as <-.
  destruct (StdMap.find w m) as [v|] eqn:E.
  - apply (map_find_Some _ _ _ Hs) in E. rewrite (Hin v E) in Hx. congruence.
  - apply (map_find_None _ _ Hs) in E. rewrite (Hout E) in Hx.
    apply lookup_replicate in Hx as [-> _]. done.
Qed.

Lemma row_of_length voc m : length (row_of voc m) = length voc.
Proof. apply length_map. Qed.

(** *** Flattening and reassembling rows *)

Lemma fold_app_concat {A B} (f : A -> list B) l : forall acc,
  fold_left (fun flat x => flat ++ f x) l acc = acc ++ concat (map f l).
Proof.
  induction l as [|x l IH]; intros acc; simpl; [by rewrite app_nil_r|].
  by rewrite IH, app_assoc.
Qed.

Lemma fmap_bind_concat {A B C} (g : B -> C) (f : A -> list B) l :
  g <$> (l ≫= f) = concat (map (fun x => g <$> f x) l).
Proof.
  induction l as [|x l IH]; [done|]. rewrite bind_cons, fmap_app, IH. done.
Qed.

Lemma concat_fmap_bind {A B C} (g : B -> list C) (f : A -> list B) l :
  concat (g <$> (l ≫= f)) = concat (map (fun x => concat (g <$> f x)) l).
Proof.
  induction l as [|x l IH]; [done|]. rewrite bind_cons, fmap_app, concat_app, IH. done.
Qed.

Lemma length_concat_uniform {A} (rows : list (list A)) n :
  Forall (fun r => length r = n) rows -> length (concat rows) = length rows * n.
Proof.
  induction 1 as [|r rows Hr _ IH]; [done|]. simpl. rewrite length_app, IH, Hr. done.
Qed.

Lemma concat_uniform_chunk {A} (rows : list (list A)) n : forall k r,
  Forall (fun r => length r = n) rows ->
  rows !! k = Some r ->
  take n (drop (k * n) (concat rows)) = r.
Proof.
  induction rows as [|r0 rows IH]; intros k r Hall Hk; [done|].
  apply Forall_cons in Hall as [Hr0 Hall]. destruct k as [|k]; simpl in *.
  - injection Hk as ->. rewrite drop_0. by rewrite take_app_length'.
  - rewrite (drop_app_add' r0 _ n (k * n)) by done. by apply IH.
Qed.

Lemma accumulate_sum l : forall a, fold_left Nat.add l a = a + sum_list l.
Proof.
  induction l as [|x l IH]; intros a; simpl; [lia|]. rewrite IH. lia.
Qed.

Lemma sum_list_gather world_size c :
  sum_list (gather world_size c) = psum c world_size.
Proof.
  unfold gather, psum. induction (seq 0 world_size) as [|x l IH]; [done|].
  simpl. by rewrite IH.
Qed.

Lemma gather_ext {A} world_size (f g : nat -> A) :
  (forall i, i < world_size -> f i = g i) -> gather world_size f = gather world_size g.
Proof.
  intros H. unfold gather. apply map_ext_in. intros i Hi.
  apply in_seq in Hi. apply H. lia.
Qed.

(** The assembly loop of the root rebuilds the tagged rows [tagged] from
    the gathered indices and the gathered flat values. *)
Lemma ordered_rows_fold (tagged : list (nat * list Z)) n k :
  Forall (fun r => length r = n) (tagged.*2) ->
  k <= length tagged ->
  fold_left (fun '(rows, offset) i =>
               let row :=
                 match n with
                 | 0 => replicate n 0%Z
                 | S _ => list_inserts 0 (take n (drop offset (concat (tagged.*2))))
                                       (replicate n 0%Z)
                 end in
               (rows ++ [(tagged.*1 !!! i, row)], offset + n))
            (seq 0 k) ([], 0)
  = (take k tagged, k * n).
Proof.
  intros Hall. induction k as [|k IH]; intros Hk; [done|].
  rewrite seq_S, fold_left_app, IH by lia. simpl.
  destruct (lookup_lt_is_Some_2 tagged k) as [[idx row] Hrow]; [lia|].
  rewrite (take_S_r _ _ _ Hrow). f_equal; [|lia]. f_equal. f_equal.
  f_equal.
  - apply list_lookup_total_correct. by rewrite list_lookup_fmap, Hrow.
  - assert (tagged.*2 !! k = Some row) as Hrow2 by (by rewrite list_lookup_fmap, Hrow).
    assert (length row = n) as Hlen.
    { rewrite Forall_forall in Hall. apply Hall.
      by apply list_elem_of_lookup_2 in Hrow2. }
    destruct n as [|n'].
    + by destruct row.
    + rewrite (concat_uniform_chunk _ _ k row Hall Hrow2).
      apply list_inserts_0_full. by rewrite length_replicate.
Qed.

(** *** Row construction and gathers of a run *)

Section Assembly.

Variable world_size : nat.
Variable fs : storage.
Variable config : ExperimentConfig.

Local Abbreviation G := (global_vocab_set world_size fs config).
Local Abbreviation entries := (local_entries world_size fs config).

Lemma vocab_size_set r : vocab_size world_size fs config r = length G.
Proof. unfold vocab_size. by rewrite global_vocabulary_set. Qed.

Lemma vocab_index_spec r w i :
  vocab_index world_size fs config r !! w = Some i <-> G !! i = Some w.
Proof.
  unfold vocab_index. rewrite vocab_size_set, global_vocabulary_set.
  rewrite vocab_index_fold; [|apply sorted_NoDup, global_vocab_set_sorted|done].
  split; [tauto|]. intros H. split; [|done]. by apply lookup_lt_Some in H.
Qed.

Lemma local_row_row_of r m :
  StronglySorted string_lt (m.*1) ->
  local_row world_size fs config r m = row_of G m.
Proof.
  intros Hs. unfold local_row. rewrite vocab_size_set.
  apply row_fold_row_of; [|done]. intros w i. apply vocab_index_spec.
Qed.

Lemma local_entries_keys_sorted r e :
  e ∈ entries r -> StronglySorted string_lt (e.2.*1).
Proof.
  intros (idx & He & _)%list_elem_of_bind. by apply document_entry_keys_sorted in He.
Qed.

Lemma local_doc_indices_tagged r :
  local_doc_indices world_size fs config r = (tag_row G <$> entries r).*1.
Proof.
  rewrite local_doc_indices_entries, <- list_fmap_compose.
  by apply list_fmap_ext.
Qed.

Lemma local_rows_flat_tagged r :
  local_rows_flat world_size fs config r = concat ((tag_row G <$> entries r).*2).
Proof.
  unfold local_rows_flat. rewrite fold_app_concat. simpl. f_equal.
  rewrite local_counts_entries, <- list_fmap_compose.
  change (map ?f (?l.*2)) with (f <$> (l.*2)). rewrite <- list_fmap_compose.
  apply list_fmap_ext. intros i e He. simpl. apply local_row_row_of.
  by apply (local_entries_keys_sorted r), list_elem_of_lookup_2 with i.
Qed.

Lemma tagged_rows_length r :
  Forall (fun row => length row = length G) ((tag_row G <$> entries r).*2).
Proof.
  apply Forall_forall. intros row Hrow.
  apply list_elem_of_fmap in Hrow as (t & -> & Ht).
  apply list_elem_of_fmap in Ht as (e & -> & _). apply row_of_length.
Qed.

Lemma gathered_rows_length :
  Forall (fun row => length row = length G) ((gathered_rows world_size fs config).*2).
Proof.
  apply Forall_forall. intros row Hrow.
  apply list_elem_of_fmap in Hrow as (t & -> & Ht).
  apply list_elem_of_bind in Ht as (r & Ht & _).
  pose proof (tagged_rows_length r) as Hall. rewrite Forall_forall in Hall.
  apply Hall. apply list_elem_of_fmap. by exists t.
Qed.

Lemma row_counts_lengths :
  row_counts world_size fs config
  = gather world_size (fun r => length (local_doc_indices world_size fs config r)).
Proof.
  apply gather_ext. intros r _. unfold local_row_count.
  by rewrite local_counts_entries, local_doc_indices_entries, !length_fmap.
Qed.

Lemma gathered_doc_indices_rows :
  gathered_doc_indices world_size fs config = (gathered_rows world_size fs config).*1.
Proof.
  unfold gathered_doc_indices, doc_index_displs. rewrite row_counts_lengths.
  rewrite (gatherv_concat world_size (local_doc_indices world_size fs config) 0).
  unfold gathered_rows. rewrite fmap_bind_concat. f_equal.
  apply map_ext. intros r. apply local_doc_indices_tagged.
Qed.

Lemma value_counts_lengths :
  value_counts world_size fs config
  = gather world_size (fun r => length (local_rows_flat world_size fs config r)).
Proof.
  unfold value_counts, row_counts, gather. rewrite map_map.
  apply map_ext. intros r. rewrite local_rows_flat_tagged.
  rewrite (length_concat_uniform _ (length G)) by apply tagged_rows_length.
  unfold local_row_count.
  by rewrite local_counts_entries, vocab_size_set, !length_fmap.
Qed.

Lemma gathered_values_rows :
  gathered_values world_size fs config = concat ((gathered_rows world_size fs config).*2).
Proof.
  unfold gathered_values, value_displs. rewrite value_counts_lengths.
  rewrite (gatherv_concat world_size (local_rows_flat world_size fs config) 0%Z).
  unfold gathered_rows. rewrite concat_fmap_bind. f_equal.
  apply map_ext. intros r. apply local_rows_flat_tagged.
Qed.

Lemma total_rows_length :
  total_rows world_size fs config = length (gathered_rows world_size fs config).
Proof.
  unfold total_rows. rewrite accumulate_sum, row_counts_lengths, sum_list_gather.
  simpl. rewrite <- length_concat_seq.
  rewrite <- (length_fmap fst (gathered_rows world_size fs config)).
  rewrite <- gathered_doc_indices_rows.
  unfold gathered_doc_indices, doc_index_displs. rewrite row_counts_lengths.
  by rewrite (gatherv_concat world_size (local_doc_indices world_size fs config) 0).
Qed.

(** After the three gathers the root holds the tagged rows of all ranks. *)
Lemma ordered_rows_gathered :
  ordered_rows world_size fs config = gathered_rows world_size fs config.
Proof.
  unfold ordered_rows.
  rewrite total_rows_length, gathered_doc_indices_rows, gathered_values_rows.
  rewrite vocab_size_set.
  rewrite (ordered_rows_fold (gathered_rows world_size fs config) (length G))
    by (apply gathered_rows_length || done).
  simpl. apply firstn_all.
Qed.

End Assembly.

(** *** Every document belongs to one rank *)

Lemma assigned_indices_cover D W :
  1 <= W -> seq 0 W ≫= assigned_indices D W ≡ₚ seq 0 D.
Proof.
  intros HW. apply NoDup_Permutation.
  - apply NoDup_bind; [| |apply NoDup_seq].
    + intros r1 r2 i Hr1 Hr2 H1 H2. apply elem_of_seq in Hr1, Hr2.
      apply assigned_indices_elem_of in H1 as [_ H1]; [|done|lia].
      apply assigned_indices_elem_of in H2 as [_ H2]; [|done|lia]. congruence.
    + intros r Hr. apply elem_of_seq in Hr.
      by apply assigned_indices_NoDup.
  - apply NoDup_seq.
  - intros i. rewrite list_elem_of_bind, elem_of_seq. split.
    + intros (r & Hi & Hr). apply elem_of_seq in Hr.
      apply assigned_indices_elem_of in Hi as [Hi _]; [|done|lia]. lia.
    + intros [_ Hi]. exists (i mod W).
      assert (i mod W < W) as Hm by (apply Nat.mod_upper_bound; lia).
      split; [|apply elem_of_seq; lia].
      apply assigned_indices_elem_of; [done..|]. split; [lia|done].
Qed.

Lemma list_bind_assoc {A B C} (f : A -> list B) (g : B -> list C) l :
  (l ≫= f) ≫= g = l ≫= (fun x => f x ≫= g).
Proof.
  induction l as [|x l IH]; [done|]. by rewrite !bind_cons, bind_app, IH.
Qed.

Lemma list_fmap_of_bind {A B C} (g : B -> C) (f : A -> list B) l :
  g <$> (l ≫= f) = l ≫= (fun x => g <$> f x).
Proof.
  induction l as [|x l IH]; [done|]. by rewrite !bind_cons, fmap_app, IH.
Qed.

Lemma gathered_rows_perm world_size fs config :
  1 <= world_size ->
  gathered_rows world_size fs config
  ≡ₚ tag_row (global_vocab_set world_size fs config) <$> all_entries fs config.
Proof.
  intros HW. unfold gathered_rows, local_entries, all_entries.
  rewrite <- (assigned_indices_cover (length (document_paths config)) world_size HW).
  by rewrite list_bind_assoc, list_fmap_of_bind.
Qed.

(** *** Sorting rows by document index *)

#[global] Instance row_le_trans : Transitive row_le.
Proof. intros a b c. unfold row_le. lia. Qed.

#[global] Instance row_le_total : Total row_le.
Proof. intros a b. unfold row_le. lia. Qed.

Lemma NoDup_fst_eq {A B} (l : list (A * B)) x y :
  NoDup (l.*1) -> x ∈ l -> y ∈ l -> x.1 = y.1 -> x = y.
Proof.
  induction l as [|z l IH]; intros Hnd Hx Hy E; [by apply elem_of_nil in Hx|].
  apply NoDup_cons in Hnd as [Hz Hnd].
  apply elem_of_cons in Hx as [->|Hx]; apply elem_of_cons in Hy as [->|Hy]; try done.
  - destruct Hz. rewrite E. by apply list_elem_of_fmap_2.
  - destruct Hz. rewrite <- E. by apply list_elem_of_fmap_2.
  - by apply IH.
Qed.

Lemma sorted_fst_row_le (l : list (nat * list Z)) :
  StronglySorted lt (l.*1) -> StronglySorted row_le l.
Proof.
  induction l as [|x l IH]; intros Hs; [constructor|].
  apply StronglySorted_inv in Hs as [Hs Hx]. constructor; [by apply IH|].
  apply Forall_forall. intros y Hy. rewrite Forall_forall in Hx.
  unfold row_le. apply Nat.lt_le_incl, Hx. by apply list_elem_of_fmap_2.
Qed.

Lemma sorted_lt_NoDup (l : list nat) : StronglySorted lt l -> NoDup l.
Proof.
  induction 1 as [|x l Hl IH Hx]; constructor; [|done].
  intros Hin. rewrite Forall_forall in Hx. specialize (Hx _ Hin). lia.
Qed.

(** With pairwise distinct tags there is one sorted arrangement only, so
    the sorting algorithm does not matter. *)
Lemma sort_rows_unique (rows sorted : list (nat * list Z)) :
  NoDup (rows.*1) ->
  sorted ≡ₚ rows ->
  StronglySorted row_le sorted ->
  sort_rows rows = sorted.
Proof.
  intros Hnd Hperm Hsorted.
  apply (StronglySorted_unique_strong row_le).
  - intros x1 x2 H1 H2 H12 H21. apply (NoDup_fst_eq rows); try done.
    + unfold sort_rows in H1. by rewrite merge_sort_Permutation in H1.
    + by rewrite <- Hperm.
    + unfold row_le in *. lia.
  - apply StronglySorted_merge_sort; apply _.
  - done.
  - unfold sort_rows. by rewrite merge_sort_Permutation.
Qed.

Lemma entries_fst_elem_of fs paths l k :
  k ∈ (l ≫= document_entry fs paths).*1 -> k ∈ l.
Proof.
  intros (e & -> & He)%list_elem_of_fmap.
  apply list_elem_of_bind in He as (idx & He & Hidx).
  by apply document_entry_elem_of in He as (-> & _).
Qed.

Lemma entries_fst_sorted fs paths l :
  StronglySorted lt l -> StronglySorted lt (l ≫= document_entry fs paths).*1.
Proof.
  induction 1 as [|idx l Hl IH Hidx]; [constructor|].
  rewrite bind_cons, fmap_app. unfold document_entry at 1.
  destruct (read_file fs (paths !!! idx)).2; [done|]. simpl.
  constructor; [done|]. apply Forall_forall. intros k Hk.
  apply entries_fst_elem_of in Hk. rewrite Forall_forall in Hidx. by apply Hidx.
Qed.

Lemma all_entries_fst_sorted fs config : StronglySorted lt (all_entries fs config).*1.
Proof. apply entries_fst_sorted, seq_sorted. Qed.

Lemma sorted_rows_entries world_size fs config :
  1 <= world_size ->
  sorted_rows world_size fs config
  = tag_row (global_vocab_set world_size fs config) <$> all_entries fs config.
Proof.
  intros HW. unfold sorted_rows. rewrite ordered_rows_gathered.
  assert ((tag_row (global_vocab_set world_size fs config) <$> all_entries fs config).*1
          = (all_entries fs config).*1) as Hfst.
  { rewrite <- list_fmap_compose. by apply list_fmap_ext. }
  apply sort_rows_unique.
  - rewrite (gathered_rows_perm world_size fs config HW), Hfst.
    apply sorted_lt_NoDup, all_entries_fst_sorted.
  - symmetry. by apply gathered_rows_perm.
  - apply sorted_fst_row_le. rewrite Hfst. apply all_entries_fst_sorted.
Qed.

(** *** What the two runs write *)

Lemma written_app l1 l2 : written (l1 ++ l2) = written l1 ++ written l2.
Proof. unfold written. apply flat_map_app. Qed.

Lemma written_document_logs fs paths l : written (l ≫= document_log fs paths) = [].
Proof.
  induction l as [|idx l IH]; [done|]. rewrite bind_cons, written_app, IH.
  unfold document_log, read_file. by destruct (fs (paths !!! idx)).
Qed.

Lemma global_vocab_set_all world_size fs config :
  1 <= world_size ->
  global_vocab_set world_size fs config = vocab_of (all_entries fs config).*2.
Proof.
  intros HW. apply sorted_ext; [apply global_vocab_set_sorted|apply vocab_of_sorted|].
  intros w. rewrite global_vocab_set_elem_of, vocab_of_elem_of. split.
  - intros (r & Hr & (idx & Hidx & Hw)%local_vocab_elem_of).
    apply document_entry_terms in Hw as (e & He & Hw).
    exists e.2. split; [|done]. apply list_elem_of_fmap_2.
    apply list_elem_of_bind. exists idx. split; [done|].
    apply assigned_indices_elem_of in Hidx as [Hidx _]; [|done..].
    apply elem_of_seq. lia.
  - intros (m & (e & -> & He)%list_elem_of_fmap & Hw).
    apply list_elem_of_bind in He as (idx & He & Hidx). apply elem_of_seq in Hidx.
    exists (idx mod world_size).
    assert (idx mod world_size < world_size) as Hm by (apply Nat.mod_upper_bound; lia).
    split; [done|]. apply local_vocab_elem_of. exists idx. split.
    + apply assigned_indices_elem_of; [done..|]. split; [lia|done].
    + apply document_entry_terms. by exists e.
Qed.

Lemma tag_row_names voc (paths : list std_string) (l : list (nat * TermCount)) :
  map (fun row => filename (paths !!! row.1)) (tag_row voc <$> l)
  = map (fun e => filename (paths !!! e.1)) l.
Proof. induction l as [|e l IH]; [done|]. simpl. f_equal. apply IH. Qed.

Lemma tag_row_matrix voc (l : list (nat * TermCount)) :
  map snd (tag_row voc <$> l) = map (row_of voc) (l.*2).
Proof. induction l as [|e l IH]; [done|]. simpl. f_equal. apply IH. Qed.

Lemma run_serial_written fs config :
  written (run_serial fs config) = corpus_table fs config.
Proof.
  unfold run_serial, corpus_table. rewrite serial_read.
  destruct (document_paths config) as [|p ps] eqn:E.
  { unfold all_entries. by rewrite E. }
  rewrite <- E. fold (all_entries fs config).
  destruct (all_entries fs config) as [|e es] eqn:Eall.
  - simpl. by rewrite written_app, written_document_logs.
  - cbn [fmap list_fmap]. rewrite written_app, written_document_logs.
    by rewrite build_vocabulary_vocab_of, build_matrix_row_of.
Qed.

Lemma run_parallel_written_root world_size fs config :
  1 <= world_size ->
  written (run_parallel world_size fs config 0) = corpus_table fs config.
Proof.
  intros HW. unfold run_parallel, corpus_table.
  destruct (document_paths config) as [|p ps] eqn:E.
  { unfold all_entries. by rewrite E. }
  rewrite !written_app. unfold local_log. rewrite local_read_entries. simpl.
  rewrite written_document_logs, app_nil_r. simpl.
  unfold root_finish, doc_names, matrix.
  rewrite sorted_rows_entries, global_vocabulary_set, global_vocab_set_all by done.
  rewrite tag_row_names, tag_row_matrix, E.
  by destruct (all_entries fs config) as [|e es] eqn:Eall.
Qed.

Lemma run_parallel_written_other world_size fs config r :
  written (run_parallel world_size fs config (S r)) = [].
Proof.
  unfold run_parallel. destruct (document_paths config) as [|p ps]; [done|].
  rewrite !written_app. unfold local_log. rewrite local_read_entries. simpl.
  by rewrite written_document_logs.
Qed.

(** C2. After the four phases every rank holds the same vocabulary: the
    strictly increasing (lexicographic, by byte value) sequence of the terms
    found by some rank in the documents assigned to it and read, which is the
    union of the local term sets.  When no rank found a term it is empty, and
    this is no error: if some document has content, the coordinator still
    writes the table, with an empty header and rows of length 0. *)
Theorem C2_vocabulary_synchronised
        (world_size : nat) (fs : storage) (config : ExperimentConfig) (r : nat) :
  r < world_size ->
  global_vocabulary world_size fs config r = global_vocabulary world_size fs config 0
  /\ StronglySorted string_lt (global_vocabulary world_size fs config r)
  /\ (forall w, w ∈ global_vocabulary world_size fs config r
                <-> exists r', r' < world_size /\ w ∈ local_vocab world_size fs config r')
  /\ (forall w, w ∈ global_vocabulary world_size fs config r
                <-> exists r' idx,
                      r' < world_size
                      /\ idx ∈ assigned_indices (length (document_paths config)) world_size r'
                      /\ w ∈ tokenize_document
                             (read_file fs (document_paths config !!! idx)).2)
  /\ ((forall r', r' < world_size -> local_vocab world_size fs config r' = [])
      -> global_vocabulary world_size fs config r = []
         /\ ((exists idx, idx < length (document_paths config)
                          /\ (read_file fs (document_paths config !!! idx)).2 <> [])
             -> exists table,
                 written (run_parallel world_size fs config 0) = [table]
                 /\ table_vocabulary table = []
                 /\ Forall (fun row => row = []) (table_matrix table))).
Proof.
  intros Hr. rewrite !global_vocabulary_set.
  split; [done|]. split; [apply global_vocab_set_sorted|].
  split; [apply global_vocab_set_elem_of|]. split.
  - intros w. rewrite global_vocab_set_elem_of. split.
    + intros (r' & Hr' & (idx & Hidx & Hw)%local_vocab_elem_of). by exists r', idx.
    + intros (r' & idx & Hr' & Hidx & Hw). exists r'. split; [done|].
      apply local_vocab_elem_of. by exists idx.
  - intros Hempty.
    assert (global_vocab_set world_size fs config = []) as Hnil.
    { destruct (global_vocab_set world_size fs config) as [|w s] eqn:E; [done|].
      assert (w ∈ global_vocab_set world_size fs config) as Hw by (rewrite E; by left).
      apply global_vocab_set_elem_of in Hw as (r' & Hr' & Hw).
      rewrite Hempty in Hw by done. by apply elem_of_nil in Hw. }
    split; [done|]. intros (idx & Hidx & Hcontent).
    rewrite run_parallel_written_root by lia. unfold corpus_table.
    rewrite <- (global_vocab_set_all world_size) by lia. rewrite Hnil.
    destruct (all_entries fs config) as [|e es] eqn:Eall.
    + pose proof (all_entries_split fs config idx Hidx) as Hsplit.
      rewrite Eall in Hsplit. unfold document_entry in Hsplit at 2.
      destruct (read_file fs (document_paths config !!! idx)).2; [done|].
      by destruct (seq 0 idx ≫= document_entry fs (document_paths config)).
    + eexists. split; [done|]. split; [done|]. cbn [table_matrix].
      change (map ?f ?l) with (f <$> l). by apply Forall_fmap, Forall_true.
Qed.

Lemma C2_vocabulary_synchronised_witness :
  1 < 2
  /\ global_vocabulary 2 cat_dog_fs cat_dog_config 1
     = global_vocabulary 2 cat_dog_fs cat_dog_config 0.
Proof.
  split; [lia|]. apply (C2_vocabulary_synchronised 2 cat_dog_fs cat_dog_config 1). lia.
Defined.

(** C1. For every storage, every list of document paths and every worker
    count [W >= 1], the coordinator of the distributed run writes exactly the
    table of the baseline (same vocabulary in the same order, same document
    names in the same order, same matrix), no other rank writes anything,
    and the table is the same for every worker count. *)
Theorem C1_parallel_equals_serial
        (world_size : nat) (fs : storage) (config : ExperimentConfig) :
  1 <= world_size ->
  written (run_parallel world_size fs config 0) = written (run_serial fs config)
  /\ (forall r, 0 < r -> written (run_parallel world_size fs config r) = [])
  /\ (forall world_size', 1 <= world_size' ->
        written (run_parallel world_size' fs config 0)
        = written (run_parallel world_size fs config 0)).
Proof.
  intros HW. split; [|split].
  - by rewrite run_parallel_written_root, run_serial_written.
  - intros [|r] Hr; [lia|]. apply run_parallel_written_other.
  - intros W' HW'. by rewrite !run_parallel_written_root.
Qed.

Lemma C1_parallel_equals_serial_witness :
  1 <= 2
  /\ written (run_parallel 2 cat_dog_fs cat_dog_config 0)
     = written (run_serial cat_dog_fs cat_dog_config).
Proof.
  split; [lia|].
  exact (proj1 (C1_parallel_equals_serial 2 cat_dog_fs cat_dog_config (le_S 1 1 (le_n 1)))).
Defined.

(** *** The two-document scenario *)

(** C5, as stated, does not hold: with the vocabulary
    [cat, dog, ran, sat, the] the rows written for "the cat sat" and
    "the dog ran" are not [0,0,0,1,1] and [1,1,1,0,1]. *)
Lemma C5_stated_rows_refuted :
  table_matrix <$> written (run_parallel 2 cat_dog_fs cat_dog_config 0)
  <> [[[0; 0; 0; 1; 1]; [1; 1; 1; 0; 1]]%Z].
Proof. vm_compute. discriminate. Qed.

(** C5 (amended). For the corpus ["the cat sat", "the dog ran"] and two
    workers, rank 0 is assigned document 0 and rank 1 document 1; the
    vocabulary is [cat, dog, ran, sat, the]; the rows, in document order,
    are [1,0,0,1,1] and [0,1,1,0,1]. *)
Theorem C5_cat_dog_scenario :
  assigned_indices 2 2 0 = [0]
  /\ assigned_indices 2 2 1 = [1]
  /\ local_doc_indices 2 cat_dog_fs cat_dog_config 0 = [0]
  /\ local_doc_indices 2 cat_dog_fs cat_dog_config 1 = [1]
  /\ written (run_parallel 2 cat_dog_fs cat_dog_config 0)
     = [{| table_vocabulary := [str "cat"; str "dog"; str "ran"; str "sat"; str "the"];
           table_doc_names := [str "d0.txt"; str "d1.txt"];
           table_matrix := [[1; 0; 0; 1; 1]; [0; 1; 1; 0; 1]]%Z |}]
  /\ written (run_serial cat_dog_fs cat_dog_config)
     = written (run_parallel 2 cat_dog_fs cat_dog_config 0).
Proof. repeat split; vm_compute; reflexivity. Qed.

(** *** Empty corpus, no readable document *)

Lemma bind_nil_elem {A B} (f : A -> list B) l :
  (forall x, x ∈ l -> f x = []) -> l ≫= f = [].
Proof.
  induction l as [|x l IH]; intros H; [done|].
  rewrite bind_cons, H by left. apply IH. intros y Hy. apply H. by right.
Qed.

Lemma no_readable_all_entries fs config :
  no_readable_document fs config -> all_entries fs config = [].
Proof.
  intros Hno. apply bind_nil_elem. intros idx Hidx. apply elem_of_seq in Hidx.
  unfold document_entry. rewrite Hno; [done|].
  apply list_elem_of_lookup_total_2. lia.
Qed.

Lemma document_log_open_errors fs paths l :
  Forall is_open_error (l ≫= document_log fs paths).
Proof.
  apply Forall_bind, Forall_forall. intros idx _. simpl.
  unfold document_log, read_file. destruct (fs (paths !!! idx)); simpl; [done|].
  repeat constructor. by eexists.
Qed.

(** C7, as stated, does not hold for the distributed run: when the only
    document cannot be opened, every collective phase is entered before the
    coordinator reports the empty result. *)
Lemma C7_sync_entered_refuted :
  no_readable_document locked_fs locked_config
  /\ ~ aborts_before_sync (run_parallel 1 locked_fs locked_config 0).
Proof.
  split; [done|]. intros [Hmpi _]. apply (Hmpi MPI_Gather).
  vm_compute. apply list_elem_of_further, list_elem_of_here.
Qed.

Lemma no_readable_local_entries world_size fs config r :
  1 <= world_size ->
  no_readable_document fs config -> local_entries world_size fs config r = [].
Proof.
  intros HW Hno. apply bind_nil_elem. intros idx Hidx.
  destruct (assigned_indices_closed (length (document_paths config)) world_size HW r)
    as (n & Hn & Hk).
  rewrite Hn in Hidx. apply list_elem_of_fmap in Hidx as (k & -> & Hin).
  apply elem_of_seq in Hin.
  unfold document_entry. rewrite Hno; [done|].
  apply list_elem_of_lookup_total_2. apply Hk. lia.
Qed.

(** C7 (amended). When the corpus is empty or no document is readable,
    neither run writes a file.  The baseline stops with a diagnostic about
    the condition, after the open errors only.  The distributed run returns
    at once, without any event, when the document list is empty.  When the
    list is not empty, every rank goes through the seven collective
    operations of the two synchronisations, contributing an empty
    vocabulary, no row, no index and no value, and ends at the barrier and
    the reduction; the vocabulary it receives is empty; only the
    coordinator reports, after the synchronisations, that no row was
    generated. *)
Theorem C7_empty_corpus
        (world_size : nat) (fs : storage) (config : ExperimentConfig) :
  1 <= world_size ->
  no_readable_document fs config ->
  (exists log d,
      run_serial fs config = log ++ [cerr d]
      /\ (d = no_documents \/ d = no_valid_document)
      /\ Forall is_open_error log)
  /\ written (run_serial fs config) = []
  /\ (forall r, written (run_parallel world_size fs config r) = [])
  /\ (document_paths config = [] -> forall r, run_parallel world_size fs config r = [])
  /\ (document_paths config <> [] ->
      forall r,
        run_parallel world_size fs config r
        = local_log world_size fs config r
            ++ [mpi MPI_Gather; mpi MPI_Gatherv; mpi MPI_Bcast; mpi MPI_Bcast;
                mpi MPI_Gather; mpi MPI_Gatherv; mpi MPI_Gatherv]
            ++ (match r with 0 => [cerr no_rows_generated] | S _ => [] end)
            ++ [mpi MPI_Barrier; mpi MPI_Reduce]
        /\ Forall is_open_error (local_log world_size fs config r)
        /\ local_vocab_serialized world_size fs config r = []
        /\ local_row_count world_size fs config r = 0
        /\ local_doc_indices world_size fs config r = []
        /\ local_rows_flat world_size fs config r = []
        /\ global_vocabulary world_size fs config r = []).
Proof.
  intros HW Hno. pose proof (no_readable_all_entries fs config Hno) as Hall.
  split; [|split; [|split; [|split]]].
  - unfold run_serial. rewrite serial_read. fold (all_entries fs config). rewrite Hall.
    destruct (document_paths config) as [|p ps] eqn:E.
    + exists [], no_documents. split; [done|]. split; [by left|done].
    + rewrite <- E. eexists _, no_valid_document. split; [done|].
      split; [by right|]. apply document_log_open_errors.
  - rewrite run_serial_written. unfold corpus_table. by rewrite Hall.
  - intros [|r]; [|apply run_parallel_written_other].
    rewrite run_parallel_written_root by done. unfold corpus_table. by rewrite Hall.
  - intros E r. unfold run_parallel. by rewrite E.
  - intros Hne r.
    pose proof (no_readable_local_entries world_size fs config r HW Hno) as Hlocal.
    assert (local_counts world_size fs config r = []) as Hcounts
      by (by rewrite local_counts_entries, Hlocal).
    split; [|split; [|split; [|split; [|split; [|split]]]]].
    + unfold run_parallel. destruct (document_paths config) as [|p ps]; [done|].
      do 2 f_equal. destruct r as [|r]; [|done]. unfold root_finish, doc_names.
      by rewrite sorted_rows_entries, Hall.
    + unfold local_log. rewrite local_read_entries. simpl.
      apply document_log_open_errors.
    + unfold local_vocab_serialized, local_vocab. by rewrite Hcounts.
    + unfold local_row_count. by rewrite Hcounts.
    + by rewrite local_doc_indices_entries, Hlocal.
    + unfold local_rows_flat. by rewrite Hcounts.
    + rewrite global_vocabulary_set, global_vocab_set_all by done. by rewrite Hall.
Qed.

Lemma C7_empty_corpus_witness :
  1 <= 2
  /\ no_readable_document locked_fs locked_config
  /\ written (run_serial locked_fs locked_config) = []
  /\ written (run_parallel 2 locked_fs locked_config 0) = []
  /\ collectives (run_parallel 2 locked_fs locked_config 1)
     = [MPI_Gather; MPI_Gatherv; MPI_Bcast; MPI_Bcast;
        MPI_Gather; MPI_Gatherv; MPI_Gatherv; MPI_Barrier; MPI_Reduce].
Proof.
  assert (no_readable_document locked_fs locked_config) as Hno by done.
  split; [lia|]. split; [done|].
  destruct (C7_empty_corpus 2 locked_fs locked_config (le_S 1 1 (le_n 1)) Hno)
    as (_ & Hs & Hp & _ & Hr).
  split; [exact Hs|]. split; [exact (Hp 0)|].
  destruct (Hr ltac:(discriminate) 1) as (-> & _). reflexivity.
Defined.

(** *** Documents without term-forming bytes *)

Lemma tokenize_separators content :
  Forall (fun b => term_forming b = false) content -> tokenize_document content = [].
Proof.
  intros H. rewrite tokenize_document_runs.
  rewrite <- (app_nil_r content), spec_maximal_runs_separators by done. done.
Qed.

Lemma row_of_nil voc : row_of voc [] = replicate (length voc) 0%Z.
Proof. induction voc as [|w voc IH]; [done|]. simpl. f_equal. apply IH. Qed.

Lemma sorted_rows_elem_of world_size fs config idx row :
  1 <= world_size ->
  (idx, row) ∈ sorted_rows world_size fs config ->
  (read_file fs (document_paths config !!! idx)).2 <> [].
Proof.
  intros HW. rewrite sorted_rows_entries by done.
  intros (e & E & He)%list_elem_of_fmap.
  apply list_elem_of_bind in He as (idx' & He & _).
  apply document_entry_elem_of in He as (E1 & Hne & _).
  injection E as -> _. by rewrite E1.
Qed.

(** C6, as stated, does not hold for a document whose content is empty: it
    has no term-forming byte, yet it is skipped and no row is written for
    it, neither by the distributed run nor by the baseline. *)
Lemma C6_empty_document_refuted :
  Forall (fun b => term_forming b = false)
         (read_file empty_doc_fs (document_paths cat_dog_config !!! 0)).2
  /\ (forall row, (0, row) ∉ sorted_rows 2 empty_doc_fs cat_dog_config)
  /\ table_doc_names <$> written (run_serial empty_doc_fs cat_dog_config)
     = [[str "d1.txt"]].
Proof.
  split; [constructor|]. split; [|reflexivity].
  intros row Hin. by apply sorted_rows_elem_of in Hin; [|lia].
Qed.

(** C6 (amended). A document without term-forming bytes has a term count
    with no entry.  When its content is not empty, its row is all zeros and
    as long as the vocabulary (so of length 0 when the vocabulary is empty),
    in the distributed run and in the baseline, at the position of the
    document among the processed ones.  When its content is empty the
    document is skipped and has no row. *)
Theorem C6_blank_document_row
        (world_size : nat) (fs : storage) (config : ExperimentConfig)
        (idx : nat) (content : std_string) :
  1 <= world_size ->
  idx < length (document_paths config) ->
  (read_file fs (document_paths config !!! idx)).2 = content ->
  Forall (fun b => term_forming b = false) content ->
  count_tokens (tokenize_document content) = []
  /\ (content <> [] ->
      (idx, replicate (length (global_vocabulary world_size fs config 0)) 0%Z)
        ∈ sorted_rows world_size fs config
      /\ exists table,
          written (run_serial fs config) = [table]
          /\ written (run_parallel world_size fs config 0) = [table]
          /\ table_doc_names table
               !! length (seq 0 idx ≫= document_entry fs (document_paths config))
             = Some (filename (document_paths config !!! idx))
          /\ table_matrix table
               !! length (seq 0 idx ≫= document_entry fs (document_paths config))
             = Some (replicate (length (table_vocabulary table)) 0%Z))
  /\ (content = [] -> forall row, (idx, row) ∉ sorted_rows world_size fs config).
Proof.
  intros HW Hidx Hcontent Hblank.
  assert (count_tokens (tokenize_document content) = []) as Hcount
    by (by rewrite tokenize_separators).
  split; [done|]. split.
  - intros Hne.
    assert (document_entry fs (document_paths config) idx = [(idx, [])]) as Hentry.
    { unfold document_entry. rewrite Hcontent. destruct content; [done|].
      by rewrite Hcount. }
    pose proof (all_entries_split fs config idx Hidx) as Hsplit.
    rewrite Hentry in Hsplit. cbn [app] in Hsplit. split.
    + rewrite sorted_rows_entries, global_vocabulary_set by done.
      apply list_elem_of_fmap. exists (idx, []). split.
      * unfold tag_row. simpl. by rewrite row_of_nil.
      * rewrite Hsplit. apply elem_of_app. right. by left.
    + rewrite run_parallel_written_root, run_serial_written by done.
      unfold corpus_table. destruct (all_entries fs config) as [|e es] eqn:Eall.
      { by destruct (seq 0 idx ≫= document_entry fs (document_paths config)). }
      rewrite <- Eall in Hsplit |- *. clear Eall.
      eexists. split; [done|]. split; [done|]. simpl.
      change (map ?f ?l) with (f <$> l). rewrite !list_lookup_fmap.
      rewrite Hsplit at 1 3. rewrite !list_lookup_middle by done. simpl.
      split; [done|]. by rewrite row_of_nil.
  - intros -> row Hin. by apply sorted_rows_elem_of in Hin.
Qed.

Lemma C6_blank_document_row_witness :
  (0, [0; 0; 0]%Z) ∈ sorted_rows 2 blank_doc_fs cat_dog_config.
Proof.
  assert (Forall (fun b => term_forming b = false) (str " .-, ")) as Hblank
    by (by repeat constructor).
  destruct (C6_blank_document_row 2 blank_doc_fs cat_dog_config 0 (str " .-, ")
              (le_S 1 1 (le_n 1)) (le_S 1 1 (le_n 1)) eq_refl Hblank)
    as (_ & Hrow & _).
  apply Hrow. discriminate.
Defined.

(** *** Adding a document *)

Lemma sorted_filter {A} (R : relation A) (P : A -> Prop) `{!forall x, Decision (P x)} l :
  StronglySorted R l -> StronglySorted R (filter P l).
Proof.
  induction 1 as [|x l Hl IH Hx]; [constructor|].
  rewrite filter_cons. destruct (decide (P x)); [|done].
  constructor; [done|]. apply Forall_forall. intros y Hy.
  apply list_elem_of_filter in Hy as [_ Hy]. rewrite Forall_forall in Hx. by apply Hx.
Qed.

Lemma map_find_elem_of {V} k (v : V) (m : StdMap.t V) :
  StdMap.find k m = Some v -> (k, v) ∈ m.
Proof.
  induction m as [|[x u] m IH]; simpl; [done|].
  destruct (string_compare k x) eqn:E; [|done|].
  - apply string_compare_eq in E. subst. intros [= ->]. by left.
  - intros H. right. by apply IH.
Qed.

Lemma row_of_lookup voc m j w :
  voc !! j = Some w ->
  row_of voc m !! j = Some (match StdMap.find w m with Some c => c | None => 0%Z end).
Proof.
  intros Hw. unfold row_of. change (map ?f voc) with (f <$> voc).
  by rewrite list_lookup_fmap, Hw.
Qed.

Lemma vocab_of_insert_elem_of pre d post w :
  w ∈ vocab_of (pre ++ d :: post) <-> w ∈ vocab_of (pre ++ post) \/ w ∈ d.*1.
Proof.
  rewrite !vocab_of_elem_of. split.
  - intros (m & Hm & Hw). apply elem_of_app in Hm as [Hm|Hm].
    + left. exists m. split; [|done]. apply elem_of_app. by left.
    + apply elem_of_cons in Hm as [->|Hm]; [by right|].
      left. exists m. split; [|done]. apply elem_of_app. by right.
  - intros [(m & Hm & Hw)|Hw].
    + exists m. split; [|done]. apply elem_of_app in Hm as [Hm|Hm].
      * apply elem_of_app. by left.
      * apply elem_of_app. right. by right.
    + exists d. split; [|done]. apply elem_of_app. right. by left.
Qed.

(** C8, as stated, does not hold: the new columns are not appended.  With
    the corpus ["b"], adding the document "a" turns the row [1] of the first
    document into [0, 1]: the new column comes first. *)
Lemma C8_append_refuted :
  let m := count_tokens [str "b"] in
  let d := count_tokens [str "a"] in
  build_matrix [m] (build_vocabulary [m]) = [[1%Z]]
  /\ build_matrix [m; d] (build_vocabulary [m; d]) = [[0; 1]; [1; 0]]%Z
  /\ ~ appended_with_zeros [1%Z] [0; 1]%Z.
Proof.
  split; [reflexivity|]. split; [reflexivity|].
  intros [k Hk]. simpl in Hk. discriminate.
Qed.

(** C8 (amended). Adding one document to a corpus, at any position, makes
    the vocabulary grow by exactly the number of distinct terms of the
    document that were not in it, strictly when there is one.  The old
    vocabulary is the new one with the new terms removed, in the same order.
    For every other document, the value in the column of an old term is
    unchanged and the value in the column of a new term is zero; the new
    columns stand at the lexicographic positions of the new terms. *)
Theorem C8_add_document (pre post : list TermCount) (d : TermCount) :
  let V := build_vocabulary (pre ++ post) in
  let V' := build_vocabulary (pre ++ d :: post) in
  length V' = length V + length (new_terms V d)
  /\ (new_terms V d <> [] -> length V < length V')
  /\ filter (fun w => w ∈ V) V' = V
  /\ StronglySorted string_lt V'
  /\ build_matrix (pre ++ post) V = map (row_of V) pre ++ map (row_of V) post
  /\ build_matrix (pre ++ d :: post) V'
     = map (row_of V') pre ++ row_of V' d :: map (row_of V') post
  /\ Forall (fun m =>
               (forall i j w, V !! i = Some w -> V' !! j = Some w ->
                              row_of V' m !! j = row_of V m !! i)
               /\ (forall j w, V' !! j = Some w -> w ∉ V ->
                               row_of V' m !! j = Some 0%Z))
            (pre ++ post).
Proof.
  intros V V'. subst V V'. rewrite !build_vocabulary_vocab_of.
  set (V := vocab_of (pre ++ post)). set (V' := vocab_of (pre ++ d :: post)).
  assert (forall w, w ∈ V' <-> w ∈ V \/ w ∈ d.*1) as Hmem
    by (intros w; apply vocab_of_insert_elem_of).
  assert (length V' = length V + length (new_terms V d)) as Hlen.
  { rewrite <- length_app. apply Permutation_length, NoDup_Permutation.
    - apply sorted_NoDup, vocab_of_sorted.
    - apply NoDup_app. split; [apply sorted_NoDup, vocab_of_sorted|].
      split; [|apply NoDup_remove_dups].
      intros w Hw Hn. unfold new_terms in Hn.
      apply elem_of_remove_dups, list_elem_of_filter in Hn as [Hn _]. done.
    - intros w. rewrite Hmem, elem_of_app. unfold new_terms.
      rewrite elem_of_remove_dups, list_elem_of_filter.
      destruct (decide (w ∈ V)); tauto. }
  split; [done|]. split; [intros Hne; destruct (new_terms V d); [done|simpl in Hlen; lia]|].
  split.
  { apply sorted_ext; [apply sorted_filter, vocab_of_sorted|apply vocab_of_sorted|].
    intros w. rewrite list_elem_of_filter, Hmem. tauto. }
  split; [apply vocab_of_sorted|].
  split; [by rewrite build_matrix_row_of, map_app|].
  split; [by rewrite build_matrix_row_of, map_app|].
  apply Forall_forall. intros m Hm. split.
  - intros i j w Hi Hj. by rewrite (row_of_lookup V' m j w), (row_of_lookup V m i w).
  - intros j w Hj Hnew. rewrite (row_of_lookup V' m j w) by done.
    destruct (StdMap.find w m) as [c|] eqn:E; [|done].
    apply map_find_elem_of in E. destruct Hnew.
    apply vocab_of_elem_of. exists m. split; [done|].
    apply list_elem_of_fmap. by exists (w, c).
Qed.

Lemma C8_add_document_witness :
  let m := count_tokens [str "b"] in
  let d := count_tokens [str "a"; str "b"; str "c"] in
  new_terms (build_vocabulary [m]) d <> []
  /\ length (build_vocabulary [m]) < length (build_vocabulary [m; d]).
Proof.
  intros m d.
  assert (new_terms (build_vocabulary [m]) d <> []) as Hne by (vm_compute; discriminate).
  split; [exact Hne|].
  destruct (C8_add_document [m] [] d) as (_ & Hlt & _). exact (Hlt Hne).
Defined.

(** * Further properties of the code *)

(** *** Tokenizer: separators, case, normal form *)

Lemma cons_nonempty_app_r run later more :
  cons_nonempty run (later ++ more) = cons_nonempty run later ++ more.
Proof. by destruct run. Qed.

Lemma spec_runs_from_separator a sep b :
  term_forming sep = false ->
  spec_runs_from (a ++ sep :: b)
  = ((spec_runs_from a).1, (spec_runs_from a).2 ++ spec_maximal_runs b).
Proof.
  intros Hsep. induction a as [|c a IH]; simpl.
  - rewrite Hsep. unfold spec_maximal_runs. by destruct (spec_runs_from b).
  - rewrite IH. destruct (spec_runs_from a) as [run later]; simpl.
    destruct (term_forming c); [done|]. by rewrite cons_nonempty_app_r.
Qed.

Lemma spec_maximal_runs_separator a sep b :
  term_forming sep = false ->
  spec_maximal_runs (a ++ sep :: b) = spec_maximal_runs a ++ spec_maximal_runs b.
Proof.
  intros Hsep. unfold spec_maximal_runs at 1 2.
  rewrite spec_runs_from_separator by done.
  destruct (spec_runs_from a) as [run later]; simpl. apply cons_nonempty_app_r.
Qed.

(** X1. A byte that is not term-forming cuts the input in two parts that are
    tokenized independently. *)
Theorem X1_tokenize_separator (a b : std_string) (sep : ascii) :
  term_forming sep = false ->
  tokenize_document (a ++ sep :: b) = tokenize_document a ++ tokenize_document b.
Proof.
  intros Hsep. rewrite !tokenize_document_runs, spec_maximal_runs_separator by done.
  apply map_app.
Qed.

Lemma X1_tokenize_separator_witness :
  tokenize_document (str "the cat" ++ ","%char :: str "sat")
  = tokenize_document (str "the cat") ++ tokenize_document (str "sat").
Proof. apply X1_tokenize_separator. reflexivity. Defined.

Lemma tolower_idempotent b : tolower (tolower b) = tolower b.
Proof. ascii_cases b. Qed.

Lemma lowercase_idempotent s : lowercase (lowercase s) = lowercase s.
Proof.
  unfold lowercase. rewrite map_map. apply map_ext. intros b. apply tolower_idempotent.
Qed.

Lemma spec_runs_from_lowercase content :
  spec_runs_from (lowercase content)
  = (lowercase (spec_runs_from content).1, map lowercase (spec_runs_from content).2).
Proof.
  induction content as [|b content IH]; [done|]. simpl. rewrite IH.
  rewrite term_forming_tolower.
  destruct (spec_runs_from content) as [run later]; simpl.
  destruct (term_forming b); [done|]. by rewrite cons_nonempty_lowercase.
Qed.

Lemma spec_maximal_runs_lowercase content :
  spec_maximal_runs (lowercase content) = map lowercase (spec_maximal_runs content).
Proof.
  unfold spec_maximal_runs. rewrite spec_runs_from_lowercase.
  destruct (spec_runs_from content) as [run later]; simpl.
  apply cons_nonempty_lowercase.
Qed.

Lemma tokenize_lowercase content :
  tokenize_document (lowercase content) = tokenize_document content.
Proof.
  rewrite !tokenize_document_runs, spec_maximal_runs_lowercase, map_map.
  apply map_ext. intros run. apply lowercase_idempotent.
Qed.

Lemma spec_maximal_runs_single run :
  run <> [] -> Forall (fun b => term_forming b = true) run -> spec_maximal_runs run = [run].
Proof.
  intros Hne Hterm. unfold spec_maximal_runs.
  rewrite <- (app_nil_r run) at 1. rewrite spec_runs_from_run by done. simpl.
  rewrite app_nil_r. by destruct run.
Qed.

(** X2. The tokenizer ignores the case of ASCII letters: lowercasing the
    input first changes nothing. *)
Theorem X2_tokenize_ignores_case (content : std_string) :
  tokenize_document (lowercase content) = tokenize_document content.
Proof. apply tokenize_lowercase. Qed.

(** X3. Tokens are in normal form: a token of any input, given back to the
    tokenizer, is returned as the single token it is. *)
Theorem X3_token_fixed_point (content token : std_string) :
  token ∈ tokenize_document content -> tokenize_document token = [token].
Proof.
  rewrite tokenize_document_runs. intros (run & -> & Hrun)%list_elem_of_fmap.
  pose proof (spec_maximal_runs_term content) as Hall.
  rewrite Forall_forall in Hall. destruct (Hall run Hrun) as [Hne Hterm].
  rewrite tokenize_lowercase, tokenize_document_runs.
  by rewrite spec_maximal_runs_single.
Qed.

Lemma X3_token_fixed_point_witness :
  tokenize_document (str "cat") = [str "cat"].
Proof.
  apply (X3_token_fixed_point (str "The CAT sat")). vm_compute.
  apply list_elem_of_further, list_elem_of_here.
Defined.

(** *** Counter: occurrences, totals, order of the tokens *)

Lemma count_in_increment k m w :
  count_in (StdMap.increment k m) w
  = (count_in m w + (if decide (k = w) then 1 else 0))%Z.
Proof.
  unfold count_in. induction m as [|[x c] m IH]; simpl.
  - destruct (decide (k = w)) as [->|Hne].
    + by rewrite string_compare_refl.
    + destruct (string_compare w k) eqn:E; try done.
      apply string_compare_eq in E. congruence.
  - destruct (string_compare k x) eqn:Ekx; simpl.
    + apply string_compare_eq in Ekx. subst x.
      destruct (decide (k = w)) as [->|Hne].
      * by rewrite string_compare_refl.
      * destruct (string_compare w k) eqn:E; try (simpl; lia).
        apply string_compare_eq in E. congruence.
    + destruct (decide (k = w)) as [->|Hne].
      * by rewrite string_compare_refl, Ekx.
      * destruct (string_compare w k) eqn:E.
        -- apply string_compare_eq in E. congruence.
        -- assert (string_compare w x = Lt) as ->
             by (by apply (string_lt_trans w k x)).
           done.
        -- destruct (string_compare w x); lia.
    + destruct (string_compare w x) eqn:Ewx; simpl.
      * apply string_compare_eq in Ewx. subst x.
        destruct (decide (k = w)) as [->|Hne]; [|lia].
        by rewrite string_compare_refl in Ekx.
      * destruct (decide (k = w)) as [->|Hne]; [congruence|lia].
      * apply IH.
Qed.

Lemma occurrences_cons w t tokens :
  occurrences w (t :: tokens)
  = (occurrences w tokens + (if decide (t = w) then 1 else 0))%Z.
Proof.
  unfold occurrences. rewrite filter_cons.
  destruct (decide (t = w)); simpl; lia.
Qed.

Lemma count_in_fold tokens w : forall m,
  count_in (fold_left (fun word_counts token => StdMap.increment token word_counts)
                      tokens m) w
  = (count_in m w + occurrences w tokens)%Z.
Proof.
  induction tokens as [|t tokens IH]; intros m; simpl.
  - unfold occurrences. simpl. lia.
  - rewrite IH, count_in_increment, occurrences_cons. lia.
Qed.

Lemma count_in_count_tokens tokens w :
  count_in (count_tokens tokens) w = occurrences w tokens.
Proof. unfold count_tokens. by rewrite count_in_fold. Qed.

Lemma occurrences_pos w tokens : w ∈ tokens <-> (0 < occurrences w tokens)%Z.
Proof.
  unfold occurrences. split.
  - intros Hin. assert (w ∈ filter (fun token => token = w) tokens) as Hf
      by (by apply list_elem_of_filter).
    destruct (filter (fun token => token = w) tokens); [by apply elem_of_nil in Hf|].
    simpl. lia.
  - intros Hpos. destruct (filter (fun token => token = w) tokens) as [|t l] eqn:E;
      [simpl in Hpos; lia|].
    assert (t ∈ filter (fun token => token = w) tokens) as Hf by (rewrite E; by left).
    by apply list_elem_of_filter in Hf as [-> Hf].
Qed.

(** X4. The count stored for a word is the number of its occurrences in the
    token sequence; a word that does not occur has no entry, and no entry
    holds a count below 1. *)
Theorem X4_count_tokens_occurrences (tokens : list std_string) (w : std_string) :
  StdMap.find w (count_tokens tokens)
  = (if decide (w ∈ tokens) then Some (occurrences w tokens) else None)
  /\ (forall c, StdMap.find w (count_tokens tokens) = Some c -> (1 <= c)%Z).
Proof.
  assert (StdMap.find w (count_tokens tokens)
          = if decide (w ∈ tokens) then Some (occurrences w tokens) else None) as H.
  { pose proof (count_in_count_tokens tokens w) as Hc. unfold count_in in Hc.
    destruct (decide (w ∈ tokens)) as [Hin|Hnot].
    - destruct (StdMap.find w (count_tokens tokens)) as [c|] eqn:E; [by subst|].
      apply (map_find_None _ _ (count_tokens_sorted tokens)) in E.
      by rewrite count_tokens_elem_of in E.
    - apply (map_find_None _ _ (count_tokens_sorted tokens)).
      by rewrite count_tokens_elem_of. }
  split; [done|]. intros c. rewrite H.
  destruct (decide (w ∈ tokens)) as [Hin|]; [|done].
  intros [= <-]. apply occurrences_pos in Hin. lia.
Qed.

Lemma X4_count_tokens_occurrences_witness :
  StdMap.find (str "cat") (count_tokens [str "cat"; str "dog"; str "cat"]) = Some 2%Z
  /\ (1 <= 2)%Z.
Proof.
  split; [reflexivity|].
  apply (proj2 (X4_count_tokens_occurrences [str "cat"; str "dog"; str "cat"] (str "cat"))).
  reflexivity.
Defined.

Lemma sum_Z_cons c l : sum_Z (c :: l) = (c + sum_Z l)%Z.
Proof. done. Qed.

Lemma sum_values_increment k m :
  sum_Z (StdMap.increment k m).*2 = (sum_Z (m.*2) + 1)%Z.
Proof.
  induction m as [|[x c] m IH]; cbn [StdMap.increment].
  - rewrite !fmap_cons, !sum_Z_cons. simpl. lia.
  - destruct (string_compare k x);
      rewrite ?fmap_cons, ?sum_Z_cons, ?IH; cbn [snd]; lia.
Qed.

Lemma sum_values_fold tokens : forall m,
  sum_Z (fold_left (fun word_counts token => StdMap.increment token word_counts)
                   tokens m).*2
  = (sum_Z (m.*2) + Z.of_nat (length tokens))%Z.
Proof.
  induction tokens as [|t tokens IH]; intros m; simpl; [lia|].
  rewrite IH, sum_values_increment. lia.
Qed.

(** X5. The counts of a document add up to the number of its tokens, and
    the entries are kept in strictly increasing order of their words, one
    entry per distinct token. *)
Theorem X5_count_tokens_total (tokens : list std_string) :
  sum_Z (count_tokens tokens).*2 = Z.of_nat (length tokens)
  /\ StronglySorted string_lt (count_tokens tokens).*1
  /\ (count_tokens tokens).*1 ≡ₚ remove_dups tokens.
Proof.
  split; [|split].
  - unfold count_tokens. rewrite sum_values_fold. simpl. lia.
  - apply count_tokens_sorted.
  - apply NoDup_Permutation.
    + apply sorted_NoDup, count_tokens_sorted.
    + apply NoDup_remove_dups.
    + intros w. by rewrite count_tokens_elem_of, elem_of_remove_dups.
Qed.

(** Two term counts with the same lookups are the same map. *)
Lemma sorted_map_ext (m1 : TermCount) : forall m2 : TermCount,
  StronglySorted string_lt (m1.*1) -> StronglySorted string_lt (m2.*1) ->
  (forall w, StdMap.find w m1 = StdMap.find w m2) -> m1 = m2.
Proof.
  induction m1 as [|[k1 v1] m1 IH]; intros [|[k2 v2] m2] Hs1 Hs2 H.
  - done.
  - specialize (H k2). simpl in H. by rewrite string_compare_refl in H.
  - specialize (H k1). simpl in H. by rewrite string_compare_refl in H.
  - apply StronglySorted_inv in Hs1 as [Hs1 Hk1].
    apply StronglySorted_inv in Hs2 as [Hs2 Hk2].
    destruct (string_compare k1 k2) eqn:E.
    + apply string_compare_eq in E. subst k2.
      pose proof (H k1) as Hk. simpl in Hk. rewrite string_compare_refl in Hk.
      injection Hk as ->. f_equal. apply IH; [done..|].
      intros w. specialize (H w). simpl in H.
      destruct (string_compare w k1) eqn:Ew; [| |done].
      * apply string_compare_eq in Ew. subst w.
        assert (forall m : TermCount, Forall (string_lt k1) (m.*1) -> StdMap.find k1 m = None)
          as Hnone.
        { intros m Hm. destruct (StdMap.find k1 m) as [c|] eqn:Ef; [|done].
          apply map_find_elem_of in Ef. rewrite Forall_forall in Hm.
          destruct (string_lt_irrefl k1). apply Hm, list_elem_of_fmap.
          by exists (k1, c). }
        by rewrite !Hnone.
      * assert (forall m : TermCount, Forall (string_lt k1) (m.*1) -> StdMap.find w m = None)
          as Hnone.
        { intros m Hm. destruct (StdMap.find w m) as [c|] eqn:Ef; [|done].
          apply map_find_elem_of in Ef. rewrite Forall_forall in Hm.
          destruct (string_lt_irrefl w). apply (string_lt_trans w k1 w); [done|].
          apply Hm, list_elem_of_fmap. by exists (w, c). }
        by rewrite !Hnone.
    + specialize (H k1). simpl in H. by rewrite string_compare_refl, E in H.
    + specialize (H k2). simpl in H.
      rewrite string_compare_refl, string_compare_antisym, E in H. done.
Qed.

Lemma find_count_tokens tokens w :
  StdMap.find w (count_tokens tokens)
  = if decide (w ∈ tokens) then Some (occurrences w tokens) else None.
Proof.
  pose proof (count_in_count_tokens tokens w) as Hc. unfold count_in in Hc.
  destruct (decide (w ∈ tokens)) as [Hin|Hnot].
  - destruct (StdMap.find w (count_tokens tokens)) as [c|] eqn:E; [by subst|].
    apply (map_find_None _ _ (count_tokens_sorted tokens)) in E.
    by rewrite count_tokens_elem_of in E.
  - apply (map_find_None _ _ (count_tokens_sorted tokens)).
    by rewrite count_tokens_elem_of.
Qed.

(** X6. The term count of a document depends on its tokens only up to their
    order. *)
Theorem X6_count_tokens_permutation (tokens tokens' : list std_string) :
  tokens ≡ₚ tokens' -> count_tokens tokens = count_tokens tokens'.
Proof.
  intros Hperm. apply sorted_map_ext; [apply count_tokens_sorted..|].
  intros w. rewrite !find_count_tokens.
  assert (occurrences w tokens = occurrences w tokens') as ->.
  { unfold occurrences. by rewrite Hperm. }
  destruct (decide (w ∈ tokens)) as [Hin|Hnot];
    destruct (decide (w ∈ tokens')) as [Hin'|Hnot']; try done.
  - destruct Hnot'. by rewrite <- Hperm.
  - destruct Hnot. by rewrite Hperm.
Qed.

Lemma X6_count_tokens_permutation_witness :
  count_tokens [str "cat"; str "the"; str "cat"]
  = count_tokens [str "the"; str "cat"; str "cat"].
Proof.
  apply X6_count_tokens_permutation. apply perm_swap.
Defined.

(** *** Splitting at newlines *)

Lemma split_scan_ok data : forall parts current,
  Forall word_ok parts -> newline ∉ current ->
  Forall word_ok (fold_left split_step data (parts, current)).1
  /\ newline ∉ (fold_left split_step data (parts, current)).2.
Proof.
  induction data as [|c data IH]; intros parts current Hparts Hcur; simpl; [done|].
  destruct (Ascii.eqb_spec c newline) as [->|Hc].
  - destruct current as [|x current]; [by apply IH|].
    apply IH; [|by intros ?%elem_of_nil].
    apply Forall_app. split; [done|]. by repeat constructor.
  - apply IH; [done|]. rewrite elem_of_app, list_elem_of_singleton.
    intros [?|?]; [done|congruence].
Qed.

Lemma split_by_newline_finish data :
  split_by_newline data = scan_finish (fold_left split_step data ([], [])).
Proof.
  unfold split_by_newline, scan_finish.
  by destruct (fold_left split_step data ([], [])) as [parts [|c cur]].
Qed.

Lemma split_by_newline_ok data : Forall word_ok (split_by_newline data).
Proof.
  rewrite split_by_newline_finish. unfold scan_finish.
  destruct (split_scan_ok data [] []) as [Hp Hc]; [done|by intros ?%elem_of_nil|].
  destruct (fold_left split_step data ([], [])) as [parts [|x cur]]; simpl in *; [done|].
  apply Forall_app. split; [done|]. by repeat constructor.
Qed.

(** X7. Whatever the data, the parts returned by [split_by_newline] are
    non-empty and hold no newline, and they are a normal form: splitting the
    parts written back one per line gives the same parts. *)
Theorem X7_split_parts (data : std_string) :
  Forall (fun part => part <> [] /\ (newline ∉ part)) (split_by_newline data)
  /\ split_by_newline
       (concat (map (fun part => part ++ [newline]) (split_by_newline data)))
     = split_by_newline data.
Proof.
  split; [apply split_by_newline_ok|].
  unfold split_by_newline at 1.
  by rewrite (split_scan_words _ [] (split_by_newline_ok data)).
Qed.

Lemma split_scan_prefix data : forall pre parts current,
  fold_left split_step data (pre ++ parts, current)
  = (pre ++ (fold_left split_step data (parts, current)).1,
     (fold_left split_step data (parts, current)).2).
Proof.
  induction data as [|c data IH]; intros pre parts current; simpl; [done|].
  destruct (Ascii.eqb c newline); [|apply IH].
  destruct current; [apply IH|]. rewrite <- app_assoc. apply IH.
Qed.

Lemma split_by_newline_app a b :
  split_by_newline (a ++ newline :: b) = split_by_newline a ++ split_by_newline b.
Proof.
  rewrite !split_by_newline_finish, fold_left_app. simpl.
  destruct (fold_left split_step a ([], [])) as [parts [|c cur]] eqn:E; simpl.
  - rewrite <- (app_nil_r parts) at 1. rewrite split_scan_prefix.
    unfold scan_finish. simpl.
    destruct (fold_left split_step b ([], [])) as [p [|x l]]; simpl; [done|].
    by rewrite app_assoc.
  - rewrite <- (app_nil_r (parts ++ [c :: cur])) at 1. rewrite split_scan_prefix.
    unfold scan_finish. simpl.
    destruct (fold_left split_step b ([], [])) as [p [|x l]]; simpl; [done|].
    by rewrite app_assoc.
Qed.

(** X8. A newline cuts the data in two parts that are split independently;
    so the listings of several workers laid end to end split into the
    listings one after the other. *)
Theorem X8_split_at_newline (a b : std_string) :
  split_by_newline (a ++ newline :: b) = split_by_newline a ++ split_by_newline b.
Proof. apply split_by_newline_app. Qed.

(** *** Vocabulary of the baseline *)

(** X9. [build_vocabulary] returns the strictly increasing sequence of the
    words that are a key of some document; it does not depend on the order
    of the documents nor on a document being there twice. *)
Theorem X9_build_vocabulary_order (docs docs' : list TermCount) :
  StronglySorted string_lt (build_vocabulary docs)
  /\ (forall w, w ∈ build_vocabulary docs <-> exists m, m ∈ docs /\ w ∈ m.*1)
  /\ (docs ≡ₚ docs' -> build_vocabulary docs = build_vocabulary docs')
  /\ build_vocabulary (docs ++ docs) = build_vocabulary docs.
Proof.
  rewrite !build_vocabulary_vocab_of.
  split; [apply vocab_of_sorted|]. split; [apply vocab_of_elem_of|]. split.
  - intros Hperm. apply sorted_ext; [apply vocab_of_sorted..|].
    intros w. rewrite !vocab_of_elem_of. split; intros (m & Hm & Hw); exists m.
    + by rewrite <- Hperm.
    + by rewrite Hperm.
  - apply sorted_ext; [apply vocab_of_sorted..|].
    intros w. rewrite !vocab_of_elem_of. split; intros (m & Hm & Hw); exists m.
    + apply elem_of_app in Hm. split; [tauto|done].
    + split; [|done]. apply elem_of_app. by left.
Qed.

Lemma X9_build_vocabulary_order_witness :
  build_vocabulary [count_tokens [str "b"]; count_tokens [str "a"]]
  = build_vocabulary [count_tokens [str "a"]; count_tokens [str "b"]].
Proof.
  destruct (X9_build_vocabulary_order
              [count_tokens [str "b"]; count_tokens [str "a"]]
              [count_tokens [str "a"]; count_tokens [str "b"]]) as (_ & _ & H & _).
  apply H, perm_swap.
Defined.

(** *** The table that is written *)

Lemma entries_processed fs config l :
  l ≫= document_entry fs (document_paths config)
  = map (fun idx => (idx, count_tokens (tokens_of fs config idx)))
        (filter (fun idx => content_of fs config idx <> []) l).
Proof.
  induction l as [|idx l IH]; [done|].
  rewrite bind_cons, filter_cons, IH. unfold document_entry at 1.
  change (read_file fs (document_paths config !!! idx)).2
    with (content_of fs config idx).
  destruct (decide (content_of fs config idx <> [])) as [Hne|He];
    destruct (content_of fs config idx) as [|c content] eqn:E; try done.
  - simpl. do 3 f_equal. unfold tokens_of. by rewrite E.
  - by destruct He.
Qed.

Lemma all_entries_processed fs config :
  all_entries fs config
  = map (fun idx => (idx, count_tokens (tokens_of fs config idx)))
        (processed_indices fs config).
Proof. apply entries_processed. Qed.

Lemma row_of_count_tokens voc tokens :
  row_of voc (count_tokens tokens) = map (fun w => occurrences w tokens) voc.
Proof.
  unfold row_of. apply map_ext. intros w.
  apply (count_in_count_tokens tokens w).
Qed.

Lemma processed_indices_elem_of fs config idx :
  idx ∈ processed_indices fs config
  <-> idx < length (document_paths config) /\ content_of fs config idx <> [].
Proof.
  unfold processed_indices. rewrite list_elem_of_filter, elem_of_seq.
  split; intros [? ?]; split; (done || lia).
Qed.

(** The vocabulary of a corpus: the terms of the processed documents. *)
Lemma corpus_vocabulary_elem_of fs config w :
  w ∈ vocab_of (all_entries fs config).*2
  <-> exists idx, idx ∈ processed_indices fs config /\ w ∈ tokens_of fs config idx.
Proof.
  rewrite vocab_of_elem_of, all_entries_processed. split.
  - intros (m & (e & -> & He)%list_elem_of_fmap & Hw).
    apply list_elem_of_fmap in He as (idx & -> & Hidx). simpl in Hw.
    rewrite count_tokens_elem_of in Hw. by exists idx.
  - intros (idx & Hidx & Hw).
    exists (count_tokens (tokens_of fs config idx)). split.
    + apply list_elem_of_fmap. eexists (idx, _). split; [done|].
      apply list_elem_of_fmap. by exists idx.
    + by rewrite count_tokens_elem_of.
Qed.

(** What both runs write, in terms of the documents, their tokens and the
    number of occurrences. *)
Lemma corpus_table_processed fs config :
  corpus_table fs config
  = match processed_indices fs config with
    | [] => []
    | _ :: _ =>
        let vocabulary := vocab_of (all_entries fs config).*2 in
        [{| table_vocabulary := vocabulary;
            table_doc_names :=
              map (fun idx => filename (document_paths config !!! idx))
                  (processed_indices fs config);
            table_matrix :=
              map (fun idx => map (fun w => occurrences w (tokens_of fs config idx))
                                  vocabulary)
                  (processed_indices fs config) |}]
    end.
Proof.
  unfold corpus_table.
  set (V := vocab_of (all_entries fs config).*2).
  destruct (processed_indices fs config) as [|idx l] eqn:EP.
  { by rewrite all_entries_processed, EP. }
  destruct (all_entries fs config) as [|e es] eqn:Eall.
  { by rewrite all_entries_processed, EP in Eall. }
  rewrite <- Eall, <- EP. simpl. do 2 f_equal.
  - rewrite all_entries_processed. by rewrite map_map.
  - rewrite all_entries_processed.
    change (map ?f ?l) with (f <$> l). rewrite <- !list_fmap_compose.
    apply list_fmap_ext. intros i x _. simpl. apply row_of_count_tokens.
Qed.

Lemma both_written_corpus_table world_size fs config tables :
  1 <= world_size ->
  tables ∈ both_written world_size fs config -> tables = corpus_table fs config.
Proof.
  intros HW. unfold both_written.
  rewrite run_serial_written, run_parallel_written_root by done.
  rewrite !elem_of_cons, elem_of_nil. tauto.
Qed.

Lemma corpus_table_elem_of fs config table :
  table ∈ corpus_table fs config ->
  processed_indices fs config <> []
  /\ table_vocabulary table = vocab_of (all_entries fs config).*2
  /\ table_doc_names table
     = map (fun idx => filename (document_paths config !!! idx))
           (processed_indices fs config)
  /\ table_matrix table
     = map (fun idx => map (fun w => occurrences w (tokens_of fs config idx))
                           (table_vocabulary table))
           (processed_indices fs config).
Proof.
  rewrite corpus_table_processed.
  destruct (processed_indices fs config) as [|idx l]; [by intros ?%elem_of_nil|].
  intros ->%list_elem_of_singleton. done.
Qed.

Lemma occurrences_nonneg w tokens : (0 <= occurrences w tokens)%Z.
Proof. unfold occurrences. lia. Qed.

(** X10. Both runs write at most one table.  There is none when no document
    has content; otherwise it has one name and one row per document with
    content, in input order, every row is as long as the vocabulary and
    holds no negative value, and the vocabulary is strictly increasing. *)
Theorem X10_table_shape
        (world_size : nat) (fs : storage) (config : ExperimentConfig)
        (tables : list table) :
  1 <= world_size ->
  tables ∈ both_written world_size fs config ->
  (processed_indices fs config = [] -> tables = [])
  /\ (processed_indices fs config <> [] ->
      exists table,
        tables = [table]
        /\ table_doc_names table
           = map (fun idx => filename (document_paths config !!! idx))
                 (processed_indices fs config)
        /\ length (table_matrix table) = length (processed_indices fs config)
        /\ Forall (fun row => length row = length (table_vocabulary table)
                              /\ Forall (fun c => (0 <= c)%Z) row)
                  (table_matrix table)
        /\ StronglySorted string_lt (table_vocabulary table)).
Proof.
  intros HW Htables. apply both_written_corpus_table in Htables; [|done]. subst tables.
  split.
  - intros Hnil. rewrite corpus_table_processed. by rewrite Hnil.
  - intros Hne.
    assert (exists table, corpus_table fs config = [table]) as [table Htable].
    { rewrite corpus_table_processed.
      destruct (processed_indices fs config); [done|]. by eexists. }
    exists table. split; [done|].
    assert (table ∈ corpus_table fs config) as Hin by (rewrite Htable; by left).
    apply corpus_table_elem_of in Hin as (_ & Hv & Hn & Hm).
    split; [done|]. split; [by rewrite Hm, length_map|]. split.
    + rewrite Hm. apply Forall_forall. intros row Hrow.
      apply list_elem_of_fmap in Hrow as (idx & -> & _).
      split; [apply length_map|]. apply Forall_forall. intros c Hc.
      apply list_elem_of_fmap in Hc as (w & -> & _). apply occurrences_nonneg.
    + rewrite Hv. apply vocab_of_sorted.
Qed.

Lemma X10_table_shape_witness :
  exists table,
    written (run_serial cat_dog_fs cat_dog_config) = [table]
    /\ length (table_matrix table) = 2.
Proof.
  destruct (X10_table_shape 2 cat_dog_fs cat_dog_config
                            (written (run_serial cat_dog_fs cat_dog_config)))
    as [_ H]; [lia|by left|].
  destruct H as (table & Ht & _ & Hlen & _); [vm_compute; discriminate|].
  exists table. split; [exact Ht|exact Hlen].
Defined.

(** X11. Every cell of the written matrix is the number of occurrences of
    the term of its column among the tokens of the document of its row. *)
Theorem X11_table_cells
        (world_size : nat) (fs : storage) (config : ExperimentConfig)
        (tables : list table) (table : table) (i idx j : nat) (w : std_string) :
  1 <= world_size ->
  tables ∈ both_written world_size fs config ->
  table ∈ tables ->
  processed_indices fs config !! i = Some idx ->
  table_vocabulary table !! j = Some w ->
  exists row,
    table_matrix table !! i = Some row
    /\ row !! j = Some (occurrences w (tokens_of fs config idx)).
Proof.
  intros HW Htables Htable Hi Hj.
  apply both_written_corpus_table in Htables; [|done]. subst tables.
  apply corpus_table_elem_of in Htable as (_ & _ & _ & Hm).
  eexists. split.
  - rewrite Hm. change (map ?f ?l) with (f <$> l). by rewrite list_lookup_fmap, Hi.
  - change (map ?f ?l) with (f <$> l). by rewrite list_lookup_fmap, Hj.
Qed.

Lemma X11_table_cells_witness :
  exists row,
    table_matrix cat_dog_table !! 1 = Some row
    /\ row !! 1 = Some (occurrences (str "dog") (tokens_of cat_dog_fs cat_dog_config 1)).
Proof.
  apply (X11_table_cells 2 cat_dog_fs cat_dog_config
           (written (run_parallel 2 cat_dog_fs cat_dog_config 0)) cat_dog_table
           1 1 1 (str "dog")).
  - lia.
  - apply list_elem_of_further, list_elem_of_here.
  - vm_compute. apply list_elem_of_here.
  - reflexivity.
  - reflexivity.
Defined.

Lemma sum_Z_map_add {A} (f g : A -> Z) l :
  sum_Z (map (fun x => (f x + g x)%Z) l) = (sum_Z (map f l) + sum_Z (map g l))%Z.
Proof.
  induction l as [|x l IH]; [done|]. cbn [map]. rewrite !sum_Z_cons, IH. lia.
Qed.

Lemma sum_indicator (V : list std_string) (t : std_string) :
  NoDup V -> t ∈ V ->
  sum_Z (map (fun w => if decide (t = w) then 1%Z else 0%Z) V) = 1%Z.
Proof.
  induction 1 as [|x V Hx Hnd IH]; [by intros ?%elem_of_nil|].
  intros Hin. cbn [map]. rewrite sum_Z_cons.
  destruct (decide (t = x)) as [->|Hne].
  - assert (sum_Z (map (fun w => if decide (x = w) then 1%Z else 0%Z) V) = 0%Z) as ->;
      [|done].
    clear IH Hin Hnd. induction V as [|y V IH]; [done|].
    apply not_elem_of_cons in Hx as [Hxy Hx]. cbn [map]. rewrite sum_Z_cons, IH by done.
    by destruct (decide (x = y)).
  - apply elem_of_cons in Hin as [->|Hin]; [done|]. rewrite IH by done. lia.
Qed.

Lemma sum_occurrences (V tokens : list std_string) :
  NoDup V -> Forall (fun t => t ∈ V) tokens ->
  sum_Z (map (fun w => occurrences w tokens) V) = Z.of_nat (length tokens).
Proof.
  intros Hnd. induction 1 as [|t tokens Ht _ IH].
  - induction V as [|w V IHV]; [done|]. cbn [map]. rewrite sum_Z_cons.
    apply NoDup_cons in Hnd as [_ Hnd]. rewrite IHV by done. done.
  - rewrite (map_ext _ (fun w => (occurrences w tokens
                                   + (if decide (t = w) then 1 else 0))%Z))
      by (intros w; apply occurrences_cons).
    rewrite sum_Z_map_add, IH, sum_indicator by done. simpl length. lia.
Qed.

(** X12. The values of a row add up to the number of tokens of its
    document: no occurrence is lost and none is counted twice. *)
Theorem X12_row_sum
        (world_size : nat) (fs : storage) (config : ExperimentConfig)
        (tables : list table) (table : table) (i idx : nat) :
  1 <= world_size ->
  tables ∈ both_written world_size fs config ->
  table ∈ tables ->
  processed_indices fs config !! i = Some idx ->
  exists row,
    table_matrix table !! i = Some row
    /\ sum_Z row = Z.of_nat (length (tokens_of fs config idx)).
Proof.
  intros HW Htables Htable Hi.
  apply both_written_corpus_table in Htables; [|done]. subst tables.
  apply corpus_table_elem_of in Htable as (_ & Hv & _ & Hm).
  eexists. split.
  - rewrite Hm. change (map ?f ?l) with (f <$> l). by rewrite list_lookup_fmap, Hi.
  - apply sum_occurrences.
    + rewrite Hv. apply sorted_NoDup, vocab_of_sorted.
    + apply Forall_forall. intros t Ht. rewrite Hv.
      apply corpus_vocabulary_elem_of. exists idx. split; [|done].
      by apply list_elem_of_lookup_2 in Hi.
Qed.

Lemma X12_row_sum_witness :
  exists row,
    table_matrix cat_dog_table !! 0 = Some row
    /\ sum_Z row = Z.of_nat (length (tokens_of cat_dog_fs cat_dog_config 0)).
Proof.
  apply (X12_row_sum 2 cat_dog_fs cat_dog_config
           (written (run_serial cat_dog_fs cat_dog_config)) cat_dog_table 0 0).
  - lia.
  - apply list_elem_of_here.
  - vm_compute. apply list_elem_of_here.
  - reflexivity.
Defined.

(** X13. The written vocabulary holds exactly the tokens of the documents
    with content, and no column is useless: every term has a positive value
    in some row. *)
Theorem X13_vocabulary_terms
        (world_size : nat) (fs : storage) (config : ExperimentConfig)
        (tables : list table) (table : table) :
  1 <= world_size ->
  tables ∈ both_written world_size fs config ->
  table ∈ tables ->
  (forall w, w ∈ table_vocabulary table
             <-> exists idx, idx < length (document_paths config)
                             /\ w ∈ tokens_of fs config idx)
  /\ (forall j w, table_vocabulary table !! j = Some w ->
        exists i row c,
          table_matrix table !! i = Some row /\ row !! j = Some c /\ (0 < c)%Z).
Proof.
  intros HW Htables Htable.
  apply both_written_corpus_table in Htables; [|done]. subst tables.
  apply corpus_table_elem_of in Htable as (_ & Hv & _ & Hm).
  assert (forall w, w ∈ table_vocabulary table
                    <-> exists idx, idx ∈ processed_indices fs config
                                    /\ w ∈ tokens_of fs config idx) as Hmem.
  { intros w. rewrite Hv. apply corpus_vocabulary_elem_of. }
  split.
  - intros w. rewrite Hmem. split.
    + intros (idx & Hidx & Hw). apply processed_indices_elem_of in Hidx as [Hidx _].
      by exists idx.
    + intros (idx & Hidx & Hw). exists idx. split; [|done].
      apply processed_indices_elem_of. split; [done|].
      intros Hempty. unfold tokens_of in Hw. rewrite Hempty in Hw.
      by apply elem_of_nil in Hw.
  - intros j w Hj.
    assert (w ∈ table_vocabulary table) as Hw by (by apply list_elem_of_lookup_2 in Hj).
    apply Hmem in Hw as (idx & Hidx & Hw).
    apply list_elem_of_lookup_1 in Hidx as [i Hi].
    exists i. eexists _, _. split; [|split].
    + rewrite Hm. change (map ?f ?l) with (f <$> l). by rewrite list_lookup_fmap, Hi.
    + change (map ?f ?l) with (f <$> l). by rewrite list_lookup_fmap, Hj.
    + by apply occurrences_pos.
Qed.

Lemma X13_vocabulary_terms_witness :
  str "dog" ∈ table_vocabulary cat_dog_table
  <-> exists idx, idx < length (document_paths cat_dog_config)
                  /\ str "dog" ∈ tokens_of cat_dog_fs cat_dog_config idx.
Proof.
  destruct (X13_vocabulary_terms 2 cat_dog_fs cat_dog_config
              (written (run_serial cat_dog_fs cat_dog_config)) cat_dog_table)
    as [H _].
  - lia.
  - apply list_elem_of_here.
  - vm_compute. apply list_elem_of_here.
  - exact (H (str "dog")).
Defined.

(** *** Layout and variable-length gather *)

Lemma list_as_gather (counts : list nat) :
  counts = gather (length counts) (fun i => counts !!! i).
Proof.
  unfold gather. apply list_eq. intros i.
  change (map ?f ?l) with (f <$> l). rewrite list_lookup_fmap.
  destruct (decide (i < length counts)) as [Hlt|Hge].
  - rewrite lookup_seq_lt by done. simpl.
    destruct (lookup_lt_is_Some_2 counts i Hlt) as [c Hc].
    by rewrite Hc, (list_lookup_total_correct _ _ _ Hc).
  - rewrite lookup_seq_ge, lookup_ge_None_2 by lia. done.
Qed.

Lemma psum_take (counts : list nat) i :
  i <= length counts -> psum (fun j => counts !!! j) i = sum_list (take i counts).
Proof.
  induction i as [|i IH]; intros Hi; [done|].
  destruct (lookup_lt_is_Some_2 counts i) as [c Hc]; [lia|].
  rewrite psum_S, IH, (take_S_r _ _ _ Hc), sum_list_with_app by lia.
  rewrite (list_lookup_total_correct _ _ _ Hc). simpl. lia.
Qed.

(** X14. The layout computed by the root is contiguous: the offset of rank
    [i] is the sum of the counts of the ranks before it, so the first offset
    is 0, the pieces do not overlap, and the total is the sum of all
    counts. *)
Theorem X14_layout_contiguous (world_size : nat) (counts : list nat) :
  length counts = world_size ->
  (layout world_size counts).2 = sum_list counts
  /\ length (layout world_size counts).1 = world_size
  /\ (forall i, i < world_size ->
        (layout world_size counts).1 !!! i = sum_list (take i counts))
  /\ (forall i, S i < world_size ->
        (layout world_size counts).1 !!! S i
        = (layout world_size counts).1 !!! i + counts !!! i).
Proof.
  intros Hlen. subst world_size.
  assert (forall i, i < length counts ->
            (layout (length counts) counts).1 !!! i = sum_list (take i counts)) as Hd.
  { intros i Hi. rewrite (list_as_gather counts) at 2.
    rewrite layout_displs_lookup by done. apply psum_take. lia. }
  split; [|split; [|split]].
  - rewrite (list_as_gather counts) at 2. rewrite layout_gather. simpl.
    rewrite psum_take by done. by rewrite firstn_all.
  - rewrite (list_as_gather counts) at 2. rewrite layout_gather. simpl.
    by rewrite length_map, length_seq.
  - done.
  - intros i Hi. rewrite !Hd by lia.
    destruct (lookup_lt_is_Some_2 counts i) as [c Hc]; [lia|].
    rewrite (take_S_r _ _ _ Hc), sum_list_with_app.
    rewrite (list_lookup_total_correct _ _ _ Hc). simpl. lia.
Qed.

Lemma X14_layout_contiguous_witness :
  (layout 3 [4; 0; 2]).1 = [0; 4; 4] /\ (layout 3 [4; 0; 2]).2 = 6.
Proof.
  split; [reflexivity|].
  destruct (X14_layout_contiguous 3 [4; 0; 2] eq_refl) as [H _]. exact H.
Defined.

(** X15. Sizes first, payloads second: with the counts the ranks announced
    and the offsets of the layout, the buffer of the root is exactly as long
    as all payloads together, and the piece cut out for rank [i] is the
    payload of rank [i], whatever the lengths (also 0). *)
Theorem X15_gatherv_chunks
        {A} (world_size : nat) (send : nat -> list A) (x : A) (i : nat) :
  i < world_size ->
  let counts := gather world_size (fun r => length (send r)) in
  let displs := (layout world_size counts).1 in
  let buffer :=
    gatherv world_size send (replicate (layout world_size counts).2 x) counts displs in
  length buffer = sum_list counts
  /\ take (counts !!! i) (drop (displs !!! i) buffer) = send i.
Proof.
  intros Hi counts displs buffer. subst counts displs buffer.
  rewrite (gatherv_concat world_size send x). split.
  - by rewrite length_concat_seq, sum_list_gather.
  - rewrite gather_lookup, layout_displs_lookup by done.
    by apply concat_chunk.
Qed.

Lemma X15_gatherv_chunks_witness :
  let send := fun r : nat => match r with 0 => [7; 8] | 1 => [] | _ => [9] end in
  let counts := gather 3 (fun r => length (send r)) in
  take (counts !!! 2)
       (drop ((layout 3 counts).1 !!! 2)
             (gatherv 3 send (replicate (layout 3 counts).2 0) counts (layout 3 counts).1))
  = [9].
Proof.
  intros send counts.
  exact (proj2 (X15_gatherv_chunks 3 send 0 2 (le_n 3))).
Defined.

(** *** The index of the vocabulary and the local rows *)

(** X16. On every rank [vocab_index] is the inverse of the vocabulary: a
    word is mapped to the one position where it stands, and a word that is
    not in the vocabulary has no entry. *)
Theorem X16_vocab_index_positions
        (world_size : nat) (fs : storage) (config : ExperimentConfig)
        (r : nat) (w : std_string) :
  NoDup (global_vocabulary world_size fs config r)
  /\ (forall i, vocab_index world_size fs config r !! w = Some i
                <-> global_vocabulary world_size fs config r !! i = Some w)
  /\ (vocab_index world_size fs config r !! w = None
      <-> w ∉ global_vocabulary world_size fs config r).
Proof.
  rewrite global_vocabulary_set.
  split; [apply sorted_NoDup, global_vocab_set_sorted|].
  split; [intros i; apply vocab_index_spec|].
  split.
  - intros Hnone (i & Hi)%list_elem_of_lookup_1.
    apply (vocab_index_spec world_size fs config r) in Hi. congruence.
  - intros Hnot. destruct (vocab_index world_size fs config r !! w) as [i|] eqn:E; [|done].
    apply vocab_index_spec in E. destruct Hnot. by apply list_elem_of_lookup_2 in E.
Qed.

Lemma local_counts_elem_of world_size fs config r m :
  m ∈ local_counts world_size fs config r ->
  StronglySorted string_lt (m.*1)
  /\ forall k, k ∈ m.*1 -> k ∈ local_vocab world_size fs config r.
Proof.
  intros Hm. split.
  - rewrite local_counts_entries in Hm. apply list_elem_of_fmap in Hm as (e & -> & He).
    by apply local_entries_keys_sorted in He.
  - intros k Hk. rewrite local_vocab_vocab_of. apply vocab_of_elem_of. by exists m.
Qed.

(** X17. No count of a local document is dropped when its row is built: the
    lookup of every term of the document in [vocab_index] succeeds, and the
    row holds the count of the term at the position found. *)
Theorem X17_local_row_lookup
        (world_size : nat) (fs : storage) (config : ExperimentConfig)
        (r : nat) (m : TermCount) (k : std_string) (c : Z) :
  r < world_size ->
  m ∈ local_counts world_size fs config r ->
  (k, c) ∈ m ->
  exists i, vocab_index world_size fs config r !! k = Some i
            /\ local_row world_size fs config r m !! i = Some c
            /\ length (local_row world_size fs config r m)
               = vocab_size world_size fs config r.
Proof.
  intros Hr Hm Hkc. destruct (local_counts_elem_of _ _ _ _ _ Hm) as [Hs Hkeys].
  assert (k ∈ global_vocab_set world_size fs config) as Hk.
  { apply global_vocab_set_elem_of. exists r. split; [done|]. apply Hkeys.
    apply list_elem_of_fmap. by exists (k, c). }
  apply list_elem_of_lookup_1 in Hk as [i Hi]. exists i.
  split; [by apply vocab_index_spec|].
  rewrite local_row_row_of, vocab_size_set, row_of_length by done.
  split; [|done]. rewrite (row_of_lookup _ _ _ _ Hi).
  by rewrite (proj2 (map_find_Some k c m Hs) Hkc).
Qed.

Lemma X17_local_row_lookup_witness :
  exists i, vocab_index 2 cat_dog_fs cat_dog_config 1 !! str "dog" = Some i
            /\ local_row 2 cat_dog_fs cat_dog_config 1
                         (count_tokens (tokenize_document (str "the dog ran"))) !! i
               = Some 1%Z
            /\ length (local_row 2 cat_dog_fs cat_dog_config 1
                                 (count_tokens (tokenize_document (str "the dog ran"))))
               = vocab_size 2 cat_dog_fs cat_dog_config 1.
Proof.
  apply (X17_local_row_lookup 2 cat_dog_fs cat_dog_config 1).
  - lia.
  - vm_compute. apply list_elem_of_here.
  - vm_compute. apply list_elem_of_here.
Defined.

(** X18. In the three variable-length gathers every rank sends exactly the
    number of elements the root expects from it, and the root's buffers
    hold one index per gathered row and [vocab_size] values per row. *)
Theorem X18_gather_counts_match
        (world_size : nat) (fs : storage) (config : ExperimentConfig) (r : nat) :
  r < world_size ->
  vocab_byte_counts world_size fs config !!! r
  = length (local_vocab_serialized world_size fs config r)
  /\ row_counts world_size fs config !!! r
     = length (local_doc_indices world_size fs config r)
  /\ value_counts world_size fs config !!! r
     = length (local_rows_flat world_size fs config r)
  /\ length (local_rows_flat world_size fs config r)
     = vocab_size world_size fs config r * local_row_count world_size fs config r
  /\ length (gathered_doc_indices world_size fs config) = total_rows world_size fs config
  /\ length (gathered_values world_size fs config)
     = total_rows world_size fs config * vocab_size world_size fs config 0.
Proof.
  intros Hr. split; [|split; [|split; [|split; [|split]]]].
  - unfold vocab_byte_counts. by rewrite gather_lookup.
  - rewrite row_counts_lengths. by rewrite gather_lookup.
  - rewrite value_counts_lengths. by rewrite gather_lookup.
  - rewrite local_rows_flat_tagged.
    rewrite (length_concat_uniform _ (length (global_vocab_set world_size fs config)))
      by apply tagged_rows_length.
    unfold local_row_count.
    rewrite local_counts_entries, vocab_size_set, !length_fmap. lia.
  - by rewrite total_rows_length, gathered_doc_indices_rows, length_fmap.
  - rewrite gathered_values_rows, total_rows_length, vocab_size_set.
    rewrite (length_concat_uniform _ (length (global_vocab_set world_size fs config)))
      by apply gathered_rows_length.
    by rewrite length_fmap.
Qed.

Lemma X18_gather_counts_match_witness :
  value_counts 2 cat_dog_fs cat_dog_config !!! 1
  = length (local_rows_flat 2 cat_dog_fs cat_dog_config 1).
Proof.
  destruct (X18_gather_counts_match 2 cat_dog_fs cat_dog_config 1 (le_n 2))
    as (_ & _ & H & _).
  exact H.
Defined.

(** *** Events of the runs *)

Lemma collectives_app l1 l2 : collectives (l1 ++ l2) = collectives l1 ++ collectives l2.
Proof. unfold collectives. apply flat_map_app. Qed.

Lemma collectives_open_errors log : Forall is_open_error log -> collectives log = [].
Proof.
  induction 1 as [|e log [p ->] _ IH]; [done|]. simpl. exact IH.
Qed.

(** X19. All ranks enter the same collective operations in the same order,
    whatever each of them read: none when the document list is empty, else
    the seven operations of the two synchronisations, then the barrier and
    the reduction.  The baseline enters none. *)
Theorem X19_collectives_lockstep
        (world_size : nat) (fs : storage) (config : ExperimentConfig) (r r' : nat) :
  collectives (run_parallel world_size fs config r)
  = collectives (run_parallel world_size fs config r')
  /\ collectives (run_parallel world_size fs config r)
     = match document_paths config with
       | [] => []
       | _ :: _ =>
           [MPI_Gather; MPI_Gatherv; MPI_Bcast; MPI_Bcast;
            MPI_Gather; MPI_Gatherv; MPI_Gatherv; MPI_Barrier; MPI_Reduce]
       end
  /\ collectives (run_serial fs config) = [].
Proof.
  assert (forall r, collectives (run_parallel world_size fs config r)
                    = match document_paths config with
                      | [] => []
                      | _ :: _ =>
                          [MPI_Gather; MPI_Gatherv; MPI_Bcast; MPI_Bcast;
                           MPI_Gather; MPI_Gatherv; MPI_Gatherv; MPI_Barrier; MPI_Reduce]
                      end) as H.
  { intros r0. unfold run_parallel. destruct (document_paths config) as [|p ps]; [done|].
    rewrite !collectives_app. unfold local_log. rewrite local_read_entries. simpl.
    rewrite (collectives_open_errors _ (document_log_open_errors _ _ _)). simpl.
    destruct r0 as [|r0]; [|done]. unfold root_finish.
    by destruct (doc_names world_size fs config). }
  split; [by rewrite !H|]. split; [apply H|].
  unfold run_serial. rewrite serial_read.
  destruct (document_paths config) as [|p ps] eqn:E; [done|]. rewrite <- E.
  destruct (seq 0 (length (document_paths config))
              ≫= document_entry fs (document_paths config)).*2;
    rewrite collectives_app,
      (collectives_open_errors _ (document_log_open_errors _ _ _)); done.
Qed.

Lemma open_errors_app l1 l2 : open_errors (l1 ++ l2) = open_errors l1 ++ open_errors l2.
Proof. unfold open_errors. apply flat_map_app. Qed.

Lemma open_errors_logs fs (paths : list std_string) l :
  open_errors (l ≫= document_log fs paths)
  = map (fun idx => paths !!! idx) (filter (fun idx => fs (paths !!! idx) = None) l).
Proof.
  induction l as [|idx l IH]; [done|].
  rewrite bind_cons, open_errors_app, IH, filter_cons.
  unfold document_log, read_file.
  destruct (decide (fs (paths !!! idx) = None)) as [E|E].
  - by rewrite E.
  - by destruct (fs (paths !!! idx)).
Qed.

Lemma list_as_lookups {A} `{!Inhabited A} (l : list A) :
  l = map (fun i => l !!! i) (seq 0 (length l)).
Proof.
  apply list_eq. intros i.
  change (map ?f ?l) with (f <$> l). rewrite list_lookup_fmap.
  destruct (decide (i < length l)) as [Hlt|Hge].
  - rewrite lookup_seq_lt by done. simpl.
    destruct (lookup_lt_is_Some_2 l i Hlt) as [c Hc].
    by rewrite Hc, (list_lookup_total_correct _ _ _ Hc).
  - rewrite lookup_seq_ge, lookup_ge_None_2 by lia. done.
Qed.

Lemma filter_map_comm {A B} (f : A -> B) (Q : B -> Prop) `{!forall y, Decision (Q y)} l :
  filter Q (map f l) = map f (filter (fun x => Q (f x)) l).
Proof.
  induction l as [|x l IH]; [done|]. cbn [map]. rewrite !filter_cons, IH.
  by destruct (decide (Q (f x))).
Qed.

Lemma open_errors_run_serial fs config :
  open_errors (run_serial fs config)
  = map (fun idx => document_paths config !!! idx)
        (filter (fun idx => fs (document_paths config !!! idx) = None)
                (seq 0 (length (document_paths config)))).
Proof.
  unfold run_serial. rewrite serial_read.
  destruct (document_paths config) as [|p ps] eqn:E; [done|]. rewrite <- E.
  destruct (seq 0 (length (document_paths config))
              ≫= document_entry fs (document_paths config)).*2;
    rewrite open_errors_app, open_errors_logs; simpl; apply app_nil_r.
Qed.

Lemma open_errors_run_parallel world_size fs config r :
  open_errors (run_parallel world_size fs config r)
  = map (fun idx => document_paths config !!! idx)
        (filter (fun idx => fs (document_paths config !!! idx) = None)
                (assigned_indices (length (document_paths config)) world_size r)).
Proof.
  unfold run_parallel. destruct (document_paths config) as [|p ps] eqn:E; [done|].
  rewrite <- E. rewrite !open_errors_app. unfold local_log.
  rewrite local_read_entries. simpl. rewrite open_errors_logs.
  assert (open_errors (match r with
                       | 0 => root_finish world_size fs config
                       | S _ => []
                       end) = []) as ->.
  { destruct r; [|done]. unfold root_finish.
    by destruct (doc_names world_size fs config). }
  apply app_nil_r.
Qed.

Lemma bind_map_filter {A B} (f : A -> B) (P : A -> Prop) `{!forall x, Decision (P x)} l :
  map f (filter P l) = l ≫= (fun x => if decide (P x) then [f x] else []).
Proof.
  induction l as [|x l IH]; [done|]. rewrite filter_cons, bind_cons, <- IH.
  by destruct (decide (P x)).
Qed.

(** X20. A document that cannot be opened is reported once by the baseline,
    in input order, and once by the rank it is assigned to; together the
    ranks report the same paths as the baseline. *)
Theorem X20_open_errors
        (world_size : nat) (fs : storage) (config : ExperimentConfig) :
  1 <= world_size ->
  open_errors (run_serial fs config)
  = filter (fun path => fs path = None) (document_paths config)
  /\ (forall r,
        open_errors (run_parallel world_size fs config r)
        = map (fun idx => document_paths config !!! idx)
              (filter (fun idx => fs (document_paths config !!! idx) = None)
                      (assigned_indices (length (document_paths config)) world_size r)))
  /\ seq 0 world_size ≫= (fun r => open_errors (run_parallel world_size fs config r))
     ≡ₚ open_errors (run_serial fs config).
Proof.
  intros HW. split; [|split].
  - rewrite open_errors_run_serial. symmetry.
    rewrite (list_as_lookups (document_paths config)) at 1.
    by rewrite filter_map_comm.
  - intros r. apply open_errors_run_parallel.
  - rewrite open_errors_run_serial, bind_map_filter.
    rewrite <- (assigned_indices_cover (length (document_paths config)) world_size HW).
    rewrite list_bind_assoc.
    assert (forall l1 l2 : list std_string, l1 = l2 -> l1 ≡ₚ l2) as Heq by (by intros ?? ->).
    apply Heq. clear Heq.
    induction (seq 0 world_size) as [|r l IH]; [done|].
    rewrite !bind_cons, IH. f_equal.
    rewrite open_errors_run_parallel. apply bind_map_filter.
Qed.

Lemma X20_open_errors_witness :
  open_errors (run_serial locked_fs locked_config) = [str "data/locked.txt"]
  /\ open_errors (run_parallel 1 locked_fs locked_config 0) = [str "data/locked.txt"].
Proof.
  destruct (X20_open_errors 1 locked_fs locked_config (le_n 1)) as (Hs & Hp & _).
  split; [exact Hs|exact (Hp 0)].
Defined.

(** *** main.cpp: the list of documents *)

Lemma getline_split_spec input :
  (newline ∉ (getline_split input).1)
  /\ (input = (getline_split input).1 ++ newline :: (getline_split input).2
      \/ (input = (getline_split input).1 /\ (getline_split input).2 = [])).
Proof.
  induction input as [|c input [IH1 IH2]]; simpl.
  - split; [by intros ?%elem_of_nil|]. by right.
  - destruct (Ascii.eqb_spec c newline) as [->|Hc]; simpl.
    + split; [by intros ?%elem_of_nil|]. by left.
    + destruct (getline_split input) as [line rest]; simpl in *. split.
      * rewrite elem_of_cons. intros [?|?]; [congruence|done].
      * destruct IH2 as [->|[-> ->]]; [by left|by right].
Qed.

Lemma split_by_newline_line line :
  newline ∉ line -> split_by_newline line = cons_nonempty line [].
Proof.
  intros Hnl. unfold split_by_newline. rewrite split_scan_word by done.
  by destruct line.
Qed.

Lemma load_loop_split fuel : forall input names,
  length input <= fuel ->
  load_loop fuel input names = names ++ split_by_newline input.
Proof.
  induction fuel as [|fuel IH]; intros input names Hlen.
  - destruct input; [|simpl in Hlen; lia]. simpl. by rewrite app_nil_r.
  - destruct input as [|c input]; [simpl; by rewrite app_nil_r|].
    cbn [load_loop getline].
    destruct (getline_split_spec (c :: input)) as [Hnl Hsplit].
    destruct (getline_split (c :: input)) as [line rest]; simpl in Hnl, Hsplit.
    destruct Hsplit as [E|[E ->]].
    + rewrite E, split_by_newline_app, split_by_newline_line by done.
      rewrite IH.
      * destruct line; simpl; [done|]. by rewrite <- app_assoc.
      * rewrite E, length_app in Hlen. simpl in Hlen. lia.
    + rewrite E, split_by_newline_line by done. rewrite IH by (simpl; lia).
      change (split_by_newline []) with (@nil std_string). rewrite app_nil_r.
      by destruct line.
Qed.

(** How many more iterations are allowed does not matter: the loop ends
    when [getline] fails. *)
Lemma load_loop_fuel input extra :
  load_loop (length input + extra) input [] = load_loop (length input) input [].
Proof. rewrite !load_loop_split by lia. done. Qed.

(** X21. [load_document_names] returns the lines of the list file that are
    not empty, in order: the same parts as [split_by_newline] of its
    content, so a missing final newline or blank lines change nothing.  When
    the file cannot be opened it reports it and returns no name. *)
Theorem X21_load_document_names (fs : storage) (list_path : std_string) :
  match fs list_path with
  | None =>
      load_document_names fs list_path = ([main_cerr (list_cannot_open list_path)], [])
  | Some data =>
      load_document_names fs list_path = ([], split_by_newline data)
      /\ Forall (fun name => name <> [] /\ (newline ∉ name))
                (load_document_names fs list_path).2
      /\ forall extra, load_loop (length data + extra) data [] = load_loop (length data) data []
  end.
Proof.
  unfold load_document_names. destruct (fs list_path) as [data|]; [|done].
  split; [by rewrite load_loop_split|]. split.
  - simpl. rewrite load_loop_split by done. apply split_by_newline_ok.
  - intros extra. apply load_loop_fuel.
Qed.

(** *** main.cpp: resolving the paths *)

Section Resolve.

Variable parent_path : std_string -> std_string.
Variable path_append : std_string -> std_string -> std_string.
Variable path_exists : std_string -> bool.

Lemma resolve_fold list_dir books_dir names : forall log resolved,
  fold_left (resolve_step path_append path_exists list_dir books_dir) names (log, resolved)
  = (log ++ (names ≫= fun name =>
               if path_exists (path_append list_dir name) then []
               else if path_exists (path_append books_dir name) then []
                    else [main_cerr (file_not_found name)]),
     resolved ++ (names ≫= fun name =>
               if path_exists (path_append list_dir name)
               then [path_append list_dir name]
               else if path_exists (path_append books_dir name)
                    then [path_append books_dir name]
                    else [])).
Proof.
  induction names as [|name names IH]; intros log resolved.
  - simpl. by rewrite !app_nil_r.
  - cbn [fold_left]. rewrite !bind_cons. unfold resolve_step at 2.
    destruct (path_exists (path_append list_dir name)) eqn:E1.
    + rewrite E1, IH. by rewrite <- !app_assoc.
    + destruct (path_exists (path_append books_dir name)) eqn:E2;
        rewrite IH; by rewrite <- !app_assoc.
Qed.

(** X22. Every path returned by [resolve_document_paths] exists; for each
    name it is the file beside the list when there is one, else the file in
    the [books] subdirectory; a name found in neither place is left out with
    one warning; the order of the names is kept. *)
Theorem X22_resolve_document_paths (list_path : std_string) (names : list std_string) :
  let list_dir := parent_path list_path in
  let books_dir := path_append list_dir (str "books") in
  let result := resolve_document_paths parent_path path_append path_exists list_path names in
  result.2
  = names ≫= (fun name =>
                if path_exists (path_append list_dir name)
                then [path_append list_dir name]
                else if path_exists (path_append books_dir name)
                     then [path_append books_dir name]
                     else [])
  /\ Forall (fun path => path_exists path = true) result.2
  /\ length result.2 + length result.1 = length names
  /\ Forall (fun e => exists name, name ∈ names /\ e = main_cerr (file_not_found name))
            result.1.
Proof.
  intros list_dir books_dir result. subst result.
  unfold resolve_document_paths. fold list_dir. fold books_dir.
  rewrite resolve_fold. simpl. split; [done|]. split; [|split].
  - apply Forall_bind, Forall_forall. intros name _. simpl.
    destruct (path_exists (path_append list_dir name)) eqn:E1; [by repeat constructor|].
    destruct (path_exists (path_append books_dir name)) eqn:E2; by repeat constructor.
  - induction names as [|name names IH]; [done|]. rewrite !bind_cons, !length_app.
    destruct (path_exists (path_append list_dir name));
      [|destruct (path_exists (path_append books_dir name))]; simpl in *; lia.
  - apply Forall_bind, Forall_forall. intros name Hname. simpl.
    destruct (path_exists (path_append list_dir name)); [done|].
    destruct (path_exists (path_append books_dir name)); [done|].
    repeat constructor. by exists name.
Qed.

End Resolve.

(** *** main.cpp: the orchestration *)

Lemma flat_map_quiet_free {B} (g : main_event -> list B) log :
  (forall e, quiet e -> g e = []) -> Forall quiet log -> flat_map g log = [].
Proof.
  intros Hg. induction 1 as [|e log He _ IH]; [done|]. simpl. by rewrite Hg, IH.
Qed.

Lemma flat_map_rounds {B} (g : main_event -> list B) (f : nat -> list main_event)
      (x : list B) l :
  (forall i, flat_map g (f i) = x) ->
  flat_map g (concat (map f l)) = concat (replicate (length l) x).
Proof.
  intros Hf. induction l as [|i l IH]; [done|]. simpl.
  by rewrite flat_map_app, Hf, IH.
Qed.

Lemma concat_replicate_singleton {B} (x : B) n : concat (replicate n [x]) = replicate n x.
Proof. induction n as [|n IH]; [done|]. simpl. by rewrite IH. Qed.

Lemma concat_replicate_nil {B} n : concat (replicate n (@nil B)) = [].
Proof. by induction n. Qed.

Lemma on_root_quiet r events : Forall quiet events -> Forall quiet (on_root r events).
Proof. by destruct r. Qed.

Ltac solve_quiet :=
  repeat first [ assumption | exact I | apply Forall_nil_2 | apply Forall_app_2
               | apply on_root_quiet | apply Forall_cons_2 ].

Section MainProperties.

Variable stoi : std_string -> option Z.
Variable parent_path : std_string -> std_string.
Variable path_append : std_string -> std_string -> std_string.
Variable path_exists : std_string -> bool.
Variable fs : storage.

Local Abbreviation main' := (main stoi parent_path path_append path_exists fs).
Local Abbreviation config_of_main := (main_config stoi parent_path path_append path_exists fs).
Local Abbreviation resolve' := (resolve_document_paths parent_path path_append path_exists).

Lemma load_log_quiet list_path : Forall quiet (load_document_names fs list_path).1.
Proof.
  unfold load_document_names. destruct (fs list_path); by repeat constructor.
Qed.

Lemma resolve_log_quiet list_path names : Forall quiet (resolve' list_path names).1.
Proof.
  unfold resolve_document_paths. rewrite resolve_fold. simpl.
  apply Forall_bind, Forall_forall. intros name _. simpl.
  destruct (path_exists _); [done|]. destruct (path_exists _); by repeat constructor.
Qed.

Lemma resolve_paths_exist list_path names :
  Forall (fun path => path_exists path = true) (resolve' list_path names).2.
Proof.
  unfold resolve_document_paths. rewrite resolve_fold. cbn [snd app].
  apply Forall_bind, Forall_forall. intros name _. unfold compose.
  destruct (path_exists (path_append (parent_path list_path) name)) eqn:E1;
    [by repeat constructor|].
  destruct (path_exists (path_append (path_append (parent_path list_path) (str "books"))
                                     name)) eqn:E2;
    by repeat constructor.
Qed.

(** The two shapes of a run of [main]. *)
Lemma main_shape world_size r argv :
  match config_of_main argv with
  | None =>
      (main' world_size r argv).1 <> returned 0
      /\ Forall quiet (main' world_size r argv).2
  | Some config =>
      (main' world_size r argv).1 = returned 0
      /\ document_paths config <> []
      /\ Forall (fun path => path_exists path = true) (document_paths config)
      /\ exists pre post,
          Forall quiet pre /\ Forall quiet post
          /\ (main' world_size r argv).2
             = pre ++ concat (map (experiment fs world_size r config)
                                  (seq 0 (Z.to_nat (num_experiments config))))
                   ++ post
  end.
Proof.
  unfold main_config, main.
  destruct (length argv <? 4); [split; [done|]; cbn [snd]; solve_quiet|].
  destruct (stoi (argv !!! 1)) as [requested|]; [|split; [done|]; cbn [snd]; solve_quiet].
  destruct (stoi (argv !!! 3)) as [experiments|];
    [|split; [done|]; cbn [snd]; solve_quiet].
  pose proof (load_log_quiet (argv !!! 2)) as Hload.
  destruct (load_document_names fs (argv !!! 2)) as [load_log documents].
  cbn [fst snd] in Hload |- *.
  pose proof (resolve_log_quiet (argv !!! 2) documents) as Hres.
  pose proof (resolve_paths_exist (argv !!! 2) documents) as Hex.
  destruct (resolve' (argv !!! 2) documents) as [resolve_log paths].
  cbn [fst snd] in Hres, Hex |- *.
  assert (Forall quiet
            ([mpi_init]
               ++ (if decide (requested = Z.of_nat world_size) then []
                   else on_root r [main_cerr (process_count_mismatch world_size requested)])
               ++ load_log
               ++ on_root r (match documents with
                             | [] => [main_cerr list_is_empty]
                             | _ :: _ => [main_cout (detected_documents documents)]
                             end)
               ++ resolve_log)) as Hpre.
  { destruct (decide (requested = Z.of_nat world_size)); destruct documents; solve_quiet. }
  cbn [snd]. destruct paths as [|p ps].
  - split; [done|]. cbn [snd]. solve_quiet.
  - split; [done|]. split; [done|]. split; [done|].
    eexists _, _. split; [exact Hpre|]. split; [|reflexivity]. solve_quiet.
Qed.

Lemma experiment_serial_calls world_size r config i :
  serial_calls (experiment fs world_size r config i)
  = match r with 0 => [config] | S _ => [] end.
Proof. by destruct r. Qed.

Lemma experiment_parallel_calls world_size r config i :
  parallel_calls (experiment fs world_size r config i) = [config].
Proof. by destruct r. Qed.

Lemma experiment_barriers world_size r config i :
  flat_map (fun e => match e with mpi_barrier => [tt] | _ => [] end)
           (experiment fs world_size r config i) = [tt].
Proof. by destruct r. Qed.

Lemma experiment_runs_and_barriers world_size r config i :
  runs_and_barriers (experiment fs world_size r config i)
  = on_root r [call_run_serial config (run_serial fs config)]
      ++ [mpi_barrier;
          call_run_parallel config (run_parallel world_size fs config r)].
Proof. by destruct r. Qed.

Lemma experiment_written world_size r config i :
  1 <= world_size ->
  main_written (experiment fs world_size r config i)
  = match r with
    | 0 => corpus_table fs config ++ corpus_table fs config
    | S _ => []
    end.
Proof.
  intros HW. destruct r as [|r]; unfold experiment, main_written; simpl.
  - by rewrite run_serial_written, run_parallel_written_root, app_nil_r.
  - by rewrite run_parallel_written_other.
Qed.

End MainProperties.

Section MainTheorems.

Variable stoi : std_string -> option Z.
Variable parent_path : std_string -> std_string.
Variable path_append : std_string -> std_string -> std_string.
Variable path_exists : std_string -> bool.
Variable fs : storage.

Local Abbreviation main' := (main stoi parent_path path_append path_exists fs).
Local Abbreviation config_of_main := (main_config stoi parent_path path_append path_exists fs).

(** What a projection sees of a run of [main]: the experiments only. *)
Lemma main_projection {B} (g : main_event -> list B) world_size r argv :
  (forall e, quiet e -> g e = []) ->
  flat_map g (main' world_size r argv).2
  = match config_of_main argv with
    | None => []
    | Some config =>
        flat_map g (concat (map (experiment fs world_size r config)
                                (seq 0 (Z.to_nat (num_experiments config)))))
    end.
Proof.
  intros Hg.
  pose proof (main_shape stoi parent_path path_append path_exists fs world_size r argv) as H.
  destruct (config_of_main argv) as [config|].
  - destruct H as (_ & _ & _ & pre & post & Hpre & Hpost & ->).
    rewrite !flat_map_app.
    rewrite (flat_map_quiet_free g pre), (flat_map_quiet_free g post) by done.
    by rewrite app_nil_r.
  - destruct H as [_ H]. by apply flat_map_quiet_free.
Qed.

Lemma main_outcome world_size r argv :
  (main' world_size r argv).1 = returned 0 <-> is_Some (config_of_main argv).
Proof.
  pose proof (main_shape stoi parent_path path_append path_exists fs world_size r argv) as H.
  destruct (config_of_main argv) as [config|].
  - destruct H as [-> _]. split; [by eexists|done].
  - destruct H as [H _]. split; [done|]. by intros [? ?].
Qed.

(** X23. [main] never starts a run on an empty corpus: every configuration
    it passes to [run_serial] or [run_parallel] has at least one document
    path, and all its paths exist.  When [main] does not return 0 (too few
    arguments, a number [std::stoi] rejects, no document resolved) it has
    started no run, entered no barrier and written nothing. *)
Theorem X23_main_guards (world_size r : nat) (argv : list std_string) :
  Forall (fun config =>
            document_paths config <> []
            /\ Forall (fun path => path_exists path = true) (document_paths config))
         (serial_calls (main' world_size r argv).2
            ++ parallel_calls (main' world_size r argv).2)
  /\ ((main' world_size r argv).1 <> returned 0 ->
      serial_calls (main' world_size r argv).2 = []
      /\ parallel_calls (main' world_size r argv).2 = []
      /\ main_written (main' world_size r argv).2 = []
      /\ barriers (main' world_size r argv).2 = 0).
Proof.
  pose proof (main_shape stoi parent_path path_append path_exists fs world_size r argv) as H.
  unfold serial_calls, parallel_calls, main_written, barriers.
  rewrite !main_projection by (by intros []).
  destruct (config_of_main argv) as [config|].
  - destruct H as (Hout & Hne & Hex & _). split; [|by rewrite Hout].
    rewrite (flat_map_rounds _ _ _ _ (experiment_serial_calls fs world_size r config)).
    rewrite (flat_map_rounds _ _ _ _ (experiment_parallel_calls fs world_size r config)).
    apply Forall_app. split; apply Forall_forall; intros c Hc.
    + apply list_elem_of_In, in_concat in Hc as (l & Hl & Hc).
      apply list_elem_of_In, elem_of_replicate in Hl as [-> _].
      destruct r; [|done]. apply list_elem_of_In, list_elem_of_singleton in Hc.
      by subst.
    + apply list_elem_of_In, in_concat in Hc as (l & Hl & Hc).
      apply list_elem_of_In, elem_of_replicate in Hl as [-> _].
      apply list_elem_of_In, list_elem_of_singleton in Hc. by subst.
  - split; [done|]. done.
Qed.

(** X24. When [main] returns 0 it has run as many experiments as its third
    argument says, all with one configuration.  In every experiment rank 0
    runs the baseline first, then every rank enters the barrier and, after
    it, the distributed run; nothing else is run.  The tables rank 0 wrote —
    baseline and distributed, in every experiment — are all the same; the
    other ranks wrote nothing. *)
Theorem X24_main_experiments (world_size r : nat) (argv : list std_string) :
  1 <= world_size ->
  (main' world_size r argv).1 = returned 0 ->
  exists config,
    config_of_main argv = Some config
    /\ runs_and_barriers (main' world_size r argv).2
       = concat (replicate (Z.to_nat (num_experiments config))
                   (on_root r [call_run_serial config (run_serial fs config)]
                      ++ [mpi_barrier;
                          call_run_parallel config
                            (run_parallel world_size fs config r)]))
    /\ parallel_calls (main' world_size r argv).2
       = replicate (Z.to_nat (num_experiments config)) config
    /\ serial_calls (main' world_size r argv).2
       = match r with
         | 0 => replicate (Z.to_nat (num_experiments config)) config
         | S _ => []
         end
    /\ barriers (main' world_size r argv).2 = Z.to_nat (num_experiments config)
    /\ main_written (main' world_size r argv).2
       = match r with
         | 0 => concat (replicate (Z.to_nat (num_experiments config))
                                  (corpus_table fs config ++ corpus_table fs config))
         | S _ => []
         end.
Proof.
  intros HW Hout. apply main_outcome in Hout as [config Hconfig].
  exists config. split; [done|].
  unfold runs_and_barriers, serial_calls, parallel_calls, main_written, barriers.
  rewrite !main_projection by (by intros []). rewrite Hconfig.
  rewrite (flat_map_rounds _ _ _ _ (experiment_runs_and_barriers fs world_size r config)).
  rewrite (flat_map_rounds _ _ _ _ (experiment_serial_calls fs world_size r config)).
  rewrite (flat_map_rounds _ _ _ _ (experiment_parallel_calls fs world_size r config)).
  rewrite (flat_map_rounds _ _ _ _ (experiment_barriers fs world_size r config)).
  rewrite (flat_map_rounds _ _ _ _
             (fun i => experiment_written fs world_size r config i HW)).
  rewrite length_seq, !concat_replicate_singleton, length_replicate.
  split; [done|]. split; [done|]. split; [|split; [done|]].
  - destruct r; [apply concat_replicate_singleton|apply concat_replicate_nil].
  - destruct r; [done|apply concat_replicate_nil].
Qed.

(** X25. The ranks cannot part ways in [main]: whatever its rank, a process
    ends the same way, and it enters the same number of barriers and starts
    the same distributed runs, with the same configuration. *)
Theorem X25_main_rank_independent (world_size r r' : nat) (argv : list std_string) :
  (main' world_size r argv).1 = (main' world_size r' argv).1
  /\ parallel_calls (main' world_size r argv).2
     = parallel_calls (main' world_size r' argv).2
  /\ barriers (main' world_size r argv).2 = barriers (main' world_size r' argv).2.
Proof.
  split; [|split].
  - unfold main. destruct (length argv <? 4); [done|].
    destruct (stoi (argv !!! 1)); [|done]. destruct (stoi (argv !!! 3)); [|done].
    destruct (load_document_names fs (argv !!! 2)) as [load_log documents].
    destruct (resolve_document_paths parent_path path_append path_exists
                                     (argv !!! 2) documents) as [resolve_log paths].
    by destruct paths.
  - unfold parallel_calls. rewrite !main_projection by (by intros []).
    destruct (config_of_main argv) as [config|]; [|done].
    by rewrite !(flat_map_rounds _ _ _ _ (experiment_parallel_calls fs world_size _ config)).
  - unfold barriers. rewrite !main_projection by (by intros []).
    destruct (config_of_main argv) as [config|]; [|done].
    by rewrite !(flat_map_rounds _ _ _ _ (experiment_barriers fs world_size _ config)).
Qed.

End MainTheorems.

Lemma X23_main_guards_witness :
  (main digits_stoi example_parent_path example_path_append example_path_exists
        example_fs 2 0 [str "bow_app"; str "2"]).1 <> returned 0
  /\ barriers (main digits_stoi example_parent_path example_path_append
                    example_path_exists example_fs 2 0 [str "bow_app"; str "2"]).2 = 0.
Proof.
  destruct (X23_main_guards digits_stoi example_parent_path example_path_append
              example_path_exists example_fs 2 0 [str "bow_app"; str "2"]) as [_ H].
  split; [discriminate|].
  destruct H as (_ & _ & _ & Hb); [discriminate|exact Hb].
Defined.

Lemma X24_main_experiments_witness :
  exists config,
    parallel_calls (example_main 0).2 = replicate 3 config
    /\ runs_and_barriers (example_main 0).2
       = concat (replicate 3
                   [call_run_serial config (run_serial example_fs config);
                    mpi_barrier;
                    call_run_parallel config (run_parallel 2 example_fs config 0)])
    /\ main_written (example_main 0).2
       = concat (replicate 3 (corpus_table example_fs config
                                ++ corpus_table example_fs config)).
Proof.
  destruct (X24_main_experiments digits_stoi example_parent_path example_path_append
              example_path_exists example_fs 2 0 example_argv (le_S 1 1 (le_n 1)) eq_refl)
    as (config & Hc & Ho & Hp & _ & _ & Hw).
  exists config. injection Hc as <-. split; [exact Hp|]. split; [exact Ho|exact Hw].
Defined.

(** ** The CSV file *)

Lemma fold_left_append {A} (f : A -> std_string) (l : list A) (init : std_string) :
  fold_left (fun output x => output ++ f x) l init = init ++ concat (map f l).
Proof.
  revert init. induction l as [|x l IH]; intros init; simpl.
  - by rewrite app_nil_r.
  - by rewrite IH, <- app_assoc.
Qed.

Lemma uint_digits d c :
  c ∈ str (NilEmpty.string_of_uint d) -> c <> comma /\ c <> newline.
Proof.
  induction d; simpl; rewrite ?elem_of_nil, ?elem_of_cons; try tauto;
    (intros [->|H]; [by split|by apply IHd]).
Qed.

Lemma print_int_bytes value c :
  c ∈ print_int value -> c <> comma /\ c <> newline.
Proof.
  unfold print_int.
  assert (forall d, c ∈ str (NilZero.string_of_uint d) -> c <> comma /\ c <> newline) as Hu.
  { intros d Hc. destruct d; try (apply uint_digits in Hc; tauto).
    simpl in Hc. rewrite elem_of_cons, elem_of_nil in Hc.
    destruct Hc as [->|[]]. by split. }
  destruct (Z.to_int value) as [d|d].
  - apply Hu.
  - change (c ∈ "-"%char :: str (NilZero.string_of_uint d) -> c <> comma /\ c <> newline).
    rewrite elem_of_cons. intros [->|Hc]; [by split|by apply (Hu d)].
Qed.

Lemma print_int_safe value : csv_safe (print_int value).
Proof.
  split; intros Hc; apply print_int_bytes in Hc; tauto.
Qed.

Lemma str_inj s s' : str s = str s' -> s = s'.
Proof.
  intros H. rewrite <- (string_of_list_ascii_of_string s),
              <- (string_of_list_ascii_of_string s').
  unfold str in H. by rewrite H.
Qed.

Lemma to_int_proper value :
  Z.to_int value <> Decimal.Pos Decimal.Nil /\ Z.to_int value <> Decimal.Neg Decimal.Nil.
Proof.
  destruct value as [|p|p]; simpl; split; try discriminate;
    intros [= H]; by apply Unsigned.to_uint_nonnil in H.
Qed.

(** Printing loses nothing: different values have different digits. *)
Lemma print_int_inj value value' : print_int value = print_int value' -> value = value'.
Proof.
  intros H%str_inj.
  apply (f_equal NilZero.int_of_string) in H.
  destruct (to_int_proper value), (to_int_proper value').
  rewrite !NilZero.isi in H by done.
  injection H as H. by rewrite <- (DecimalZ.of_to value), H, DecimalZ.of_to.
Qed.

Lemma print_row_inj (row row' : list Z) :
  map print_int row = map print_int row' -> row = row'.
Proof.
  revert row'. induction row as [|x row IH]; intros [|x' row']; simpl; try done.
  intros [= Hx%print_int_inj H%IH]. by subst.
Qed.

Lemma csv_safe_stop field : csv_safe field <-> Forall (fun c => ~ csv_stop c) field.
Proof.
  unfold csv_safe, csv_stop. rewrite Forall_forall. split.
  - intros [Hc Hn] c Hin [->| ->]; tauto.
  - intros H. split; intros Hin; apply (H _ Hin); tauto.
Qed.

Lemma csv_safe_cons c field :
  csv_safe (c :: field) <-> ~ csv_stop c /\ csv_safe field.
Proof. rewrite !csv_safe_stop, Forall_cons. tauto. Qed.

(** Two texts that agree and whose first parts hold no stop byte agree on
    the first part, on the stop byte and on what follows. *)
Lemma stop_inj (a b x y : std_string) (s s' : ascii) :
  csv_safe a -> csv_safe b -> csv_stop s -> csv_stop s' ->
  a ++ s :: x = b ++ s' :: y -> a = b /\ s = s' /\ x = y.
Proof.
  revert b. induction a as [|c a IH]; intros [|c' b]; simpl;
    rewrite ?csv_safe_cons; intros Ha Hb Hs Hs'.
  - by intros [= -> ->].
  - intros [= <- _]. tauto.
  - intros [= -> _]. tauto.
  - intros [= <- H]. apply IH in H as (-> & -> & ->); tauto.
Qed.

Lemma csv_line_inj (fields : list std_string) :
  forall first first' fields' rest rest',
  csv_safe first -> csv_safe first' ->
  Forall csv_safe fields -> Forall csv_safe fields' ->
  csv_line first fields ++ rest = csv_line first' fields' ++ rest' ->
  first = first' /\ fields = fields' /\ rest = rest'.
Proof.
  unfold csv_line.
  induction fields as [|f fields IH]; intros first first' [|f' fields'] rest rest'
    Hf Hf' Hfs Hfs'; simpl; rewrite <- ?app_assoc; simpl.
  - intros H. apply stop_inj in H as (-> & _ & ->); try done; by right.
  - intros H. apply stop_inj in H as (_ & [=] & _); try done; [by right|by left].
  - intros H. apply stop_inj in H as (_ & [=] & _); try done; [by left|by right].
  - intros H. apply stop_inj in H as (-> & _ & H); try done; try by left.
    apply Forall_cons in Hfs as [Hf1 Hfs]. apply Forall_cons in Hfs' as [Hf1' Hfs'].
    rewrite <- !app_assoc in H.
    specialize (IH f f' fields' rest rest' Hf1 Hf1' Hfs Hfs').
    rewrite <- !app_assoc in IH. simpl in IH.
    apply IH in H as (-> & -> & ->). done.
Qed.

Lemma csv_header_line vocabulary :
  csv_header vocabulary = csv_line (str "document") vocabulary.
Proof. unfold csv_header, csv_line. by rewrite fold_left_append, <- app_assoc. Qed.

Lemma csv_row_line doc_name row :
  csv_row doc_name row = csv_line doc_name (map print_int row).
Proof.
  unfold csv_row, csv_line. by rewrite fold_left_append, <- app_assoc, map_map.
Qed.

Lemma seq_lookups_zip {A B C} `{Inhabited A, Inhabited B}
      (f : A -> B -> C) (l : list A) (k : list B) :
  length l = length k ->
  map (fun i => f (l !!! i) (k !!! i)) (seq 0 (length k)) = zip_with f l k.
Proof.
  revert k. induction l as [|x l IH]; intros [|y k]; simpl; try done.
  intros [= Hlen]. f_equal. rewrite <- seq_shift, map_map. by apply IH.
Qed.

(** The text is the header line followed by one line per row. *)
Lemma csv_text_lines matrix vocabulary doc_names :
  length doc_names = length matrix ->
  csv_text matrix vocabulary doc_names
  = csv_line (str "document") vocabulary
    ++ concat (zip_with (fun name row => csv_line name (map print_int row))
                        doc_names matrix).
Proof.
  intros Hlen. unfold csv_text.
  rewrite fold_left_append, csv_header_line. f_equal. f_equal.
  rewrite <- seq_lookups_zip by done.
  apply map_ext. intros i. apply csv_row_line.
Qed.

Lemma csv_rows_inj (doc_names : list std_string) :
  forall matrix doc_names' matrix',
  length doc_names = length matrix -> length doc_names' = length matrix' ->
  Forall csv_safe doc_names -> Forall csv_safe doc_names' ->
  concat (zip_with (fun name row => csv_line name (map print_int row)) doc_names matrix)
  = concat (zip_with (fun name row => csv_line name (map print_int row))
                     doc_names' matrix') ->
  doc_names = doc_names' /\ matrix = matrix'.
Proof.
  assert (forall first fields rest, csv_line first fields ++ rest <> []) as Hne.
  { intros first fields rest. unfold csv_line. rewrite !app_assoc, <- app_assoc.
    intros [_ [=]]%app_eq_nil. }
  induction doc_names as [|name doc_names IH];
    intros [|row matrix] [|name' doc_names'] [|row' matrix']; simpl; try done.
  - intros _ _ _ _ H. symmetry in H. by apply Hne in H.
  - intros _ _ _ _ H. by apply Hne in H.
  - intros [= Hlen] [= Hlen'] [Hn Hns]%Forall_cons [Hn' Hns']%Forall_cons H.
    apply csv_line_inj in H as (-> & ->%print_row_inj & H); try done.
    + apply IH in H as [-> ->]; done.
    + apply Forall_forall. intros f (v & <- & _)%list_elem_of_In%in_map_iff.
      apply print_int_safe.
    + apply Forall_forall. intros f (v & <- & _)%list_elem_of_In%in_map_iff.
      apply print_int_safe.
Qed.

Lemma document_safe : csv_safe (str "document").
Proof.
  apply csv_safe_stop. unfold csv_stop.
  repeat (apply Forall_cons; split; [intros [?|?]; discriminate|]). apply Forall_nil_2.
Qed.

(** X26. The file determines the table: when no document name and no term
    holds a comma or a newline and there is one name per row, two tables
    with the same text are the same table. *)
Theorem X26_csv_text_injective
        (matrix matrix' : list (list Z))
        (vocabulary vocabulary' doc_names doc_names' : list std_string) :
  length doc_names = length matrix -> length doc_names' = length matrix' ->
  Forall csv_safe vocabulary -> Forall csv_safe vocabulary' ->
  Forall csv_safe doc_names -> Forall csv_safe doc_names' ->
  csv_text matrix vocabulary doc_names = csv_text matrix' vocabulary' doc_names' ->
  matrix = matrix' /\ vocabulary = vocabulary' /\ doc_names = doc_names'.
Proof.
  intros Hlen Hlen' Hv Hv' Hn Hn' H.
  rewrite !csv_text_lines in H by done.
  apply csv_line_inj in H as (_ & -> & H); try done; try apply document_safe.
  apply csv_rows_inj in H as [-> ->]; done.
Qed.

Lemma count_byte_app b x y : count_byte b (x ++ y) = count_byte b x + count_byte b y.
Proof. unfold count_byte. by rewrite filter_app, length_app. Qed.

Lemma count_byte_absent b x : b ∉ x -> count_byte b x = 0.
Proof.
  unfold count_byte. induction x as [|c x IH]; [done|].
  rewrite not_elem_of_cons. intros [Hc Hx].
  rewrite filter_cons_False by congruence. by apply IH.
Qed.

Lemma count_byte_line first fields :
  csv_safe first -> Forall csv_safe fields ->
  count_byte newline (csv_line first fields) = 1
  /\ count_byte comma (csv_line first fields) = length fields.
Proof.
  intros [Hc Hn] Hfs. unfold csv_line. rewrite !count_byte_app.
  rewrite (count_byte_absent newline first), (count_byte_absent comma first) by done.
  assert (count_byte newline (concat (map (cons comma) fields)) = 0
          /\ count_byte comma (concat (map (cons comma) fields)) = length fields)
    as [-> ->].
  { induction Hfs as [|f fields [Hfc Hfn] _ [IHn IHc]]; [done|]. simpl.
    change (comma :: f ++ ?x) with ([comma] ++ f ++ x).
    rewrite !count_byte_app, IHn, IHc.
    rewrite (count_byte_absent newline f), (count_byte_absent comma f) by done.
    done. }
  done.
Qed.

Lemma X26_csv_text_injective_witness :
  [[1; 0]; [0; 2]]%Z = [[1; 0]; [0; 2]]%Z
  /\ [str "cat"; str "dog"] = [str "cat"; str "dog"]
  /\ [str "d0.txt"; str "d1.txt"] = [str "d0.txt"; str "d1.txt"].
Proof.
  apply (X26_csv_text_injective
           [[1; 0]; [0; 2]]%Z [[1; 0]; [0; 2]]%Z
           [str "cat"; str "dog"] [str "cat"; str "dog"]
           [str "d0.txt"; str "d1.txt"] [str "d0.txt"; str "d1.txt"]);
    try reflexivity;
    apply (bool_decide_unpack _); vm_compute; exact I.
Defined.

(** The file of the cat-and-dog corpus, byte for byte. *)
Example csv_text_cat_dog :
  csv_text (table_matrix cat_dog_table) (table_vocabulary cat_dog_table)
           (table_doc_names cat_dog_table)
  = cat_dog_text.
Proof. reflexivity. Qed.

(** A name with a comma makes two different tables print as one text. *)
Example csv_text_comma_collision :
  csv_text [[1]]%Z [str "a"] [str "d,0"] = csv_text [[0; 1]]%Z [str "a"] [str "d"].
Proof. reflexivity. Qed.

Lemma csv_line_ok_line first fields :
  csv_safe first -> Forall csv_safe fields ->
  csv_line_ok (length fields) (csv_line first fields).
Proof.
  intros Hf Hfs. exists (first ++ concat (map (cons comma) fields)).
  split; [unfold csv_line; by rewrite app_assoc|]. split.
  - rewrite elem_of_app. intros [Hin|Hin]; [by apply Hf in Hin|].
    apply list_elem_of_In, in_concat in Hin as (l & (f & <- & Hl)%in_map_iff & Hin).
    apply list_elem_of_In, elem_of_cons in Hin as [[=]|Hin].
    rewrite Forall_forall in Hfs. apply list_elem_of_In in Hl.
    by apply (Hfs f Hl) in Hin.
  - destruct (count_byte_line first fields Hf Hfs) as [_ Hc].
    unfold csv_line in Hc. rewrite app_assoc, count_byte_app in Hc.
    change (count_byte comma [newline]) with 0 in Hc. lia.
Qed.

Lemma csv_rows_ok (width : nat) (doc_names : list std_string) :
  forall matrix,
  length doc_names = length matrix ->
  Forall csv_safe doc_names ->
  Forall (fun row => length row = width) matrix ->
  Forall (csv_line_ok width)
         (zip_with (fun name row => csv_line name (map print_int row)) doc_names matrix).
Proof.
  induction doc_names as [|name doc_names IH]; intros [|row matrix]; simpl; try done.
  intros [= Hlen] [Hn Hns]%Forall_cons [Hr Hrs]%Forall_cons.
  apply Forall_cons. split; [|by apply IH].
  rewrite <- Hr, <- (length_map print_int). apply csv_line_ok_line; [done|].
  apply Forall_forall. intros f (v & <- & _)%list_elem_of_In%in_map_iff.
  apply print_int_safe.
Qed.

(** The text of a rectangular table with safe names and terms is a header
    line followed by one line per row, every line with one field per term
    after its first field. *)
Lemma csv_text_rectangular matrix vocabulary doc_names :
  length doc_names = length matrix ->
  Forall csv_safe vocabulary -> Forall csv_safe doc_names ->
  Forall (fun row => length row = length vocabulary) matrix ->
  exists lines,
    csv_text matrix vocabulary doc_names = concat lines
    /\ length lines = 1 + length matrix
    /\ Forall (csv_line_ok (length vocabulary)) lines.
Proof.
  intros Hlen Hv Hn Hrows.
  exists (csv_line (str "document") vocabulary
          :: zip_with (fun name row => csv_line name (map print_int row))
                      doc_names matrix).
  split; [by rewrite csv_text_lines|]. split.
  - cbn [length]. rewrite length_zip_with, Hlen. lia.
  - apply Forall_cons. split; [|by apply csv_rows_ok].
    apply csv_line_ok_line; [apply document_safe|done].
Qed.

Lemma token_ok_csv_safe token : token_ok token -> csv_safe token.
Proof.
  intros [_ Hb]. rewrite Forall_forall in Hb. split; intros Hin.
  - apply (term_byte_not_comma comma); [by apply Hb|done].
  - apply (term_byte_not_newline newline); [by apply Hb|done].
Qed.

(** X27. The file both runs write is rectangular when no document name
    holds a comma or a newline: it is made of one line for the header and
    one per document with content, every line ends at its only newline and
    holds as many commas as the vocabulary has terms; no term of the header
    holds a comma or a newline. *)
Theorem X27_csv_rectangular
        (world_size : nat) (fs : storage) (config : ExperimentConfig)
        (tables : list table) (table : table) :
  1 <= world_size ->
  tables ∈ both_written world_size fs config ->
  table ∈ tables ->
  Forall (fun path => csv_safe (filename path)) (document_paths config) ->
  Forall csv_safe (table_vocabulary table)
  /\ exists lines,
       csv_text (table_matrix table) (table_vocabulary table) (table_doc_names table)
       = concat lines
       /\ length lines = 1 + length (processed_indices fs config)
       /\ Forall (csv_line_ok (length (table_vocabulary table))) lines.
Proof.
  intros HW Htables Htable Hnames.
  apply both_written_corpus_table in Htables; [|done]. subst tables.
  apply corpus_table_elem_of in Htable as (_ & Hv & Hn & Hm).
  assert (Forall csv_safe (table_vocabulary table)) as Hsafe.
  { apply Forall_forall. intros w Hw. rewrite Hv in Hw.
    apply corpus_vocabulary_elem_of in Hw as (idx & _ & Hw).
    apply token_ok_csv_safe.
    pose proof (tokenize_document_token_ok (content_of fs config idx)) as Hok.
    rewrite Forall_forall in Hok. by apply Hok. }
  split; [done|].
  assert (length (table_matrix table) = length (processed_indices fs config)) as Hrows
    by (by rewrite Hm, length_map).
  rewrite <- Hrows. apply csv_text_rectangular; [|done| |].
  - by rewrite Hn, Hm, !length_map.
  - rewrite Hn. apply Forall_forall.
    intros name (idx & <- & Hidx%list_elem_of_In)%list_elem_of_In%in_map_iff.
    apply processed_indices_elem_of in Hidx as [Hidx _].
    rewrite Forall_forall in Hnames. apply Hnames.
    by apply list_elem_of_lookup_total_2.
  - rewrite Hm. apply Forall_forall.
    intros row (idx & <- & _)%list_elem_of_In%in_map_iff. apply length_map.
Qed.

Lemma X27_csv_rectangular_witness :
  exists lines,
    cat_dog_text = concat lines
    /\ length lines = 3
    /\ Forall (csv_line_ok 5) lines.
Proof.
  destruct (X27_csv_rectangular 2 cat_dog_fs cat_dog_config
              (written (run_serial cat_dog_fs cat_dog_config)) cat_dog_table)
    as (_ & lines & Ht & Hl & Hok).
  - lia.
  - by left.
  - vm_compute. apply list_elem_of_here.
  - apply (bool_decide_unpack _). vm_compute. exact I.
  - exists lines. split; [exact Ht|]. split; [exact Hl|exact Hok].
Defined.

(** ** Tokens and the two text encodings *)



